(** * Sneller query planner: expression equivalence, plan lowering,
      input deduplication and the fixed-point rule engine

    A shallow embedding of the parts of the Go packages [expr], [plan]
    and [pir] that the planner specification talks about, together with
    the properties proved (or refuted) about them.  Each Go package is a
    Rocq module of the same name; definitions keep the names of the Go
    functions they embed. *)

From Stdlib Require Import ZArith QArith Lia Bool Ascii String.
From Stdlib Require Import Floats.SpecFloat.
From Stdlib Require Qcanon.
From Stdlib Require Import Sorting.Sorted.
From stdpp Require Import base option list gmap strings.

Local Open Scope string_scope.
Local Open Scope list_scope.
Local Open Scope Z_scope.

Set Warnings "-register-all".

(** ** Machine numbers *)

(** Go's [int], [int64] and [uint64] on the 64-bit targets of the
    repository (it ships amd64 assembly) are modelled as [Z] with the
    wrap-around of the conversions written out. *)
Module num.

Definition minInt64 : Z := - 2 ^ 63.
Definition maxInt64 : Z := 2 ^ 63 - 1.

Definition IsInt64 (z : Z) : bool := (minInt64 <=? z) && (z <=? maxInt64).

(** [uint64(x)] for a signed [x]. *)
Definition to_uint64 (z : Z) : Z := z mod 2 ^ 64.

(** [int64(u)] for an unsigned [u]. *)
Definition to_int64 (u : Z) : Z :=
  let w := u mod 2 ^ 64 in if w <? 2 ^ 63 then w else w - 2 ^ 64.

(** [uint8(u)]. *)
Definition to_uint8 (u : Z) : Z := u mod 2 ^ 8.

(** *** float64 *)

(** IEEE 754 binary64 values, as the Standard Library's executable
    specification of floats. *)
Definition float64 : Type := spec_float.

Definition prec : Z := 53.
Definition emax : Z := 1024.

(** [f == g] on float64: false as soon as one side is a NaN, and the two
    zeros are equal. *)
Definition feq (f g : float64) : bool := SFeqb f g.
Definition flt (f g : float64) : bool := SFltb f g.
Definition fsub (f g : float64) : float64 := SFsub prec emax f g.
Definition fabs (f : float64) : float64 := SFabs f.

Definition isNaN (f : float64) : bool :=
  match f with S754_nan => true | _ => false end.

(** [math.Signbit]. *)
Definition Signbit (f : float64) : bool :=
  match f with
  | S754_zero s | S754_infinity s | S754_finite s _ _ => s
  | S754_nan => false
  end.

(** [math.IsInf(f, sign)]. *)
Definition IsInf (f : float64) (sign : Z) : bool :=
  match f with
  | S754_infinity s =>
      if 0 <? sign then negb s else if sign <? 0 then s else true
  | _ => false
  end.

(** [float64(i)] for an [int64] [i]: round to nearest, ties to even. *)
Definition of_int64 (i : Z) : float64 := binary_normalize prec emax i 0 false.

(** [int64(f)]: truncation toward zero.  The Go specification leaves the
    result open when the value does not fit; the amd64 conversion
    instruction then yields the smallest int64, which is what is
    modelled here. *)
Definition trunc_int64 (f : float64) : Z :=
  match f with
  | S754_zero _ => 0
  | S754_finite s m e =>
      let a := if 0 <=? e then Z.shiftl (Zpos m) e else Z.shiftr (Zpos m) (- e) in
      let v := if s then - a else a in
      if IsInt64 v then v else minInt64
  | S754_infinity _ | S754_nan => minInt64
  end.

(** The rational value of a finite float. *)
Definition to_Q (f : float64) : option Q :=
  match f with
  | S754_zero _ => Some (0 # 1)
  | S754_finite s m e =>
      let a := if s then Zneg m else Zpos m in
      Some (if 0 <=? e then inject_Z (a * 2 ^ e) else a # (Z.to_pos (2 ^ (- e))))
  | _ => None
  end.

(** *** big.Rat *)

(** A [big.Rat] is a rational number; [Q] values are compared and
    inspected through their reduced form, as [big.Rat] keeps its values
    in lowest terms. *)
Definition IsInt (r : Q) : bool := Pos.eqb (Qden (Qred r)) 1.
Definition Num (r : Q) : Z := Qnum (Qred r).

(** [x.Cmp(y) == 0]. *)
Definition Cmp0 (x y : Q) : bool := Qeq_bool x y.

(** [Rat.Float64] of math/big: the nearest float64 (ties to even) and whether
    it represents the rational exactly; a magnitude too large for
    float64 gives an infinity and [false]. *)
Definition Float64 (r : Q) : float64 * bool :=
  match Qnum r with
  | Z0 => (S754_zero false, true)
  | Zpos n | Zneg n =>
      let s := match Qnum r with Zneg _ => true | _ => false end in
      let '(q, e, l) := SFdiv_core_binary prec emax (Zpos n) 0 (Zpos (Qden r)) 0 in
      let f := binary_round_aux prec emax s q e l in
      (f, match to_Q f with Some v => Qeq_bool v r | None => false end)
  end.

(** The float64 literal [1e-16] of [Rational.Equals]. *)
Definition tolerance : float64 := fst (Float64 (1 # 10000000000000000)).

End num.

(** ** Results of Go calls *)

(** A call returns, panics, or (for a loop run on fuel) has not finished
    when the fuel ran out. *)
Inductive outcome (A : Type) : Type :=
| Returns (a : A)
| Panics
| OutOfFuel.

Arguments Returns {A} a.
Arguments Panics {A}.
Arguments OutOfFuel {A}.

(** A Go [(T, error)] result. *)
Inductive result (A : Type) : Type :=
| Ok (a : A)
| Err (msg : string).

Arguments Ok {A} a.
Arguments Err {A} msg.

(** ** Package ion: the typed values of the binary codec *)

Module ion.

Import num.

(** Modelled from the spec: the ion writer and reader are outside the
    files embedded here.  A datum is kept as the typed value that the
    writer calls build and the reader hands back ("values are typed:
    string, int, uint, bool, blob, timestamp, struct, list, null,
    symbol-ref", and floats); a symbol stands for the string it interns,
    and a struct is the list of its labelled fields in the order
    written.  Integers are typed by sign: [Uint] holds the non-negative
    ones and [Int] the negative ones.  The only blobs of the expression
    codec are the ones that [Rat.GobEncode] packs, kept as the rational
    packed. *)
Inductive Datum : Type :=
| Null
| Bool (b : bool)
| Int (i : Z)
| Uint (u : Z)
| Float (f : float64)
| String (s : string)
| Symbol (s : string)
| Timestamp (t : Z)
| Blob (mem : Q)
| List (items : list Datum)
| Struct (fields : list (string * Datum)).

(** Modelled from the spec: [dst.WriteInt(i)] and [dst.WriteUint(u)]. *)
Definition WriteInt (i : Z) : Datum := if i <? 0 then Int i else Uint i.
Definition WriteUint (u : Z) : Datum := Uint u.

(** Modelled from the spec: [f.Int()], [f.Uint()], [f.Bool()],
    [f.String()] and [f.BlobShared()] on a field or datum: the value, or an error
    ([None]) for a datum of another type or a value out of range. *)
Definition as_Int (d : Datum) : option Z :=
  match d with
  | Int i => Some i
  | Uint u => if IsInt64 u then Some u else None
  | _ => None
  end.

Definition as_Bool (d : Datum) : option bool :=
  match d with
  | Bool b => Some b
  | _ => None
  end.

Definition as_Uint (d : Datum) : option Z :=
  match d with
  | Uint u => Some u
  | _ => None
  end.

Definition as_String (d : Datum) : option string :=
  match d with
  | String s | Symbol s => Some s
  | _ => None
  end.

Definition as_Blob (d : Datum) : option Q :=
  match d with
  | Blob mem => Some mem
  | _ => None
  end.

(** The result of a call of the reader or of a decoder: a value, an
    error, or a panic. *)
Inductive decoding (A : Type) : Type :=
| Decoded (a : A)
| Failed
| Panicked.

Arguments Decoded {A} a.
Arguments Failed {A}.
Arguments Panicked {A}.

Definition bind {A B : Type} (x : decoding A) (f : A -> decoding B) : decoding B :=
  match x with
  | Decoded a => f a
  | Failed => Failed
  | Panicked => Panicked
  end.

Definition of_option {A : Type} (x : option A) : decoding A :=
  match x with
  | Some a => Decoded a
  | None => Failed
  end.

(** Modelled from the spec: [f.UnpackList(fn)] calls [fn] on each item
    of a list, in order, stopping at the first error. *)
Definition UnpackList {A : Type} (fn : Datum -> decoding A) (d : Datum)
  : decoding (list A) :=
  match d with
  | List items =>
      (fix each (l : list Datum) : decoding (list A) :=
         match l with
         | [] => Decoded []
         | x :: rest =>
             match fn x with
             | Decoded v =>
                 match each rest with
                 | Decoded vs => Decoded (v :: vs)
                 | Failed => Failed
                 | Panicked => Panicked
                 end
             | Failed => Failed
             | Panicked => Panicked
             end
         end) items
  | _ => Failed
  end.

(** Modelled from the spec: the field of a struct with a given label,
    if any. *)
Fixpoint FieldByName (fields : list (string * Datum)) (label : string)
  : option Datum :=
  match fields with
  | [] => None
  | (l, d) :: rest => if String.eqb l label then Some d else FieldByName rest label
  end.

(** *** Bags *)

(** Whether two floats are the same value of the type (the same bits;
    the NaNs are taken as one value). *)
Definition same_float (f g : float64) : bool :=
  match f, g with
  | S754_zero s, S754_zero t => Bool.eqb s t
  | S754_infinity s, S754_infinity t => Bool.eqb s t
  | S754_nan, S754_nan => true
  | S754_finite s m e, S754_finite t n k =>
      Bool.eqb s t && Pos.eqb m n && Z.eqb e k
  | _, _ => false
  end.

(** Whether two datums are the same typed value. *)
Fixpoint Datum_eqb (a b : Datum) : bool :=
  match a, b with
  | Null, Null => true
  | Bool x, Bool y => Bool.eqb x y
  | Int x, Int y => Z.eqb x y
  | Uint x, Uint y => Z.eqb x y
  | Float x, Float y => same_float x y
  | String x, String y => String.eqb x y
  | Symbol x, Symbol y => String.eqb x y
  | Timestamp x, Timestamp y => Z.eqb x y
  | Blob x, Blob y => Z.eqb (Qnum x) (Qnum y) && Pos.eqb (Qden x) (Qden y)
  | List xs, List ys =>
      (fix each (l k : list Datum) {struct l} : bool :=
         match l, k with
         | [], [] => true
         | x :: l', y :: k' => Datum_eqb x y && each l' k'
         | _, _ => false
         end) xs ys
  | Struct xs, Struct ys =>
      (fix each (l k : list (string * Datum)) {struct l} : bool :=
         match l, k with
         | [], [] => true
         | (lx, x) :: l', (ly, y) :: k' =>
             String.eqb lx ly && Datum_eqb x y && each l' k'
         | _, _ => false
         end) xs ys
  | _, _ => false
  end.

(** Whether a timestamp occurs in a datum. *)
Fixpoint has_timestamp (d : Datum) : bool :=
  match d with
  | Timestamp _ => true
  | List items =>
      (fix any (l : list Datum) : bool :=
         match l with
         | [] => false
         | x :: rest => has_timestamp x || any rest
         end) items
  | Struct fields =>
      (fix any (l : list (string * Datum)) : bool :=
         match l with
         | [] => false
         | (_, x) :: rest => has_timestamp x || any rest
         end) fields
  | _ => false
  end.

(** Modelled from the spec: [Bag] is declared outside the files embedded
    here; the specification has it as the "literal bag" that a [Member]
    node carries.  A bag is kept as the datums added to it, in the order
    added.  [Len] counts them, [Encode] writes them one after the other
    into the list that the caller has opened, [AddList] adds the items
    of a list datum (an error for another datum), and [Equals] holds of
    two bags with the same datums in the same order. *)
Definition Bag : Type := list Datum.

Definition Bag_Len (b : Bag) : Z := Z.of_nat (length b).

Definition Bag_Encode (b : Bag) : list Datum := b.

Definition Bag_AddList (b : Bag) (d : Datum) : option Bag :=
  match d with
  | List items => Some (b ++ items)
  | _ => None
  end.

Fixpoint Bag_Equals (b o : Bag) : bool :=
  match b, o with
  | [], [] => true
  | x :: b', y :: o' => Datum_eqb x y && Bag_Equals b' o'
  | _, _ => false
  end.

End ion.

(** ** Package expr: the expression AST *)

Module expr.

Import num.

(** *** Operator codes

    The Go operator types are integer types whose constants are numbered
    by [iota]; they are kept as integers with the same numbering. *)

Definition AggregateOp : Type := Z.

Definition OpNone : AggregateOp := 0.
Definition OpCount : AggregateOp := 1.
Definition OpSum : AggregateOp := 2.
Definition OpAvg : AggregateOp := 3.
Definition OpMin : AggregateOp := 4.
Definition OpMax : AggregateOp := 5.
Definition OpCountDistinct : AggregateOp := 6.
Definition OpSumInt : AggregateOp := 7.
Definition OpSumCount : AggregateOp := 8.
Definition OpBitAnd : AggregateOp := 9.
Definition OpBitOr : AggregateOp := 10.
Definition OpBitXor : AggregateOp := 11.
Definition OpBoolAnd : AggregateOp := 12.
Definition OpBoolOr : AggregateOp := 13.
Definition OpEarliest : AggregateOp := 14.
Definition OpLatest : AggregateOp := 15.
Definition OpApproxCountDistinct : AggregateOp := 16.
Definition OpApproxCountDistinctPartial : AggregateOp := 17.
Definition OpApproxCountDistinctMerge : AggregateOp := 18.
Definition OpVariancePop : AggregateOp := 19.
Definition OpStdDevPop : AggregateOp := 20.
Definition OpRowNumber : AggregateOp := 21.
Definition OpRank : AggregateOp := 22.
Definition OpDenseRank : AggregateOp := 23.
Definition OpSystemDatashape : AggregateOp := 24.
Definition OpSystemDatashapeMerge : AggregateOp := 25.

(** [WindowOnly] returns whether or not the aggregate op is only valid
    when used with a window function. *)
Definition WindowOnly (a : AggregateOp) : bool :=
  Z.eqb a OpRowNumber || Z.eqb a OpRank || Z.eqb a OpDenseRank.

Definition CmpOp : Type := Z.

Module Cmp.
Definition Equals : CmpOp := 0.
Definition NotEquals : CmpOp := 1.
Definition Less : CmpOp := 2.
Definition LessEquals : CmpOp := 3.
Definition Greater : CmpOp := 4.
Definition GreaterEquals : CmpOp := 5.
End Cmp.

Definition LogicalOp : Type := Z.

Definition OpAnd : LogicalOp := 0.
Definition OpOr : LogicalOp := 1.
Definition OpXnor : LogicalOp := 2.
Definition OpXor : LogicalOp := 3.

Definition UnaryArithOp : Type := Z.
Definition NegOp : UnaryArithOp := 0.
Definition BitNotOp : UnaryArithOp := 1.

Definition ArithOp : Type := Z.
Definition AddOp : ArithOp := 0.
Definition SubOp : ArithOp := 1.
Definition MulOp : ArithOp := 2.
Definition DivOp : ArithOp := 3.
Definition ModOp : ArithOp := 4.
Definition BitAndOp : ArithOp := 5.
Definition BitOrOp : ArithOp := 6.
Definition BitXorOp : ArithOp := 7.
Definition ShiftLeftLogicalOp : ArithOp := 8.
Definition ShiftRightArithmeticOp : ArithOp := 9.
Definition ShiftRightLogicalOp : ArithOp := 10.

Definition Keyword : Type := Z.
Definition IsNull : Keyword := 0.
Definition IsNotNull : Keyword := 1.
Definition IsMissing : Keyword := 2.
Definition IsNotMissing : Keyword := 3.
Definition IsTrue : Keyword := 4.
Definition IsNotTrue : Keyword := 5.
Definition IsFalse : Keyword := 6.
Definition IsNotFalse : Keyword := 7.

Definition StringMatchOp : Type := Z.
Definition Like : StringMatchOp := 0.
Definition Ilike : StringMatchOp := 1.
Definition SimilarTo : StringMatchOp := 2.
Definition RegexpMatch : StringMatchOp := 3.
Definition RegexpMatchCi : StringMatchOp := 4.

(** [type UnionType uint8]. *)
Definition UnionType : Type := Z.
Definition UnionDistinct : UnionType := 0.
Definition UnionAll : UnionType := 1.

(** Modelled from the spec: [TypeSet] is declared outside the files
    embedded here; it is "a bit-set over {null, bool, uint, int, float,
    decimal, timestamp, string, symbol, struct, list, missing}", kept as
    the integer of a 16-bit set. *)
Definition TypeSet : Type := Z.

(** Modelled from the spec: the table of builtin operations
    ([BuiltinOp], its [String] method and [name2Builtin]) is declared
    outside the files embedded here.  The operations that these files
    name are listed; [Unspecified] stands for a call whose name is not a
    known builtin. *)
Inductive BuiltinOp : Type :=
| MakeList
| MakeStruct
| PartitionValue
| DateTruncDOW
| Unspecified.

Definition BuiltinOp_eqb (a b : BuiltinOp) : bool :=
  match a, b with
  | MakeList, MakeList | MakeStruct, MakeStruct
  | PartitionValue, PartitionValue | DateTruncDOW, DateTruncDOW
  | Unspecified, Unspecified => true
  | _, _ => false
  end.

(** *** Nodes

    [Node] is the Go interface, with one constructor for each
    implementation in the files embedded here.  Fields keep their Go
    names ([Set_] and [Type_] for [Set] and [Type]).  A field that the
    Go code allows to be [nil] is an [option].  [List.Values] and the
    [Value] of a [Field] have the Go type [Constant].  [As] and [At] of
    an [Unpivot] are pointers to strings, [nil] or the string pointed
    to.  Two types are declared outside the files embedded here:
    [date.Time], the instant that a [Timestamp] carries, kept as an
    integer, and [Order], taken with the three fields that [lowerOrder]
    reads. *)
Inductive Node : Type :=
| Bool (b : bool)
| String (s : string)
| Float (f : float64)
| Integer (i : Z)
| Rational (r : Q)
| Ident (s : string)
| Dot (Inner : Node) (Field : string)
| Index (Inner : Node) (Offset : Z)
| Star
| Missing
| Null
| Timestamp (Value : Z)
| Comparison (Op : CmpOp) (Left Right : Node)
| Logical (Op : LogicalOp) (Left Right : Node)
| Not (Expr : Node)
| Builtin (Func : BuiltinOp) (Text : string) (Args : list Node)
| UnaryArith (Op : UnaryArithOp) (Child : Node)
| Arithmetic (Op : ArithOp) (Left Right : Node)
| IsKey (Expr : Node) (Key : Keyword)
| Cast (From : Node) (To : TypeSet)
| Aggregate (Op : AggregateOp) (Precision : Z) (Inner : option Node)
            (Over : option Window) (Filter : option Node)
| List (Values : list Node)
| Member (Arg : Node) (Set_ : ion.Bag)
| Lookup (Expr : Node) (Else : option Node) (Keys Values : ion.Bag)
| StringMatch (Op : StringMatchOp) (Expr : Node) (Pattern Escape : string)
| Appended (Values : list Node)
| Case (Limbs : list CaseLimb) (Else : option Node) (Valence : string)
| Struct (Fields : list Field)
| Unpivot (TupleRef : Node) (As At : option string)
| Union (Type_ : UnionType) (Left Right : Node)
with Window : Type :=
| mkWindow (PartitionBy : list Node) (OrderBy : list Order)
with Order : Type :=
| mkOrder (Column : Node) (Desc NullsLast : bool)
with CaseLimb : Type :=
| mkCaseLimb (When Then : Node)
with Field : Type :=
| mkField (Label : string) (Value : Node).

Definition PartitionBy (w : Window) : list Node :=
  match w with mkWindow p _ => p end.
Definition OrderBy (w : Window) : list Order :=
  match w with mkWindow _ o => o end.
Definition Column (o : Order) : Node :=
  match o with mkOrder c _ _ => c end.
Definition Desc (o : Order) : bool :=
  match o with mkOrder _ d _ => d end.
Definition NullsLast (o : Order) : bool :=
  match o with mkOrder _ _ n => n end.
Definition When (l : CaseLimb) : Node :=
  match l with mkCaseLimb w _ => w end.
Definition Then (l : CaseLimb) : Node :=
  match l with mkCaseLimb _ t => t end.
Definition Label (f : Field) : string :=
  match f with mkField l _ => l end.
Definition Value (f : Field) : Node :=
  match f with mkField _ v => v end.

(** [And] yields [left AND right]. *)
Definition And (left right : Node) : Node := Logical OpAnd left right.

(** *** Calls that may panic

    A Go call either returns or panics (a nil dereference, an index out
    of range).  [None] is a panic. *)
Definition andthen (x : option bool) (y : option bool) : option bool :=
  match x with
  | Some true => y
  | Some false => Some false
  | None => None
  end.

Infix "&&&" := andthen (at level 40, left associativity).

(** [x != nil]. *)
Definition notnil {A : Type} (x : option A) : bool :=
  match x with
  | Some _ => true
  | None => false
  end.

(** [a == b] on two interface values.  Values of the non-pointer node
    types are compared by value.  The pointer node types are compared by
    address in Go; the embedding has no addresses and takes two nodes of
    a pointer type to be distinct allocations.  This only matters for a
    node that is not [Equals] to itself (one that holds a NaN). *)
Definition same (a b : Node) : bool :=
  match a, b with
  | Bool x, Bool y => Bool.eqb x y
  | String x, String y => String.eqb x y
  | Float x, Float y => feq x y
  | Integer x, Integer y => Z.eqb x y
  | Ident x, Ident y => String.eqb x y
  | Star, Star | Missing, Missing | Null, Null => true
  | _, _ => false
  end.

(** [equalPointed]: two pointers are equal when both are nil, or neither
    is and they point to equal values (two pointers that are the same
    address point to the same value). *)
Definition equalPointed (lhs rhs : option string) : bool :=
  match lhs with
  | Some x =>
      match rhs with
      | Some y => String.eqb x y
      | None => false
      end
  | None => negb (notnil rhs)
  end.

(** *** Equals

    [Equals a e] is the method call [a.Equals(e)]: one case per receiver
    type, each following its Go method.  The receiver of
    [Aggregate.Equals] dereferences [ea.Over] without a nil check when
    its own [Over] is set, which panics; [Lookup.Equals] passes its
    [Else] to [Equivalent], which calls a method on it, a panic when it
    is nil and the other is not.  [Order.Equals], which compares the
    [OrderBy] lists of two windows, is declared outside the files
    embedded here; it is taken to compare the two flags and then the
    columns with [Equals].

    The methods of the three numeric literals come first; they call no
    other [Equals]. *)
Definition Float_Equals (f : float64) (e : Node) : option bool :=
  match e with
  | Float ef => Some (feq f ef)
  | Integer ei => Some (feq f (of_int64 ei))
  | Rational ri => let '(rif, ok) := Float64 ri in Some (ok && feq rif f)
  | _ => Some false
  end.

Definition Integer_Equals (i : Z) (e : Node) : option bool :=
  match e with
  | Integer ei => Some (Z.eqb ei i)
  | Float ef =>
      let trunc := trunc_int64 ef in
      Some (feq (of_int64 trunc) ef && Z.eqb trunc i)
  | Rational er =>
      Some (if IsInt er && IsInt64 (Num er) then Z.eqb (Num er) i else false)
  | _ => Some false
  end.

Definition Rational_Equals (r : Q) (e : Node) : option bool :=
  match e with
  | Rational er => Some (Cmp0 er r)
  | Float ef =>
      let '(f, ok) := Float64 r in
      if negb ok && IsInf f 0 && IsInf ef (if Signbit f then -1 else 1)
      then Some true
      else Some (flt (fabs (fsub f ef)) tolerance)
  | Integer ei =>
      Some (if IsInt r && IsInt64 (Num r) then Z.eqb ei (Num r) else false)
  | _ => Some false
  end.

(** Most methods call [Equals] on a child of the receiver, with the
    matching child of the argument.  [StringMatch.Equals] and
    [Struct.Equals] do it the other way round: the child of the argument
    is the receiver ([o.Expr.Equals(s.Expr)]).  The definition follows
    the receiver, so it comes as a pair: [Equals a e] is [a.Equals(e)]
    by recursion on the receiver [a], and [EqualsArg e a] is the same
    call [a.Equals(e)] by recursion on the argument [e]. *)
Fixpoint Equals (a e : Node) {struct a} : option bool :=
  match a with
  | Bool b =>
      match e with Bool eb => Some (Bool.eqb b eb) | _ => Some false end
  | String s =>
      match e with String es => Some (String.eqb s es) | _ => Some false end
  | Float f => Float_Equals f e
  | Integer i => Integer_Equals i e
  | Rational r => Rational_Equals r e
  | Ident i =>
      match e with Ident i2 => Some (String.eqb i i2) | _ => Some false end
  | Dot inner field =>
      match e with
      | Dot inner2 field2 => Some (String.eqb field2 field) &&& Equals inner inner2
      | _ => Some false
      end
  | Index inner offset =>
      match e with
      | Index inner2 offset2 => Some (Z.eqb offset offset2) &&& Equals inner inner2
      | _ => Some false
      end
  | Star => match e with Star => Some true | _ => Some false end
  | Missing => match e with Missing => Some true | _ => Some false end
  | Null => match e with Null => Some true | _ => Some false end
  | Timestamp t =>
      match e with Timestamp te => Some (Z.eqb t te) | _ => Some false end
  | Comparison op l r =>
      match e with
      | Comparison eop el er =>
          Some (Z.eqb eop op) &&& Equals l el &&& Equals r er
      | _ => Some false
      end
  | Logical op l r =>
      match e with
      | Logical xop xl xr =>
          Some (Z.eqb op xop) &&& Equals l xl &&& Equals r xr
      | _ => Some false
      end
  | Not n =>
      match e with Not xn => Equals n xn | _ => Some false end
  | Builtin f _ args =>
      match e with
      | Builtin xf _ xargs =>
          if BuiltinOp_eqb f xf && Nat.eqb (length args) (length xargs) then
            (fix go (l xl : list Node) {struct l} : option bool :=
               match l, xl with
               | a1 :: l', x1 :: xl' => Equals a1 x1 &&& go l' xl'
               | _, _ => Some true
               end) args xargs
          else Some false
      | _ => Some false
      end
  | UnaryArith op child =>
      match e with
      | UnaryArith xop xchild => Some (Z.eqb op xop) &&& Equals child xchild
      | _ => Some false
      end
  | Arithmetic op l r =>
      match e with
      | Arithmetic xop xl xr =>
          Some (Z.eqb op xop) &&& Equals l xl &&& Equals r xr
      | _ => Some false
      end
  | IsKey ex key =>
      match e with
      | IsKey xex xkey => Some (Z.eqb key xkey) &&& Equals ex xex
      | _ => Some false
      end
  | Cast from to =>
      match e with
      | Cast efrom eto => Some (Z.eqb to eto) &&& Equals from efrom
      | _ => Some false
      end
  | Aggregate op precision inner over filter =>
      match e with
      | Aggregate eop eprecision einner eover efilter =>
          let inner_ok :=
            if negb (Z.eqb eop op) then Some false
            else match inner, einner with
                 | None, None => Some true
                 | Some i, Some ei => Equals i ei
                 | _, _ => Some false
                 end in
          let filter_ok :=
            if negb (Z.eqb eprecision precision) then Some false
            else match filter, efilter with
                 | None, None => Some true
                 | Some f, Some ef => Equals f ef
                 | _, _ => Some false
                 end in
          let over_ok :=
            match over with
            | None => Some (match eover with None => true | Some _ => false end)
            | Some (mkWindow part order) =>
                match eover with
                | None => None
                | Some (mkWindow epart eorder) =>
                    (if negb (Nat.eqb (length part) (length epart)) then Some false
                     else
                       (fix go (l xl : list Node) {struct l} : option bool :=
                          match l, xl with
                          | a1 :: l', x1 :: xl' =>
                              (if same a1 x1 then Some true else Equals a1 x1)
                              &&& go l' xl'
                          | _, _ => Some true
                          end) part epart)
                    &&&
                    (if negb (Nat.eqb (length order) (length eorder)) then Some false
                     else
                       (fix go (l xl : list Order) {struct l} : option bool :=
                          match l, xl with
                          | mkOrder c d n :: l', mkOrder xc xd xn :: xl' =>
                              (Some (Bool.eqb d xd && Bool.eqb n xn) &&& Equals c xc)
                              &&& go l' xl'
                          | _, _ => Some true
                          end) order eorder)
                end
            end in
          inner_ok &&& filter_ok &&& over_ok
      | _ => Some false
      end
  | List values =>
      match e with
      | List values2 =>
          if negb (Nat.eqb (length values) (length values2)) then Some false
          else
            (fix go (l xl : list Node) {struct l} : option bool :=
               match l, xl with
               | a1 :: l', x1 :: xl' => Equals a1 x1 &&& go l' xl'
               | _, _ => Some true
               end) values values2
      | _ => Some false
      end
  | Member arg set =>
      match e with
      | Member earg eset =>
          if negb (Z.eqb (ion.Bag_Len eset) (ion.Bag_Len set)) then Some false
          else Equals arg earg &&& Some (ion.Bag_Equals set eset)
      | _ => Some false
      end
  | Lookup ex els keys values =>
      match e with
      | Lookup ex2 els2 keys2 values2 =>
          Equals ex ex2
          &&& match els, els2 with
              | None, None => Some true
              | None, Some _ => None
              | Some _, None => Some false
              | Some a1, Some x1 => if same a1 x1 then Some true else Equals a1 x1
              end
          &&& Some (ion.Bag_Equals keys keys2)
          &&& Some (ion.Bag_Equals values values2)
      | _ => Some false
      end
  | StringMatch op ex pattern escape =>
      match e with
      | StringMatch oop oex opattern oescape =>
          Some (Z.eqb oop op) &&& EqualsArg ex oex
          &&& Some (String.eqb opattern pattern)
          &&& Some (String.eqb oescape escape)
      | _ => Some false
      end
  | Appended values =>
      match e with
      | Appended values2 =>
          if negb (Nat.eqb (length values) (length values2)) then Some false
          else
            (fix go (l xl : list Node) {struct l} : option bool :=
               match l, xl with
               | a1 :: l', x1 :: xl' => Equals a1 x1 &&& go l' xl'
               | _, _ => Some true
               end) values values2
      | _ => Some false
      end
  | Case limbs els _ =>
      match e with
      | Case olimbs oels _ =>
          if negb (Nat.eqb (length limbs) (length olimbs)) then Some false
          else if negb (Bool.eqb (notnil els) (notnil oels)) then Some false
          else
            (fix go (l xl : list CaseLimb) {struct l} : option bool :=
               match l, xl with
               | mkCaseLimb w t :: l', mkCaseLimb ow ot :: xl' =>
                   Equals w ow &&& Equals t ot &&& go l' xl'
               | _, _ => Some true
               end) limbs olimbs
            &&& match els, oels with
                | Some c, Some oc => Equals c oc
                | _, _ => Some true
                end
      | _ => Some false
      end
  | Struct fields =>
      match e with
      | Struct fields2 =>
          if negb (Nat.eqb (length fields) (length fields2)) then Some false
          else
            (fix go (l xl : list Field) {struct l} : option bool :=
               match l, xl with
               | mkField label v :: l', mkField label2 v2 :: xl' =>
                   Some (String.eqb label2 label) &&& EqualsArg v v2 &&& go l' xl'
               | _, _ => Some true
               end) fields fields2
      | _ => Some false
      end
  | Unpivot tupleref as_ at_ =>
      match e with
      | Unpivot rtupleref ras rat =>
          if negb (equalPointed as_ ras) then Some false
          else if negb (equalPointed at_ rat) then Some false
          else if same tupleref rtupleref then Some true
          else Equals tupleref rtupleref
      | _ => Some false
      end
  | Union type l r =>
      match e with
      | Union type2 l2 r2 =>
          Some (Z.eqb type type2) &&& Equals l l2 &&& Equals r r2
      | _ => Some false
      end
  end
with EqualsArg (e a : Node) {struct e} : option bool :=
  match a with
  | Bool b =>
      match e with Bool eb => Some (Bool.eqb b eb) | _ => Some false end
  | String s =>
      match e with String es => Some (String.eqb s es) | _ => Some false end
  | Float f => Float_Equals f e
  | Integer i => Integer_Equals i e
  | Rational r => Rational_Equals r e
  | Ident i =>
      match e with Ident i2 => Some (String.eqb i i2) | _ => Some false end
  | Dot inner field =>
      match e with
      | Dot inner2 field2 => Some (String.eqb field2 field) &&& EqualsArg inner2 inner
      | _ => Some false
      end
  | Index inner offset =>
      match e with
      | Index inner2 offset2 => Some (Z.eqb offset offset2) &&& EqualsArg inner2 inner
      | _ => Some false
      end
  | Star => match e with Star => Some true | _ => Some false end
  | Missing => match e with Missing => Some true | _ => Some false end
  | Null => match e with Null => Some true | _ => Some false end
  | Timestamp t =>
      match e with Timestamp te => Some (Z.eqb t te) | _ => Some false end
  | Comparison op l r =>
      match e with
      | Comparison eop el er =>
          Some (Z.eqb eop op) &&& EqualsArg el l &&& EqualsArg er r
      | _ => Some false
      end
  | Logical op l r =>
      match e with
      | Logical xop xl xr =>
          Some (Z.eqb op xop) &&& EqualsArg xl l &&& EqualsArg xr r
      | _ => Some false
      end
  | Not n =>
      match e with Not xn => EqualsArg xn n | _ => Some false end
  | Builtin f _ args =>
      match e with
      | Builtin xf _ xargs =>
          if BuiltinOp_eqb f xf && Nat.eqb (length args) (length xargs) then
            (fix go (l xl : list Node) {struct xl} : option bool :=
               match l, xl with
               | a1 :: l', x1 :: xl' => EqualsArg x1 a1 &&& go l' xl'
               | _, _ => Some true
               end) args xargs
          else Some false
      | _ => Some false
      end
  | UnaryArith op child =>
      match e with
      | UnaryArith xop xchild => Some (Z.eqb op xop) &&& EqualsArg xchild child
      | _ => Some false
      end
  | Arithmetic op l r =>
      match e with
      | Arithmetic xop xl xr =>
          Some (Z.eqb op xop) &&& EqualsArg xl l &&& EqualsArg xr r
      | _ => Some false
      end
  | IsKey ex key =>
      match e with
      | IsKey xex xkey => Some (Z.eqb key xkey) &&& EqualsArg xex ex
      | _ => Some false
      end
  | Cast from to =>
      match e with
      | Cast efrom eto => Some (Z.eqb to eto) &&& EqualsArg efrom from
      | _ => Some false
      end
  | Aggregate op precision inner over filter =>
      match e with
      | Aggregate eop eprecision einner eover efilter =>
          let inner_ok :=
            if negb (Z.eqb eop op) then Some false
            else match inner, einner with
                 | None, None => Some true
                 | Some i, Some ei => EqualsArg ei i
                 | _, _ => Some false
                 end in
          let filter_ok :=
            if negb (Z.eqb eprecision precision) then Some false
            else match filter, efilter with
                 | None, None => Some true
                 | Some f, Some ef => EqualsArg ef f
                 | _, _ => Some false
                 end in
          let over_ok :=
            match over with
            | None => Some (match eover with None => true | Some _ => false end)
            | Some (mkWindow part order) =>
                match eover with
                | None => None
                | Some (mkWindow epart eorder) =>
                    (if negb (Nat.eqb (length part) (length epart)) then Some false
                     else
                       (fix go (l xl : list Node) {struct xl} : option bool :=
                          match l, xl with
                          | a1 :: l', x1 :: xl' =>
                              (if same a1 x1 then Some true else EqualsArg x1 a1)
                              &&& go l' xl'
                          | _, _ => Some true
                          end) part epart)
                    &&&
                    (if negb (Nat.eqb (length order) (length eorder)) then Some false
                     else
                       (fix go (l xl : list Order) {struct xl} : option bool :=
                          match l, xl with
                          | mkOrder c d n :: l', mkOrder xc xd xn :: xl' =>
                              (Some (Bool.eqb d xd && Bool.eqb n xn) &&& EqualsArg xc c)
                              &&& go l' xl'
                          | _, _ => Some true
                          end) order eorder)
                end
            end in
          inner_ok &&& filter_ok &&& over_ok
      | _ => Some false
      end
  | List values =>
      match e with
      | List values2 =>
          if negb (Nat.eqb (length values) (length values2)) then Some false
          else
            (fix go (l xl : list Node) {struct xl} : option bool :=
               match l, xl with
               | a1 :: l', x1 :: xl' => EqualsArg x1 a1 &&& go l' xl'
               | _, _ => Some true
               end) values values2
      | _ => Some false
      end
  | Member arg set =>
      match e with
      | Member earg eset =>
          if negb (Z.eqb (ion.Bag_Len eset) (ion.Bag_Len set)) then Some false
          else EqualsArg earg arg &&& Some (ion.Bag_Equals set eset)
      | _ => Some false
      end
  | Lookup ex els keys values =>
      match e with
      | Lookup ex2 els2 keys2 values2 =>
          EqualsArg ex2 ex
          &&& match els, els2 with
              | None, None => Some true
              | None, Some _ => None
              | Some _, None => Some false
              | Some a1, Some x1 => if same a1 x1 then Some true else EqualsArg x1 a1
              end
          &&& Some (ion.Bag_Equals keys keys2)
          &&& Some (ion.Bag_Equals values values2)
      | _ => Some false
      end
  | StringMatch op ex pattern escape =>
      match e with
      | StringMatch oop oex opattern oescape =>
          Some (Z.eqb oop op) &&& Equals oex ex
          &&& Some (String.eqb opattern pattern)
          &&& Some (String.eqb oescape escape)
      | _ => Some false
      end
  | Appended values =>
      match e with
      | Appended values2 =>
          if negb (Nat.eqb (length values) (length values2)) then Some false
          else
            (fix go (l xl : list Node) {struct xl} : option bool :=
               match l, xl with
               | a1 :: l', x1 :: xl' => EqualsArg x1 a1 &&& go l' xl'
               | _, _ => Some true
               end) values values2
      | _ => Some false
      end
  | Case limbs els _ =>
      match e with
      | Case olimbs oels _ =>
          if negb (Nat.eqb (length limbs) (length olimbs)) then Some false
          else if negb (Bool.eqb (notnil els) (notnil oels)) then Some false
          else
            (fix go (l xl : list CaseLimb) {struct xl} : option bool :=
               match l, xl with
               | mkCaseLimb w t :: l', mkCaseLimb ow ot :: xl' =>
                   EqualsArg ow w &&& EqualsArg ot t &&& go l' xl'
               | _, _ => Some true
               end) limbs olimbs
            &&& match els, oels with
                | Some c, Some oc => EqualsArg oc c
                | _, _ => Some true
                end
      | _ => Some false
      end
  | Struct fields =>
      match e with
      | Struct fields2 =>
          if negb (Nat.eqb (length fields) (length fields2)) then Some false
          else
            (fix go (l xl : list Field) {struct xl} : option bool :=
               match l, xl with
               | mkField label v :: l', mkField label2 v2 :: xl' =>
                   Some (String.eqb label2 label) &&& Equals v2 v &&& go l' xl'
               | _, _ => Some true
               end) fields fields2
      | _ => Some false
      end
  | Unpivot tupleref as_ at_ =>
      match e with
      | Unpivot rtupleref ras rat =>
          if negb (equalPointed as_ ras) then Some false
          else if negb (equalPointed at_ rat) then Some false
          else if same tupleref rtupleref then Some true
          else EqualsArg rtupleref tupleref
      | _ => Some false
      end
  | Union type l r =>
      match e with
      | Union type2 l2 r2 =>
          Some (Z.eqb type type2) &&& EqualsArg l2 l &&& EqualsArg r2 r
      | _ => Some false
      end
  end.

(** [EqualsArg] is [Equals] with the argument first, on both sides of
    a node. *)
Definition mirrored (x : Node) : Prop :=
  forall r, EqualsArg x r = Equals r x /\ EqualsArg r x = Equals x r.

(** [Equivalent] returns whether two nodes are equivalent: identical, or
    [Equals]. *)
Definition Equivalent (a b : Node) : option bool :=
  if same a b then Some true else Equals a b.

(** The aggregate struct on its own, as [vm.AggBinding] points to it. *)
Record AggregateExpr : Type := mkAggregate {
  Op : AggregateOp;
  Precision : Z;
  Inner : option Node;
  Over : option Window;
  Filter : option Node
}.

(** Modelled from the spec: [Binding] is declared outside the files
    embedded here; it is "(expr, result-name)". *)
Record Binding : Type := Bind { Expr : Node; Result : string }.

(** The integer and rational literals, and the number each denotes. *)
Definition exact (n : Node) : bool :=
  match n with
  | Integer i => IsInt64 i
  | Rational _ => true
  | _ => false
  end.

Definition value (n : Node) : Q :=
  match n with
  | Integer i => inject_Z i
  | Rational r => r
  | _ => 0%Q
  end.

(** *** Paths *)

(** [IsPath] returns whether or not [e] is a path expression: one
    composed entirely of [Ident], [Dot] and [Index] operations. *)
Fixpoint IsPath (e : Node) : bool :=
  match e with
  | Ident _ => true
  | Dot inner _ => IsPath inner
  | Index inner _ => IsPath inner
  | _ => false
  end.

(** [MakePath] constructs a path expression from a list of path
    components; [path[0]] panics on the empty list. *)
Definition MakePath (path : list string) : option Node :=
  match path with
  | [] => None
  | first :: rest =>
      Some (fold_left (fun p field => Dot p field) rest (Ident first))
  end.

(** [FlatPath] flattens [e] into its list of path components; it
    returns [(nil, false)], here [None], if [e] is not a path or the
    path cannot be flattened. *)
Fixpoint FlatPath (e : Node) : option (list string) :=
  match e with
  | Ident s => Some [s]
  | Dot inner field =>
      match FlatPath inner with
      | Some fields => Some (fields ++ [field])
      | None => None
      end
  | _ => None
  end.

(** A path made of identifier and dot operations only. *)
Fixpoint dotpath (e : Node) : bool :=
  match e with
  | Ident _ => true
  | Dot inner _ => dotpath inner
  | _ => false
  end.

(** *** Indexing a literal list *)

(** [s[i]] on a Go slice: an index outside [0 <= i < len(s)] panics. *)
Definition at_index {A : Type} (s : list A) (i : Z) : option A :=
  if i <? 0 then None else s !! Z.to_nat i.

(** [Index.simplify], on the two fields of the receiver: [[v][0] -> v].
    The bound that guards the slice access is [i.Offset < len], and
    nothing else. *)
Definition simplify_Index (Inner : Node) (Offset : Z) : option Node :=
  match Inner with
  | Builtin MakeList _ Args =>
      if Offset <? Z.of_nat (length Args) then at_index Args Offset
      else Some Missing
  | List Values =>
      if Offset <? Z.of_nat (length Values) then at_index Values Offset
      else Some Missing
  | _ => Some (Index Inner Offset)
  end.

(** *** ParsePath *)

(** [strings.Trim(s, cutset)] for the cutset of the double quote alone. *)
Definition quote : ascii := ascii_of_nat 34.

Fixpoint trim_left (s : list ascii) : list ascii :=
  match s with
  | c :: rest => if Ascii.eqb c quote then trim_left rest else s
  | [] => []
  end.

Definition Trim (s : string) : string :=
  string_of_list_ascii
    (rev (trim_left (rev (trim_left (list_ascii_of_string s))))).

(** [strconv.Atoi]: an optional sign and decimal digits, within the
    range of [int]. *)
Definition digit (c : ascii) : option Z :=
  let n := nat_of_ascii c in
  if (48 <=? n)%nat && (n <=? 57)%nat then Some (Z.of_nat n - 48) else None.

Fixpoint digits (s : list ascii) (acc : Z) : option Z :=
  match s with
  | [] => Some acc
  | c :: rest =>
      match digit c with
      | Some d => digits rest (acc * 10 + d)
      | None => None
      end
  end.

Definition Atoi (s : string) : option Z :=
  let in_range (v : Z) := if IsInt64 v then Some v else None in
  match list_ascii_of_string s with
  | [] => None
  | c :: rest =>
      if Ascii.eqb c "-" then
        match rest, digits rest 0 with
        | _ :: _, Some v => in_range (- v)
        | _, _ => None
        end
      else if Ascii.eqb c "+" then
        match rest, digits rest 0 with
        | _ :: _, Some v => in_range v
        | _, _ => None
        end
      else
        match digits (c :: rest) 0 with
        | Some v => in_range v
        | None => None
        end
  end.

Inductive parsing : Type := parsingField | parsingIndex | parsingEither.

(** The closures of [ParsePath] on the path built so far ([None] is the
    nil node of the start). *)
Definition pushfield (cur : option Node) (s : string) : option Node :=
  match cur with
  | None => Some (Ident (Trim s))
  | Some c => Some (Dot c (Trim s))
  end.

Definition pushindex (cur : option Node) (i : Z) : option Node :=
  match cur with
  | None => None
  | Some c => Some (Index c i)
  end.

(** The loop of [ParsePath] over the bytes of [x]; [field] holds the
    bytes read since the last separator.  An index is opened only after
    a field or another index, so [pushindex] always has a node to
    index. *)
Fixpoint parse (x : string) (cur : option Node) (state : parsing)
         (field : string) : result (option Node * parsing * string) :=
  match x with
  | EmptyString => Ok (cur, state, field)
  | String.String c rest =>
      match state with
      | parsingEither =>
          if Ascii.eqb c "[" then parse rest cur parsingIndex field
          else parse rest cur parsingField field
      | parsingField =>
          if Ascii.eqb c "." || Ascii.eqb c "[" then
            if Nat.eqb (String.length field) 0
            then Err "zero-length field not supported"
            else
              parse rest (pushfield cur field)
                    (if Ascii.eqb c "[" then parsingIndex else parsingField)
                    ""
          else parse rest cur state (field ++ String.String c "")%string
      | parsingIndex =>
          if Ascii.eqb c "]" then
            match Atoi field with
            | None => Err "bad index"
            | Some i => parse rest (pushindex cur i) parsingEither ""
            end
          else parse rest cur state (field ++ String.String c "")%string
      end
  end.

(** [ParsePath] parses simple path expressions like [a.b.z] or
    [a[0].y]. *)
Definition ParsePath (x : string) : result Node :=
  match parse x None parsingField "" with
  | Err msg => Err msg
  | Ok (cur, state, field) =>
      let finished :=
        match state with
        | parsingField =>
            if Nat.eqb (String.length field) 0
            then Err "ParsePath: unterminated field expression"
            else Ok (pushfield cur field)
        | parsingIndex =>
            if negb (Nat.eqb (String.length field) 0)
            then Err "ParsePath: unterminated index expression"
            else Ok cur
        | parsingEither => Ok cur
        end in
      match finished with
      | Ok (Some n) => Ok n
      | Ok None => Err "ParsePath: no path"
      | Err msg => Err msg
      end
  end.

End expr.

(** ** Package vm: what the planner hands to the executor *)

Module vm.

(** Modelled from the spec: package vm is outside the files embedded
    here.  [AggBinding] is an aggregate expression bound to a result
    name ("agg=[BoolAnd(a) as a_and]") and [Aggregation] a list of them;
    a sort ordering is a direction and a place for nulls. *)
Record AggBinding : Type := mkAggBinding {
  Expr : expr.AggregateExpr;
  Result : string
}.

Definition Aggregation : Type := list AggBinding.

Inductive SortDirection : Type := SortAscending | SortDescending.
Inductive SortNullsOrder : Type := SortNullsFirst | SortNullsLast.

Record SortOrdering : Type := mkSortOrdering {
  Direction : SortDirection;
  NullsOrder : SortNullsOrder
}.

Record SortColumn : Type := mkSortColumn {
  Node : expr.Node;
  Ordering : SortOrdering
}.

End vm.

(** ** Package pir: the steps that the lowering below consumes *)

Module pir.

(** Modelled from the spec: the step types are declared outside the
    files embedded here.  [Limit] is the step "limit (count + offset)",
    with the two fields that [lowerLimit] reads. *)
Record Limit : Type := mkLimit { Count : Z; Offset : Z }.

(** Modelled from the spec: [Aggregate] is the step "aggregate (with
    group-by and window split)", with the two fields that
    [lowerAggregate] reads; [GroupBy] is a Go slice, and [None] is the
    nil slice. *)
Record Aggregate : Type := mkAggregate {
  Agg : vm.Aggregation;
  GroupBy : option (list expr.Binding)
}.

(** Modelled from the spec: [IterTable] is the "leaf iteration over a
    table (with push-down filter, field set, wildcard flag, optional
    equality-join partitions)": the table expression, the filter, the
    fields the scan must produce ([it.Fields()]), the wildcard flag
    ([it.Wildcard()]) and the partitions. *)
Record IterTable : Type := mkIterTable {
  Table : expr.Node;
  Filter : option expr.Node;
  Fields : list string;
  Wildcard : bool;
  OnEqual : list string
}.

(** *** The fixed-point optimizer *)

(** [type fpoStatus uint]: a rule returns any value of the type; three
    of them are named. *)
Definition fpoStatus : Type := N.

(** the node remains unmodified *)
Definition fpoIntact : fpoStatus := 0%N.
(** the node fields have been modified, but the node instance remains
    valid *)
Definition fpoUpdate : fpoStatus := 1%N.
(** the current node is to be replaced with a new one *)
Definition fpoReplace : fpoStatus := 2%N.

Section FixedPoint.

(** Modelled from the spec: the [Step] interface is declared outside
    the files embedded here; "each step holds exactly one parent
    pointer", read by [parent()] and written by [setparent()].
    [Payload] is what a step holds besides that pointer. *)
Variable Payload : Type.

(** A non-nil [Step] interface value: the dynamic type (as
    [reflect.TypeOf(s).String()] names it) and the address of the step.
    [Step] is the interface value, [None] being nil. *)
Record ptr : Type := mkPtr { dyntype : string; address : nat }.

Definition Step : Type := option ptr.

Record node : Type := mkNode { parent_of : Step; payload : Payload }.

(** The steps in memory.  Reading a step through an address that holds
    none is a nil dereference. *)
Local Abbreviation heap := (gmap nat node).

(** [s.parent()] and [s.setparent(n)]. *)
Definition parent (s : ptr) (h : heap) : outcome Step :=
  match h !! address s with
  | Some nd => Returns (parent_of nd)
  | None => Panics
  end.

Definition setparent (s : ptr) (n : Step) (h : heap) : outcome heap :=
  match h !! address s with
  | Some nd => Returns (<[address s := mkNode n (payload nd)]> h)
  | None => Panics
  end.

(** A rule is a Go function [( *T) -> (Step, fpoStatus)]: [In0] is the
    name of its parameter type, and a call may update the steps in
    memory. *)
Record rule : Type := mkRule {
  In0 : string;
  Call : ptr -> heap -> Step * fpoStatus * heap
}.

(** [fixedPointOptimizer.rules], a [map[string][]any]. *)
Local Abbreviation fixedPointOptimizer := (gmap string (list rule)).

(** [add] appends a rewriting rule to the set of already known rules. *)
Definition add (fpo : fixedPointOptimizer) (r : rule) : fixedPointOptimizer :=
  <[In0 r := default [] (fpo !! In0 r) ++ [r]]> fpo.

Definition newFixedPointOptimizer (rules : list rule) : fixedPointOptimizer :=
  fold_left add rules ∅.

(** The loop of [apply] over the rules found for the type of [s].  The
    first status other than [fpoIntact] ends the loop, and the step
    returned with it goes through [out[0].Interface().(Step)]: a type
    assertion, which panics when the rule returned a nil [Step]. *)
Fixpoint apply_rules (rules : list rule) (s : ptr) (h : heap)
  : outcome (Step * fpoStatus * heap) :=
  match rules with
  | [] => Returns (None, fpoIntact, h)
  | r :: rest =>
      let '(n, status, h1) := Call r s h in
      if negb (N.eqb status fpoIntact) then
        match n with
        | Some _ => Returns (n, status, h1)
        | None => Panics
        end
      else apply_rules rest s h1
  end.

(** [apply] tries to find a rule matching the dynamic type of [s]. *)
Definition apply (fpo : fixedPointOptimizer) (s : ptr) (h : heap)
  : outcome (Step * fpoStatus * heap) :=
  apply_rules (default [] (fpo !! dyntype s)) s h.

(** The inner loop of [optimize]: [top] is [b.top].  A status that is
    none of the three cases of the [switch] leaves [s], [prev] and
    [somethingChanged] as they are, and the loop goes round again. *)
Fixpoint walk (fuel : nat) (fpo : fixedPointOptimizer) (h : heap)
         (top prev s : Step) (somethingChanged : bool)
  : outcome (heap * Step * bool) :=
  match fuel with
  | O => OutOfFuel
  | S fuel' =>
      match s with
      | None => Returns (h, top, somethingChanged)
      | Some p =>
          match apply fpo p h with
          | Returns (n, status, h1) =>
              if N.eqb status fpoUpdate then
                walk fuel' fpo h1 top prev s true
              else if N.eqb status fpoReplace then
                match prev with
                | Some q =>
                    match setparent q n h1 with
                    | Returns h2 => walk fuel' fpo h2 top prev n true
                    | Panics => Panics
                    | OutOfFuel => OutOfFuel
                    end
                | None => walk fuel' fpo h1 n prev n true
                end
              else if N.eqb status fpoIntact then
                match parent p h1 with
                | Returns next =>
                    walk fuel' fpo h1 top (Some p) next somethingChanged
                | Panics => Panics
                | OutOfFuel => OutOfFuel
                end
              else walk fuel' fpo h1 top prev s somethingChanged
          | Panics => Panics
          | OutOfFuel => OutOfFuel
          end
      end
  end.

(** [optimize]: rewriting attempts continue till a fixed point is
    achieved. *)
Fixpoint optimize (fuel : nat) (fpo : fixedPointOptimizer) (h : heap)
         (top : Step) : outcome (heap * Step) :=
  match fuel with
  | O => OutOfFuel
  | S fuel' =>
      match walk fuel' fpo h top None top false with
      | Returns (h', top', true) => optimize fuel' fpo h' top'
      | Returns (h', top', false) => Returns (h', top')
      | Panics => Panics
      | OutOfFuel => OutOfFuel
      end
  end.

(** **** The execution model of the specification *)

(** The rules registered for a type, in registration order. *)
Definition registered (rules : list rule) (name : string) : list rule :=
  List.filter (fun r => String.eqb (In0 r) name) rules.

(** Trying rules in order on a step: the first status other than
    [fpoIntact] wins. *)
Inductive tries (s : ptr) : list rule -> heap -> Step -> fpoStatus -> heap -> Prop :=
| tries_none (h : heap) : tries s [] h None fpoIntact h
| tries_next (r : rule) (rest : list rule) (h h1 h2 : heap) (n n' : Step)
             (status : fpoStatus) :
    Call r s h = (n, fpoIntact, h1) ->
    tries s rest h1 n' status h2 ->
    tries s (r :: rest) h n' status h2
| tries_wins (r : rule) (rest : list rule) (h h1 : heap) (n : Step)
             (status : fpoStatus) :
    Call r s h = (n, status, h1) ->
    status <> fpoIntact ->
    tries s (r :: rest) h n status h1.

(** Where a pass stands: the steps, the top of the trace, the step that
    precedes the current one, the current step, and whether something
    has changed so far. *)
Record position : Type := mkPosition {
  steps : heap;
  top : Step;
  preceding : Step;
  current : Step;
  changed : bool
}.

(** One visit of the current step.  A step found intact becomes the
    preceding step and the walk moves to its parent; an updated step is
    visited again; a replacement of the top step becomes the top of the
    trace, a replacement further down becomes the parent of the
    preceding step, and in both cases the walk goes on at the
    replacement. *)
Inductive visit (rules : list rule) : position -> position -> Prop :=
| visit_intact (h h1 : heap) (t prev n : Step) (s : ptr) (c : bool) (nd : node) :
    tries s (registered rules (dyntype s)) h n fpoIntact h1 ->
    h1 !! address s = Some nd ->
    visit rules (mkPosition h t prev (Some s) c)
                (mkPosition h1 t (Some s) (parent_of nd) c)
| visit_updated (h h1 : heap) (t prev n : Step) (s : ptr) (c : bool) :
    tries s (registered rules (dyntype s)) h n fpoUpdate h1 ->
    visit rules (mkPosition h t prev (Some s) c)
                (mkPosition h1 t prev (Some s) true)
| visit_replaced_top (h h1 : heap) (n : Step) (s : ptr) (c : bool) :
    tries s (registered rules (dyntype s)) h n fpoReplace h1 ->
    visit rules (mkPosition h (Some s) None (Some s) c)
                (mkPosition h1 n None n true)
| visit_replaced_below (h h1 : heap) (t n : Step) (q s : ptr) (c : bool) (nd : node) :
    tries s (registered rules (dyntype s)) h n fpoReplace h1 ->
    h1 !! address q = Some nd ->
    visit rules (mkPosition h t (Some q) (Some s) c)
                (mkPosition (<[address q := mkNode n (payload nd)]> h1)
                            t (Some q) n true).

(** A pass: visits from a position until the chain ends. *)
Inductive pass (rules : list rule) : position -> heap -> Step -> bool -> Prop :=
| pass_end (h : heap) (t prev : Step) (c : bool) :
    pass rules (mkPosition h t prev None c) h t c
| pass_visit (p p' : position) (h : heap) (t : Step) (c : bool) :
    visit rules p p' -> pass rules p' h t c -> pass rules p h t c.

(** Passes from the top until one finds nothing to change. *)
Inductive run (rules : list rule) : heap -> Step -> heap -> Step -> Prop :=
| run_fixed (h h' : heap) (t t' : Step) :
    pass rules (mkPosition h t None t false) h' t' false ->
    run rules h t h' t'
| run_again (h h1 h' : heap) (t t1 t' : Step) :
    pass rules (mkPosition h t None t false) h1 t1 true ->
    run rules h1 t1 h' t' ->
    run rules h t h' t'.

(** The rules that keep to the three named statuses and supply a step
    whenever they report a change: a call returns [fpoIntact], or
    [fpoUpdate] or [fpoReplace] together with a [Step] that is not
    nil. *)
Definition supplied (rules : list rule) : Prop :=
  forall (r : rule) (s : ptr) (h : heap),
    r ∈ rules ->
    snd (fst (Call r s h)) = fpoIntact \/
    ((snd (fst (Call r s h)) = fpoUpdate \/ snd (fst (Call r s h)) = fpoReplace)
     /\ fst (fst (Call r s h)) <> None).

End FixedPoint.

End pir.

(** ** Package plan: lowering of steps to physical operators *)

Module plan.

Import expr.

Definition ErrNotSupported : string := "plan: query not supported".

(** [reject] produces an [ErrNotSupported] error message. *)
Definition reject (msg : string) : string :=
  (ErrNotSupported ++ ": " ++ msg)%string.

(** Modelled from the spec: [HashOrder] is declared outside the files
    embedded here; it identifies the column of a hash aggregate to sort
    by, and the ordering. *)
Record HashOrder : Type := mkHashOrder {
  Column : Z;
  Ordering : vm.SortOrdering
}.

(** Modelled from the spec: the operator types are declared outside
    the files embedded here.  "Every nonterminal op has a single
    upstream From"; the other fields are those that the lowering
    functions set. *)
Inductive Op : Type :=
| Leaf (Orig : Node) (OnEqual : list string) (EqualExpr : list Node)
| NoOutput
| DummyOutput
| Unnest (From : Op) (Expr : Node) (Result : string)
| Filter (From : Op) (Expr : Node)
| Distinct (From : Op) (Fields : list Node) (Limit : Z)
| Limit (From : Op) (Num : Z)
| Project (From : Op) (Using : list Binding)
| CountStar (From : Op) (As : string)
| SimpleAggregate (From : Op) (Outputs : vm.Aggregation)
| HashAggregate (From : Op) (Agg Windows : vm.Aggregation)
                (By : list Binding) (OrderBy : list HashOrder) (Limit : Z)
| OrderBy (From : Op) (Columns : list vm.SortColumn) (Limit Offset : Z)
| UnionMap (From : Op)
| UnionPartition (From : Op) (By : list string).

(** [lowerLimit].  The operator below is updated in place and returned
    when it accepts a limit natively. *)
Definition lowerLimit (in_ : pir.Limit) (from : Op) : result Op :=
  if Z.eqb (pir.Count in_) 0 then Ok NoOutput
  else
    match from with
    | HashAggregate f agg windows by_ order _ =>
        if negb (Z.eqb (pir.Offset in_) 0)
        then Err (reject "non-zero OFFSET of hash aggregate result")
        else Ok (HashAggregate f agg windows by_ order (pir.Count in_))
    | OrderBy f columns _ _ =>
        Ok (OrderBy f columns (pir.Count in_) (pir.Offset in_))
    | Distinct f fields _ =>
        if negb (Z.eqb (pir.Offset in_) 0)
        then Err (reject "non-zero OFFSET of distinct result")
        else Ok (Distinct f fields (pir.Count in_))
    | _ =>
        if negb (Z.eqb (pir.Offset in_) 0)
        then Err (reject "OFFSET without GROUP BY/ORDER BY not implemented")
        else Ok (Limit from (pir.Count in_))
    end.

(** Whether lowering failed with a rejection. *)
Definition rejected (r : result Op) : Prop :=
  exists msg, r = Err (reject msg).

Definition iscountstar (a : vm.Aggregation) : bool :=
  match a with
  | [agg] =>
      if negb (Z.eqb (expr.Op (vm.Expr agg)) OpCount) then false
      else
        match expr.Filter (vm.Expr agg) with
        | Some _ => false
        | None =>
            match expr.Inner (vm.Expr agg) with
            | Some Star => true
            | _ => false
            end
        end
  | _ => false
  end.

(** The window aggregates in the words of the specification ("extract
    OVER clauses into window aggregates"): the bindings whose aggregate
    has an OVER part. *)
Definition hasOver (b : vm.AggBinding) : bool :=
  match expr.Over (vm.Expr b) with
  | Some _ => true
  | None => false
  end.

(** [splitWindows]: one pass over [lst], each binding appended to
    [window] or to [agg].  ([agg] starts as [lst[:0]] and is written
    over the front of [lst]; a binding is written at or before its own
    place, so the bindings still to be read are the ones of [lst].) *)
Definition splitWindows (lst : vm.Aggregation) : vm.Aggregation * vm.Aggregation :=
  fold_left
    (fun '(agg, window) b =>
       if WindowOnly (expr.Op (vm.Expr b)) then (agg, window ++ [b])
       else (agg ++ [b], window))
    lst ([], []).

Definition lowerAggregate (in_ : pir.Aggregate) (from : Op) : result Op :=
  match pir.GroupBy in_ with
  | None =>
      if iscountstar (pir.Agg in_) then
        match pir.Agg in_ with
        | agg0 :: _ => Ok (CountStar from (vm.Result agg0))
        | [] => Ok (SimpleAggregate from (pir.Agg in_))
        end
      else Ok (SimpleAggregate from (pir.Agg in_))
  | Some by_ =>
      let '(agg, windows) := splitWindows (pir.Agg in_) in
      Ok (HashAggregate from agg windows by_ [] 0)
  end.

(** *** Predicate decomposition *)

(** [conjunctions] returns the list of top-level conjunctions from a
    logical expression by appending the results to [lst]. *)
Fixpoint conjunctions (e : Node) (lst : list Node) : list Node :=
  match e with
  | Logical op l r =>
      if Z.eqb op OpAnd then conjunctions l (conjunctions r lst)
      else lst ++ [e]
  | _ => lst ++ [e]
  end.

(** [conjoin]; [x[0]] panics on the empty list. *)
Definition conjoin (x : list Node) : option Node :=
  match x with
  | [] => None
  | o :: rest => Some (fold_left And rest o)
  end.

Definition isTimestamp (e : Node) : bool :=
  match e with Timestamp _ => true | _ => false end.

(** [canRemoveHint] returns true if it is safe to remove a hint from an
    input: expressions that contain timestamp comparisons (or logical
    compositions thereof) are not removed. *)
Fixpoint canRemoveHint (e : Node) : bool :=
  match e with
  | Logical _ l r => canRemoveHint l && canRemoveHint r
  | Comparison _ l r => negb (isTimestamp l || isTimestamp r)
  | _ => true
  end.

End plan.

(** ** Package plan: input deduplication *)

Module dedup.

Import expr plan.

(** [slices.Sort] on strings (byte-wise lexicographic order), as an
    insertion sort, and [slices.Compact], which drops every element
    equal to its predecessor. *)
Fixpoint insert_sorted (s : string) (l : list string) : list string :=
  match l with
  | [] => [s]
  | t :: rest => if String.leb s t then s :: l else t :: insert_sorted s rest
  end.

Definition Sort (l : list string) : list string :=
  fold_right insert_sorted [] l.

Fixpoint Compact (l : list string) : list string :=
  match l with
  | [] => []
  | s :: rest =>
      match rest with
      | t :: _ => if String.eqb s t then Compact rest else s :: Compact rest
      | [] => [s]
      end
  end.

(** [s[i], s = s[len(s)-1], s[:len(s)-1]]: the last element overwrites
    slot [i] and the slice loses its last slot. *)
Definition swap_remove {A : Type} (s : list A) (i : nat) : list A :=
  match last s with
  | Some z => take (length s - 1)%nat (<[i := z]> s)
  | None => s
  end.

(** The inner loop of [mergeFilterHint]: the first index [j] with
    [Equivalent(yconj[j], v)], if any. *)
Fixpoint find_equivalent (v : Node) (yconj : list Node) (j : nat)
  : option (option nat) :=
  match yconj with
  | [] => Some None
  | w :: rest =>
      match Equivalent w v with
      | None => None
      | Some true => Some (Some j)
      | Some false => find_equivalent v rest (S j)
      end
  end.

(** How the labelled loop of [mergeFilterHint] is left: by
    [return false], or by its condition with the final values of the
    variables. *)
Inductive loop_exit : Type :=
| ReturnFalse
| Done (xconj yconj overlap : list Node) (i : nat).

Fixpoint outer (fuel : nat) (xconj yconj overlap : list Node) (i : nat)
  : outcome loop_exit :=
  match fuel with
  | O => OutOfFuel
  | S fuel' =>
      if (i <? length xconj)%nat && (0 <? length yconj)%nat then
        match xconj !! i with
        | None => Panics
        | Some v =>
            match find_equivalent v yconj 0 with
            | None => Panics
            | Some (Some j) =>
                outer fuel' (swap_remove xconj i) (swap_remove yconj j)
                      (overlap ++ [v]) i
            | Some None =>
                if negb (canRemoveHint v) then Returns ReturnFalse
                else outer fuel' xconj yconj overlap (S i)
            end
        end
      else Returns (Done xconj yconj overlap i)
  end.

(** The account of the specification: first pair off equivalent
    conjuncts (the intersection), with no look at what may be removed. *)
Fixpoint pairing (fuel : nat) (xconj yconj overlap : list Node) (i : nat)
  : outcome (list Node * list Node * list Node) :=
  match fuel with
  | O => OutOfFuel
  | S fuel' =>
      if (i <? length xconj)%nat && (0 <? length yconj)%nat then
        match xconj !! i with
        | None => Panics
        | Some v =>
            match find_equivalent v yconj 0 with
            | None => Panics
            | Some (Some j) =>
                pairing fuel' (swap_remove xconj i) (swap_remove yconj j)
                        (overlap ++ [v]) i
            | Some None => pairing fuel' xconj yconj overlap (S i)
            end
        end
      else Returns (xconj, yconj, overlap)
  end.

(** **** The criterion of the specification *)

(** Whether a timestamp literal occurs in [e], at any depth. *)
Fixpoint mentions_timestamp (e : Node) : bool :=
  let any :=
    fix any (l : list Node) : bool :=
      match l with
      | [] => false
      | x :: rest => mentions_timestamp x || any rest
      end in
  let opt (o : option Node) : bool :=
    match o with
    | Some x => mentions_timestamp x
    | None => false
    end in
  match e with
  | Timestamp _ => true
  | Dot i _ | Index i _ | Not i | UnaryArith _ i | IsKey i _ | Cast i _
  | StringMatch _ i _ _ | Unpivot i _ _ => mentions_timestamp i
  | Comparison _ l r | Logical _ l r | Arithmetic _ l r | Union _ l r =>
      mentions_timestamp l || mentions_timestamp r
  | Builtin _ _ l | List l | Appended l => any l
  | Aggregate _ _ inner over filter =>
      opt inner
      || match over with
         | Some (mkWindow part order) =>
             any part
             || (fix keys (l : list Order) : bool :=
                   match l with
                   | [] => false
                   | mkOrder c _ _ :: rest => mentions_timestamp c || keys rest
                   end) order
         | None => false
         end
      || opt filter
  | Member arg set => mentions_timestamp arg || existsb ion.has_timestamp set
  | Lookup x els keys values =>
      mentions_timestamp x || opt els
      || existsb ion.has_timestamp keys || existsb ion.has_timestamp values
  | Case limbs els _ =>
      (fix each (l : list CaseLimb) : bool :=
         match l with
         | [] => false
         | mkCaseLimb w t :: rest =>
             mentions_timestamp w || mentions_timestamp t || each rest
         end) limbs
      || opt els
  | Struct fields =>
      (fix each (l : list Field) : bool :=
         match l with
         | [] => false
         | mkField _ v :: rest => mentions_timestamp v || each rest
         end) fields
  | _ => false
  end.

(** "A comparison (or logical composition of comparisons) involving a
    timestamp literal", in the words of the specification. *)
Fixpoint timestamp_comparison (e : Node) : bool :=
  match e with
  | Comparison _ l r => mentions_timestamp l || mentions_timestamp r
  | Logical _ l r => timestamp_comparison l || timestamp_comparison r
  | Not x => timestamp_comparison x
  | _ => false
  end.

(** "Safely removable". *)
Definition removable (e : Node) : bool := negb (timestamp_comparison e).

(** The expressions in which a timestamp literal that a comparison
    involves is the left or the right operand of that comparison, and no
    such comparison is under a NOT. *)
Fixpoint direct (e : Node) : bool :=
  match e with
  | Comparison _ l r =>
      isTimestamp l || isTimestamp r
      || negb (mentions_timestamp l || mentions_timestamp r)
  | Logical _ l r => direct l && direct r
  | Not x => negb (timestamp_comparison x)
  | _ => true
  end.

(** The top-level conjuncts of a filter hint. *)
Definition conjuncts (f : option Node) : list Node :=
  match f with
  | Some e => conjunctions e []
  | None => []
  end.

(** [w] is a partner of [v]. *)
Definition partner (v w : Node) : Prop := Equivalent w v = Some true.

Section Inputs.

(** A table handle is opaque to the planner. *)
Variable TableHandle : Type.

(** Modelled from the spec: [Hints] is declared outside the files
    embedded here; it is "{filter: expression?, fields: sorted-unique
    set of path strings, all-fields: bool}". *)
Record Hints : Type := mkHints {
  Filter : option Node;
  Fields : list string;
  AllFields : bool
}.

(** [table] is the expression of the input's table ([i.table.Expr]);
    [handle] is set once the input is statted. *)
Record input : Type := mkInput {
  table : Node;
  hints : Hints;
  handle : option TableHandle
}.

Definition set_filter (x : input) (f : option Node) : input :=
  mkInput (table x)
          (mkHints f (Fields (hints x)) (AllFields (hints x)))
          (handle x).

(** [mergeFilterHint x y]: the boolean result and [x] as the call
    leaves it. *)
Definition mergeFilterHint (x y : input) : outcome (bool * input) :=
  let xconj := match Filter (hints x) with
               | Some f => conjunctions f []
               | None => []
               end in
  let yconj := match Filter (hints y) with
               | Some f => conjunctions f []
               | None => []
               end in
  match outer (S (length xconj)) xconj yconj [] 0 with
  | OutOfFuel => OutOfFuel
  | Panics => Panics
  | Returns ReturnFalse => Returns (false, x)
  | Returns (Done xconj yconj overlap i) =>
      if negb (forallb canRemoveHint (drop i xconj)) then Returns (false, x)
      else if negb (forallb canRemoveHint yconj) then Returns (false, x)
      else Returns (true, set_filter x (conjoin overlap))
  end.

(** [i.merge(in)]: the boolean result and [i] as the call leaves it. *)
Definition merge (i in_ : input) : outcome (bool * input) :=
  match Equals (table i) (table in_) with
  | None => Panics
  | Some false => Returns (false, i)
  | Some true =>
      match mergeFilterHint i in_ with
      | Returns (true, i1) =>
          let i2 := mkInput (table i1) (hints i1) None in
          if AllFields (hints i2) then Returns (true, i2)
          else if AllFields (hints in_) then
            Returns (true, mkInput (table i2)
                                   (mkHints (Filter (hints i2)) [] true) None)
          else
            Returns (true, mkInput (table i2)
                       (mkHints (Filter (hints i2))
                          (Compact (Sort (Fields (hints i2) ++ Fields (hints in_))))
                          false) None)
      | r => r
      end
  end.

(** Whether the two table expressions are [Equals]. *)
Definition same_table (x y : input) : bool :=
  match Equals (table x) (table y) with
  | Some true => true
  | _ => false
  end.

(** A [walker] accumulates identical inputs; [latest] is the slot most
    recently observed, [-1] if none. *)
Record walker : Type := mkWalker {
  inputs : list input;
  latest : Z
}.

(** The trial input that [put] builds from a leaf. *)
Definition trial (it : pir.IterTable) : input :=
  mkInput (pir.Table it)
          (mkHints (pir.Filter it) (pir.Fields it) (pir.Wildcard it))
          None.

(** The loop of [put] over the slots from [k] on: the first slot that
    merges with [in_] is updated in place. *)
Fixpoint put_from (done_ rest : list input) (in_ : input)
  : outcome (list input * Z) :=
  match rest with
  | [] =>
      Returns (done_ ++ [in_], Z.of_nat (length done_))
  | slot :: rest' =>
      match merge slot in_ with
      | Returns (true, slot') =>
          Returns (done_ ++ slot' :: rest', Z.of_nat (length done_))
      | Returns (false, slot') => put_from (done_ ++ [slot']) rest' in_
      | Panics => Panics
      | OutOfFuel => OutOfFuel
      end
  end.

Definition put (w : walker) (it : pir.IterTable) : outcome walker :=
  match put_from [] (inputs w) (trial it) with
  | Returns (ins, l) => Returns (mkWalker ins l)
  | Panics => Panics
  | OutOfFuel => OutOfFuel
  end.

End Inputs.

End dedup.

(** ** The binary codec of expressions *)

Module big.

(** Modelled from the spec: [Rat.GobEncode] and [Rat.GobDecode] belong
    to math/big.  The bytes pack the numerator and the denominator of
    the rational in lowest terms; they are kept as that rational. *)
Definition GobEncode (r : Q) : Q := Qred r.
Definition GobDecode (mem : Q) : option Q := Some mem.

End big.

Module codec.

Import num expr.
Import ion (decoding, Decoded, Failed, Panicked, bind, of_option).

(** Modelled from the spec: the names of the builtin operations, for
    the operations listed in [BuiltinOp]. *)
Definition BuiltinOp_String (op : BuiltinOp) : string :=
  match op with
  | MakeList => "MAKE_LIST"
  | MakeStruct => "MAKE_STRUCT"
  | PartitionValue => "PARTITION_VALUE"
  | DateTruncDOW => "DATE_TRUNC_DOW"
  | Unspecified => "UNKNOWN"
  end.

Definition name2Builtin (name : string) : BuiltinOp :=
  if String.eqb name "MAKE_LIST" then MakeList
  else if String.eqb name "MAKE_STRUCT" then MakeStruct
  else if String.eqb name "PARTITION_VALUE" then PartitionValue
  else if String.eqb name "DATE_TRUNC_DOW" then DateTruncDOW
  else Unspecified.

(** An upper-casing of the ASCII letters alone (the other bytes are left
    as they are), for use where a concrete [ToUpper] is wanted. *)
Definition upper (c : ascii) : ascii :=
  let n := nat_of_ascii c in
  if (97 <=? n)%nat && (n <=? 122)%nat then ascii_of_nat (n - 32) else c.

Fixpoint ascii_upper (s : string) : string :=
  match s with
  | EmptyString => EmptyString
  | String.String c rest => String.String (upper c) (ascii_upper rest)
  end.

(** *** Encode *)

(** [settype] writes the [type] field of a struct. *)
Definition settype (str : string) : string * ion.Datum :=
  ("type", ion.Symbol str).

(** [Datum] of a constant: the ion datum associated with it.  The nodes
    that are not constants have no [Datum] method ([None]). *)
Fixpoint Datum (c : Node) : option ion.Datum :=
  match c with
  | Bool b => Some (ion.Bool b)
  | String s => Some (ion.String s)
  | Float f => Some (ion.Float f)
  | Integer i => Some (ion.WriteInt i)
  | Rational r =>
      if IsInt r && IsInt64 (Num r) then Some (ion.WriteInt (Num r))
      else Some (ion.Float (fst (Float64 r)))
  | Timestamp t => Some (ion.Timestamp t)
  | Null => Some ion.Null
  | List values =>
      match
        (fix each (l : list Node) : option (list ion.Datum) :=
           match l with
           | [] => Some []
           | v :: rest =>
               match Datum v, each rest with
               | Some d, Some ds => Some (d :: ds)
               | _, _ => None
               end
           end) values
      with
      | Some ds => Some (ion.List ds)
      | None => None
      end
  | Struct fields =>
      match
        (fix each (l : list Field) : option (list (string * ion.Datum)) :=
           match l with
           | [] => Some []
           | mkField label v :: rest =>
               match Datum v, each rest with
               | Some d, Some ds => Some ((label, d) :: ds)
               | _, _ => None
               end
           end) fields
      with
      | Some ds => Some (ion.Struct ds)
      | None => None
      end
  | _ => None
  end.

Definition isApprox (op : AggregateOp) : bool :=
  Z.eqb op OpApproxCountDistinct || Z.eqb op OpApproxCountDistinctPartial
  || Z.eqb op OpApproxCountDistinctMerge.

(** The optional field of a struct. *)
Definition optional (label : string) (d : option (option ion.Datum))
  : option (list (string * ion.Datum)) :=
  match d with
  | None => Some []
  | Some (Some v) => Some [(label, v)]
  | Some None => None
  end.

(** A string field that is written only when the string is not empty,
    and one that is written only when the pointer is not nil. *)
Definition nonempty (label : string) (s : string) : list (string * ion.Datum) :=
  if String.eqb s "" then [] else [(label, ion.String s)].

Definition pointed (label : string) (s : option string) : list (string * ion.Datum) :=
  match s with
  | Some v => [(label, ion.String v)]
  | None => []
  end.

(** Modelled from the spec: [EncodeOrder] is declared outside the files
    embedded here, and the specification does not say how an ORDER BY
    list is written.  It is taken to be written the way [Case.Encode]
    writes its limbs: a list with one item per sort key, the item being
    the list of the encoded column and the two flags. *)
Definition EncodeOrder (columns : list (ion.Datum * bool * bool)) : ion.Datum :=
  ion.List (map (fun '(c, desc, nullslast) =>
                   ion.List [c; ion.Bool desc; ion.Bool nullslast])
                columns).

Section Codec.

(** [strings.ToUpper] of the Go library, which maps the letters of a
    text to upper case.  It is not part of the files embedded here and
    is taken as given. *)
Variable ToUpper : string -> string.

(** [Builtin.Name]. *)
Definition Name (func : BuiltinOp) (text : string) : string :=
  match func with
  | Unspecified => ToUpper text
  | _ => BuiltinOp_String func
  end.

(** [Encode] of a node, one case per node type.  The result is [None]
    where the Go program has no such call: a [List] or a [Struct] that
    holds a node without a [Datum] method. *)
Fixpoint Encode (n : Node) : option ion.Datum :=
  let each :=
    fix each (l : list Node) : option (list ion.Datum) :=
      match l with
      | [] => Some []
      | v :: rest =>
          match Encode v, each rest with
          | Some d, Some ds => Some (d :: ds)
          | _, _ => None
          end
      end in
  match n with
  | Bool b => Some (ion.Bool b)
  | String s => Some (ion.String s)
  | Float f => Some (ion.Float f)
  | Integer i => Some (ion.WriteInt i)
  | Rational r =>
      Some (ion.Struct [settype "rat"; ("blob", ion.Blob (big.GobEncode r))])
  | Ident i => Some (ion.Symbol i)
  | Dot inner field =>
      match Encode inner with
      | Some d =>
          Some (ion.Struct [settype "dot"; ("inner", d);
                            ("field", ion.Symbol field)])
      | None => None
      end
  | Index inner offset =>
      match Encode inner with
      | Some d =>
          Some (ion.Struct [settype "index"; ("inner", d);
                            ("offset", ion.WriteInt offset)])
      | None => None
      end
  | Star => Some (ion.Struct [settype "star"])
  | Missing => Some (ion.Struct [settype "missing"])
  | Null => Some ion.Null
  | Timestamp t => Some (ion.Timestamp t)
  | Comparison op l r =>
      match Encode l, Encode r with
      | Some dl, Some dr =>
          Some (ion.Struct [settype "cmp";
                            ("op", ion.WriteUint (to_uint64 op));
                            ("left", dl); ("right", dr)])
      | _, _ => None
      end
  | Logical op l r =>
      match Encode l, Encode r with
      | Some dl, Some dr =>
          Some (ion.Struct [settype "logical";
                            ("op", ion.WriteUint (to_uint64 op));
                            ("left", dl); ("right", dr)])
      | _, _ => None
      end
  | Not e =>
      match Encode e with
      | Some d => Some (ion.Struct [settype "not"; ("inner", d)])
      | None => None
      end
  | Builtin func text args =>
      match each args with
      | Some ds =>
          Some (ion.Struct [settype "builtin";
                            ("func", ion.String (Name func text));
                            ("args", ion.List ds)])
      | None => None
      end
  | UnaryArith op child =>
      match Encode child with
      | Some d =>
          Some (ion.Struct [settype "unaryArith";
                            ("op", ion.WriteUint (to_uint64 op));
                            ("child", d)])
      | None => None
      end
  | Arithmetic op l r =>
      match Encode l, Encode r with
      | Some dl, Some dr =>
          Some (ion.Struct [settype "arith";
                            ("op", ion.WriteUint (to_uint64 op));
                            ("left", dl); ("right", dr)])
      | _, _ => None
      end
  | IsKey e key =>
      match Encode e with
      | Some d =>
          Some (ion.Struct [settype "is";
                            ("key", ion.WriteUint (to_uint64 key));
                            ("inner", d)])
      | None => None
      end
  | Cast from to =>
      match Encode from with
      | Some d =>
          Some (ion.Struct [settype "cast"; ("from", d);
                            ("to", ion.WriteInt to)])
      | None => None
      end
  | Aggregate op precision inner over filter =>
      let f_precision :=
        if isApprox op then [("precision", ion.WriteUint precision)] else [] in
      let f_inner :=
        optional "inner" (match inner with
                          | Some i => Some (Encode i)
                          | None => None
                          end) in
      let f_over :=
        match over with
        | None => Some []
        | Some (mkWindow part order) =>
            match each part with
            | Some ds =>
                match order with
                | [] => Some [("over_partition", ion.List ds)]
                | _ :: _ =>
                    match
                      (fix columns (l : list Order)
                         : option (list (ion.Datum * bool * bool)) :=
                         match l with
                         | [] => Some []
                         | mkOrder c desc nullslast :: rest =>
                             match Encode c, columns rest with
                             | Some d, Some cs => Some ((d, desc, nullslast) :: cs)
                             | _, _ => None
                             end
                         end) order
                    with
                    | Some cs =>
                        Some [("over_partition", ion.List ds);
                              ("over_order_by", EncodeOrder cs)]
                    | None => None
                    end
                end
            | None => None
            end
        end in
      let f_filter :=
        optional "filter_where" (match filter with
                                 | Some f => Some (Encode f)
                                 | None => None
                                 end) in
      match f_inner, f_over, f_filter with
      | Some fi, Some fo, Some ff =>
          Some (ion.Struct
                  ([settype "aggregate"; ("op", ion.WriteUint (to_uint64 op))]
                   ++ f_precision ++ fi ++ fo ++ ff))
      | _, _, _ => None
      end
  | List values =>
      match Datum n with
      | Some d => Some (ion.Struct [settype "list"; ("value", d)])
      | None => None
      end
  | Member arg set =>
      match Encode arg with
      | Some d =>
          Some (ion.Struct [settype "member"; ("arg", d);
                            ("values", ion.List (ion.Bag_Encode set))])
      | None => None
      end
  | Lookup e els keys values =>
      let f_else :=
        optional "else" (match els with
                         | Some x => Some (Encode x)
                         | None => None
                         end) in
      match Encode e, f_else with
      | Some d, Some fe =>
          Some (ion.Struct
                  ([settype "lookup"; ("expr", d)] ++ fe
                   ++ [("keys", ion.List (ion.Bag_Encode keys));
                       ("values", ion.List (ion.Bag_Encode values))]))
      | _, _ => None
      end
  | StringMatch op e pattern escape =>
      match Encode e with
      | Some d =>
          Some (ion.Struct
                  ([settype "stringmatch"; ("op", ion.WriteInt op);
                    ("expr", d); ("pattern", ion.String pattern)]
                   ++ nonempty "escape" escape))
      | None => None
      end
  | Appended values =>
      match each values with
      | Some ds => Some (ion.Struct [settype "append"; ("values", ion.List ds)])
      | None => None
      end
  | Case limbs els valence =>
      let f_limbs :=
        (fix each (l : list CaseLimb) : option (list ion.Datum) :=
           match l with
           | [] => Some []
           | mkCaseLimb w t :: rest =>
               match Encode w, Encode t, each rest with
               | Some dw, Some dt, Some ds => Some (ion.List [dw; dt] :: ds)
               | _, _, _ => None
               end
           end) limbs in
      let f_else :=
        optional "else" (match els with
                         | Some x => Some (Encode x)
                         | None => None
                         end) in
      match f_limbs, f_else with
      | Some ds, Some fe =>
          Some (ion.Struct
                  ([settype "case"; ("limbs", ion.List ds)] ++ fe
                   ++ nonempty "valence" valence))
      | _, _ => None
      end
  | Struct fields =>
      match Datum n with
      | Some d => Some (ion.Struct [settype "struct"; ("value", d)])
      | None => None
      end
  | Unpivot tupleref as_ at_ =>
      match Encode tupleref with
      | Some d =>
          Some (ion.Struct
                  ([settype "unpivot"; ("TupleRef", d)]
                   ++ pointed "As" as_ ++ pointed "At" at_))
      | None => None
      end
  | Union type l r =>
      match Encode l, Encode r with
      | Some dl, Some dr =>
          Some (ion.Struct [settype "union";
                            ("uniontype", ion.WriteUint type);
                            ("left", dl); ("right", dr)])
      | _, _ => None
      end
  end.

(** *** Decode *)

(** A node under construction: the zero value of its Go struct, the
    child nodes being nil until their fields are set. *)
Inductive partial : Type :=
| pRational (r : Q)
| pDot (Inner : option Node) (Field : string)
| pIndex (Inner : option Node) (Offset : Z)
| pStar
| pMissing
| pComparison (Op : CmpOp) (Left Right : option Node)
| pLogical (Op : LogicalOp) (Left Right : option Node)
| pNot (Expr : option Node)
| pBuiltin (Func : BuiltinOp) (Text : string) (Args : list Node)
| pUnaryArith (Op : UnaryArithOp) (Child : option Node)
| pArithmetic (Op : ArithOp) (Left Right : option Node)
| pIsKey (Expr : option Node) (Key : Keyword)
| pCast (From : option Node) (To : TypeSet)
| pAggregate (Op : AggregateOp) (Precision : Z) (Inner : option Node)
             (Over : option Window) (Filter : option Node)
| pList (Values : list Node)
| pMember (Arg : option Node) (Set_ : ion.Bag)
| pLookup (Expr Else : option Node) (Keys Values : ion.Bag)
| pStringMatch (Op : StringMatchOp) (Expr : option Node) (Pattern Escape : string)
| pAppended (Values : list Node)
| pCase (Limbs : list CaseLimb) (Else : option Node) (Valence : string)
| pStruct (Fields : list Field)
| pUnpivot (TupleRef : option Node) (As At : option string)
| pUnion (Type_ : UnionType) (Left Right : option Node).

(** Modelled from the spec: the empty node for a [type] symbol
    ("decoders dispatch on type"), for the node types of [Node]. *)
Definition getEmpty (name : string) : option partial :=
  if String.eqb name "rat" then Some (pRational (0 # 1))
  else if String.eqb name "dot" then Some (pDot None "")
  else if String.eqb name "index" then Some (pIndex None 0)
  else if String.eqb name "star" then Some pStar
  else if String.eqb name "missing" then Some pMissing
  else if String.eqb name "cmp" then Some (pComparison 0 None None)
  else if String.eqb name "logical" then Some (pLogical 0 None None)
  else if String.eqb name "not" then Some (pNot None)
  else if String.eqb name "builtin" then Some (pBuiltin Unspecified "" [])
  else if String.eqb name "unaryArith" then Some (pUnaryArith 0 None)
  else if String.eqb name "arith" then Some (pArithmetic 0 None None)
  else if String.eqb name "is" then Some (pIsKey None 0)
  else if String.eqb name "cast" then Some (pCast None 0)
  else if String.eqb name "aggregate" then Some (pAggregate 0 0 None None None)
  else if String.eqb name "list" then Some (pList [])
  else if String.eqb name "member" then Some (pMember None [])
  else if String.eqb name "lookup" then Some (pLookup None None [] [])
  else if String.eqb name "stringmatch" then Some (pStringMatch 0 None "" "")
  else if String.eqb name "append" then Some (pAppended [])
  else if String.eqb name "case" then Some (pCase [] None "")
  else if String.eqb name "struct" then Some (pStruct [])
  else if String.eqb name "unpivot" then Some (pUnpivot None None None)
  else if String.eqb name "union" then Some (pUnion 0 None None)
  else None.

(** [AsConstant] converts a literal ion datum into a literal constant.
    An unsigned integer that does not fit an [int64] goes through
    [big.NewRat(0, 0)], which panics (division by zero). *)
Fixpoint AsConstant (d : ion.Datum) : decoding Node :=
  match d with
  | ion.Float f => Decoded (Float f)
  | ion.Int i => Decoded (Integer i)
  | ion.Uint u =>
      if 0 <=? to_int64 u then Decoded (Integer (to_int64 u)) else Panicked
  | ion.String s | ion.Symbol s => Decoded (String s)
  | ion.Struct fields =>
      match
        (fix each (l : list (string * ion.Datum)) : decoding (list Field) :=
           match l with
           | [] => Decoded []
           | (label, x) :: rest =>
               match AsConstant x with
               | Decoded v =>
                   match each rest with
                   | Decoded vs => Decoded (mkField label v :: vs)
                   | Failed => Failed
                   | Panicked => Panicked
                   end
               | Failed => Failed
               | Panicked => Panicked
               end
           end) fields
      with
      | Decoded fs => Decoded (Struct fs)
      | Failed => Failed
      | Panicked => Panicked
      end
  | ion.List items =>
      match
        (fix each (l : list ion.Datum) : decoding (list Node) :=
           match l with
           | [] => Decoded []
           | x :: rest =>
               match AsConstant x with
               | Decoded v =>
                   match each rest with
                   | Decoded vs => Decoded (v :: vs)
                   | Failed => Failed
                   | Panicked => Panicked
                   end
               | Failed => Failed
               | Panicked => Panicked
               end
           end) items
      with
      | Decoded values => Decoded (List values)
      | Failed => Failed
      | Panicked => Panicked
      end
  | ion.Timestamp t => Decoded (Timestamp t)
  | ion.Bool b => Decoded (Bool b)
  | ion.Null => Decoded Null
  | ion.Blob _ => Failed
  end.

(** [Appended.append]: an [Appended] is spliced in, another node is
    added at the end. *)
Definition append (values : list Node) (x : Node) : list Node :=
  match x with
  | Appended values2 => values ++ values2
  | _ => values ++ [x]
  end.

(** Modelled from the spec: [decodeOrder] is declared outside the files
    embedded here; it reads back what [EncodeOrder] is taken to write,
    item by item. *)
Definition decodeKey (Decode : ion.Datum -> decoding Node) (item : ion.Datum)
  : decoding Order :=
  match item with
  | ion.List (c :: ion.Bool desc :: ion.Bool nullslast :: _) =>
      bind (Decode c) (fun col => Decoded (mkOrder col desc nullslast))
  | _ => Failed
  end.

Definition decodeOrder (Decode : ion.Datum -> decoding Node) (d : ion.Datum)
  : decoding (list Order) :=
  ion.UnpackList (decodeKey Decode) d.

(** The function that [Case.SetField] hands to [UnpackList]: the limb is
    read through [d.Iterator()] and two calls of [i.Next()], of the ion
    reader, each followed by [Decode]: the first two items of a list, an
    error when the datum is not a list or an item is not there. *)
Definition decodeLimb (Decode : ion.Datum -> decoding Node) (item : ion.Datum)
  : decoding CaseLimb :=
  match item with
  | ion.List (w :: rest) =>
      bind (Decode w) (fun when =>
      match rest with
      | t :: _ =>
          bind (Decode t) (fun then_ => Decoded (mkCaseLimb when then_))
      | [] => Failed
      end)
  | _ => Failed
  end.

(** [SetField], one case per node type and field label; [Failed] is an
    error ([errUnexpectedField] for a label the type does not have).
    [Decode] is the decoder that the method calls on the datum of a
    field. *)
Definition SetField (Decode : ion.Datum -> decoding Node) (p : partial)
           (label : string) (d : ion.Datum) : decoding partial :=
  let set {A : Type} (x : decoding A) (f : A -> partial) : decoding partial :=
    bind x (fun v => Decoded (f v)) in
  match p with
  | pRational _ =>
      if String.eqb label "blob" then
        bind (of_option (ion.as_Blob d))
             (fun mem => set (of_option (big.GobDecode mem)) pRational)
      else Failed
  | pDot inner field =>
      if String.eqb label "inner" then
        set (Decode d) (fun n => pDot (Some n) field)
      else if String.eqb label "field" then
        set (of_option (ion.as_String d)) (fun s => pDot inner s)
      else Failed
  | pIndex inner offset =>
      if String.eqb label "inner" then
        set (Decode d) (fun n => pIndex (Some n) offset)
      else if String.eqb label "offset" then
        set (of_option (ion.as_Int d)) (fun v => pIndex inner v)
      else Failed
  | pStar => Failed
  | pMissing => Failed
  | pComparison op l r =>
      if String.eqb label "op" then
        set (of_option (ion.as_Uint d)) (fun u => pComparison (to_int64 u) l r)
      else if String.eqb label "left" then
        set (Decode d) (fun n => pComparison op (Some n) r)
      else if String.eqb label "right" then
        set (Decode d) (fun n => pComparison op l (Some n))
      else Failed
  | pLogical op l r =>
      if String.eqb label "op" then
        set (of_option (ion.as_Uint d)) (fun u => pLogical (to_int64 u) l r)
      else if String.eqb label "left" then
        set (Decode d) (fun n => pLogical op (Some n) r)
      else if String.eqb label "right" then
        set (Decode d) (fun n => pLogical op l (Some n))
      else Failed
  | pNot e =>
      if String.eqb label "inner" then
        set (Decode d) (fun n => pNot (Some n))
      else Failed
  | pBuiltin func text args =>
      if String.eqb label "func" then
        set (of_option (ion.as_String d))
            (fun str =>
               match name2Builtin str with
               | Unspecified => pBuiltin Unspecified str args
               | f => pBuiltin f text args
               end)
      else if String.eqb label "args" then
        set (ion.UnpackList Decode d) (fun items => pBuiltin func text (args ++ items))
      else Failed
  | pUnaryArith op child =>
      if String.eqb label "op" then
        set (of_option (ion.as_Uint d)) (fun u => pUnaryArith (to_int64 u) child)
      else if String.eqb label "child" then
        set (Decode d) (fun n => pUnaryArith op (Some n))
      else Failed
  | pArithmetic op l r =>
      if String.eqb label "op" then
        set (of_option (ion.as_Uint d)) (fun u => pArithmetic (to_int64 u) l r)
      else if String.eqb label "left" then
        set (Decode d) (fun n => pArithmetic op (Some n) r)
      else if String.eqb label "right" then
        set (Decode d) (fun n => pArithmetic op l (Some n))
      else Failed
  | pIsKey e key =>
      if String.eqb label "key" then
        set (of_option (ion.as_Uint d)) (fun u => pIsKey e (to_int64 u))
      else if String.eqb label "inner" then
        set (Decode d) (fun n => pIsKey (Some n) key)
      else Failed
  | pCast from to =>
      if String.eqb label "from" then
        set (Decode d) (fun n => pCast (Some n) to)
      else if String.eqb label "to" then
        set (of_option (ion.as_Int d)) (fun v => pCast from (v mod 2 ^ 16))
      else Failed
  | pAggregate op precision inner over filter =>
      let window := match over with
                    | Some w => w
                    | None => mkWindow [] []
                    end in
      if String.eqb label "op" then
        set (of_option (ion.as_Uint d))
            (fun u => pAggregate (to_int64 u) precision inner over filter)
      else if String.eqb label "inner" then
        set (Decode d) (fun n => pAggregate op precision (Some n) over filter)
      else if String.eqb label "over_partition" then
        set (ion.UnpackList Decode d)
            (fun items =>
               pAggregate op precision inner
                          (Some (mkWindow (PartitionBy window ++ items)
                                          (OrderBy window)))
                          filter)
      else if String.eqb label "over_order_by" then
        set (decodeOrder Decode d)
            (fun order =>
               pAggregate op precision inner
                          (Some (mkWindow (PartitionBy window) order)) filter)
      else if String.eqb label "filter_where" then
        set (Decode d) (fun n => pAggregate op precision inner over (Some n))
      else if String.eqb label "precision" then
        set (of_option (ion.as_Uint d))
            (fun u => pAggregate op (to_uint8 u) inner over filter)
      else Failed
  | pList values =>
      if String.eqb label "value" then
        bind (AsConstant d)
             (fun cnst =>
                match cnst with
                | List lst => Decoded (pList lst)
                | _ => Failed
                end)
      else Failed
  | pMember arg set_ =>
      if String.eqb label "arg" then
        set (Decode d) (fun n => pMember (Some n) set_)
      else if String.eqb label "values" then
        set (of_option (ion.Bag_AddList set_ d)) (fun b => pMember arg b)
      else Failed
  | pLookup e els keys values =>
      if String.eqb label "expr" then
        set (Decode d) (fun n => pLookup (Some n) els keys values)
      else if String.eqb label "else" then
        set (Decode d) (fun n => pLookup e (Some n) keys values)
      else if String.eqb label "keys" then
        (* the error of [AddList] is dropped *)
        Decoded (pLookup e els (default keys (ion.Bag_AddList keys d)) values)
      else if String.eqb label "values" then
        Decoded (pLookup e els keys (default values (ion.Bag_AddList values d)))
      else Failed
  | pStringMatch op e pattern escape =>
      if String.eqb label "op" then
        set (of_option (ion.as_Int d)) (fun v => pStringMatch v e pattern escape)
      else if String.eqb label "expr" then
        set (Decode d) (fun n => pStringMatch op (Some n) pattern escape)
      else if String.eqb label "pattern" then
        set (of_option (ion.as_String d)) (fun s => pStringMatch op e s escape)
      else if String.eqb label "escape" then
        set (of_option (ion.as_String d)) (fun s => pStringMatch op e pattern s)
      else Failed
  | pAppended values =>
      if String.eqb label "values" then
        set (ion.UnpackList Decode d)
            (fun items => pAppended (fold_left append items values))
      else Failed
  | pCase limbs els valence =>
      if String.eqb label "limbs" then
        set (ion.UnpackList (decodeLimb Decode) d)
            (fun items => pCase (limbs ++ items) els valence)
      else if String.eqb label "else" then
        set (Decode d) (fun n => pCase limbs (Some n) valence)
      else if String.eqb label "valence" then
        set (of_option (ion.as_String d)) (fun s => pCase limbs els s)
      else Failed
  | pStruct fields =>
      if String.eqb label "value" then
        bind (AsConstant d)
             (fun rv =>
                match rv with
                | Struct fs => Decoded (pStruct fs)
                | _ => Failed
                end)
      else Failed
  | pUnpivot tupleref as_ at_ =>
      if String.eqb label "As" then
        set (of_option (ion.as_String d)) (fun s => pUnpivot tupleref (Some s) at_)
      else if String.eqb label "At" then
        set (of_option (ion.as_String d)) (fun s => pUnpivot tupleref as_ (Some s))
      else if String.eqb label "TupleRef" then
        set (Decode d) (fun n => pUnpivot (Some n) as_ at_)
      else Failed
  | pUnion type l r =>
      if String.eqb label "uniontype" then
        set (of_option (ion.as_Uint d)) (fun v => pUnion (to_uint8 v) l r)
      else if String.eqb label "left" then
        set (Decode d) (fun n => pUnion type (Some n) r)
      else if String.eqb label "right" then
        set (Decode d) (fun n => pUnion type l (Some n))
      else Failed
  end.

(** The node that decoding hands back.  A child that no field has set
    is nil in Go; a [Node] has a nil child only where the field is an
    [option], and a struct with another child missing is an error
    here. *)
Definition finish (p : partial) : option Node :=
  match p with
  | pRational r => Some (Rational r)
  | pDot (Some inner) field => Some (Dot inner field)
  | pIndex (Some inner) offset => Some (Index inner offset)
  | pStar => Some Star
  | pMissing => Some Missing
  | pComparison op (Some l) (Some r) => Some (Comparison op l r)
  | pLogical op (Some l) (Some r) => Some (Logical op l r)
  | pNot (Some e) => Some (Not e)
  | pBuiltin func text args => Some (Builtin func text args)
  | pUnaryArith op (Some child) => Some (UnaryArith op child)
  | pArithmetic op (Some l) (Some r) => Some (Arithmetic op l r)
  | pIsKey (Some e) key => Some (IsKey e key)
  | pCast (Some from) to => Some (Cast from to)
  | pAggregate op precision inner over filter =>
      Some (Aggregate op precision inner over filter)
  | pList values => Some (List values)
  | pMember (Some arg) set_ => Some (Member arg set_)
  | pLookup (Some e) els keys values => Some (Lookup e els keys values)
  | pStringMatch op (Some e) pattern escape =>
      Some (StringMatch op e pattern escape)
  | pAppended values => Some (Appended values)
  | pCase limbs els valence => Some (Case limbs els valence)
  | pStruct fields => Some (Struct fields)
  | pUnpivot (Some tupleref) as_ at_ => Some (Unpivot tupleref as_ at_)
  | pUnion type (Some l) (Some r) => Some (Union type l r)
  | _ => None
  end.

(** Modelled from the spec: [Decode] is declared outside the files
    embedded here.  "Bare literals (bool, int, float, string, null, timestamp)
    serialize as the corresponding primitive" and are read back as the
    constant of the datum, an identifier is the symbol that
    [Ident.Encode] writes, and every other node is "a struct tagged with
    a type symbol and named fields; decoders dispatch on type": the
    empty node of that type takes each field but [type] through
    [SetField], in the order written. *)
Fixpoint Decode (d : ion.Datum) : decoding Node :=
  match d with
  | ion.Null | ion.Bool _ | ion.Int _ | ion.Uint _ | ion.Float _
  | ion.String _ | ion.Timestamp _ => AsConstant d
  | ion.Symbol s => Decoded (Ident s)
  | ion.Blob _ => Failed
  | ion.List _ => Failed
  | ion.Struct fields =>
      match ion.FieldByName fields "type" with
      | Some t =>
          match ion.as_String t with
          | Some name =>
              match getEmpty name with
              | Some empty =>
                  match
                    (fix each (l : list (string * ion.Datum)) (p : partial)
                       : decoding partial :=
                       match l with
                       | [] => Decoded p
                       | (label, v) :: rest =>
                           if String.eqb label "type" then each rest p
                           else
                             match SetField Decode p label v with
                             | Decoded p' => each rest p'
                             | Failed => Failed
                             | Panicked => Panicked
                             end
                       end) fields empty
                  with
                  | Decoded p => of_option (finish p)
                  | Failed => Failed
                  | Panicked => Panicked
                  end
              | None => Failed
              end
          | None => Failed
          end
      | None => Failed
      end
  end.

(** *** The nodes that go through the codec *)

(** The nodes directly below a node. *)
Definition children (n : Node) : list Node :=
  match n with
  | Dot i _ | Index i _ | Not i | UnaryArith _ i | IsKey i _ | Cast i _
  | Member i _ | StringMatch _ i _ _ | Unpivot i _ _ => [i]
  | Comparison _ l r | Logical _ l r | Arithmetic _ l r | Union _ l r => [l; r]
  | Builtin _ _ args => args
  | List values | Appended values => values
  | Aggregate _ _ inner over filter =>
      option_list inner
      ++ match over with
         | Some (mkWindow part order) => part ++ map Column order
         | None => []
         end
      ++ option_list filter
  | Lookup e els _ _ => e :: option_list els
  | Case limbs els _ =>
      flat_map (fun l => [When l; Then l]) limbs ++ option_list els
  | Struct fields => map Value fields
  | _ => []
  end.

(** The rationals that [Rational.Datum] writes without loss: the ones
    with an integer value that fits an [int64], written as that
    integer, and the ones that a float64 represents exactly. *)
Definition lossless (r : Q) : bool :=
  (IsInt r && IsInt64 (Num r)) || snd (Float64 r).

(** The constants that a list or struct literal carries through the
    codec: values of the [Constant] types, with integers that are Go
    integers, no NaN, and rationals written without loss. *)
Fixpoint literal (c : Node) : bool :=
  match c with
  | Bool _ | String _ | Timestamp _ | Null => true
  | Float f => negb (isNaN f)
  | Integer i => IsInt64 i
  | Rational r => lossless r
  | List values => forallb literal values
  | Struct fields =>
      (fix each (l : list Field) : bool :=
         match l with
         | [] => true
         | mkField _ v :: rest => literal v && each rest
         end) fields
  | _ => false
  end.

Definition isAppended (n : Node) : bool :=
  match n with
  | Appended _ => true
  | _ => false
  end.

(** The nodes on which the round trip is stated.  The fields of the
    integer types hold values of their Go type ([int], [uint8] for the
    precision of an aggregate and the type of a union, the 16 bits of a
    [TypeSet]), and list and struct literals hold constants.  Beyond
    what the types say: no float is a NaN, a precision is set only on
    the approximate-count aggregates, a call without a known builtin
    does not carry the name of one, a rational inside a literal is
    written without loss, and the values of an [Appended] are not
    themselves [Appended]. *)
Fixpoint wellformed (n : Node) : bool :=
  match n with
  | Bool _ | String _ | Ident _ | Star | Missing | Null | Timestamp _
  | Rational _ => true
  | Float f => negb (isNaN f)
  | Integer i => IsInt64 i
  | Dot inner _ => wellformed inner
  | Index inner offset => IsInt64 offset && wellformed inner
  | Comparison op l r | Logical op l r | Arithmetic op l r =>
      IsInt64 op && wellformed l && wellformed r
  | Not e => wellformed e
  | Builtin func text args =>
      match func with
      | Unspecified => BuiltinOp_eqb (name2Builtin (ToUpper text)) Unspecified
      | _ => true
      end && forallb wellformed args
  | UnaryArith op child => IsInt64 op && wellformed child
  | IsKey e key => IsInt64 key && wellformed e
  | Cast from to => (0 <=? to) && (to <? 2 ^ 16) && wellformed from
  | Aggregate op precision inner over filter =>
      IsInt64 op
      && (if isApprox op then (0 <=? precision) && (precision <? 2 ^ 8)
          else Z.eqb precision 0)
      && match inner with Some i => wellformed i | None => true end
      && match over with
         | Some (mkWindow part order) =>
             forallb wellformed part
             && (fix each (l : list Order) : bool :=
                   match l with
                   | [] => true
                   | mkOrder c _ _ :: rest => wellformed c && each rest
                   end) order
         | None => true
         end
      && match filter with Some f => wellformed f | None => true end
  | List values => forallb literal values
  | Member arg _ => wellformed arg
  | Lookup e els _ _ =>
      wellformed e && match els with Some x => wellformed x | None => true end
  | StringMatch op e _ _ => IsInt64 op && wellformed e
  | Appended values =>
      forallb (fun v => negb (isAppended v)) values && forallb wellformed values
  | Case limbs els _ =>
      (fix each (l : list CaseLimb) : bool :=
         match l with
         | [] => true
         | mkCaseLimb w t :: rest => wellformed w && wellformed t && each rest
         end) limbs
      && match els with Some x => wellformed x | None => true end
  | Struct fields => literal n
  | Unpivot tupleref _ _ => wellformed tupleref
  | Union type l r =>
      (0 <=? type) && (type <? 2 ^ 8) && wellformed l && wellformed r
  end.

(** Two nodes that [Equals] each other, whichever of the two is the
    receiver. *)
Definition agree (a b : Node) : Prop :=
  Equals a b = Some true /\ Equals b a = Some true.

(** The same of two sort keys, two limbs and two fields. *)
Definition agree_order (o' o : Order) : Prop :=
  Desc o' = Desc o /\ NullsLast o' = NullsLast o /\ agree (Column o') (Column o).

Definition agree_limb (l' l : CaseLimb) : Prop :=
  agree (When l') (When l) /\ agree (Then l') (Then l).

Definition agree_field (f' f : Field) : Prop :=
  Label f' = Label f /\ agree (Value f') (Value f).

Definition agree_opt (o' o : option Node) : Prop :=
  match o', o with
  | Some a, Some b => agree a b
  | None, None => True
  | _, _ => False
  end.

Definition agree_window (w' w : option Window) : Prop :=
  match w', w with
  | Some (mkWindow part' order'), Some (mkWindow part order) =>
      Forall2 agree part' part /\ Forall2 agree_order order' order
  | None, None => True
  | _, _ => False
  end.

(** Encoding a node and decoding the result gives a node that [Equals]
    the node, whichever of the two is the receiver. *)
Definition roundtrips (n : Node) : Prop :=
  exists d n',
    Encode n = Some d /\ Decode d = Decoded n' /\ agree n' n.

(** Encoding a node and decoding the result gives a node that is not
    [Equals] to the node: with the decoded node as the receiver
    ([differs]), and with the decoded node as the argument
    ([differs_as_argument]). *)
Definition differs (n : Node) : Prop :=
  exists d n',
    Encode n = Some d /\ Decode d = Decoded n' /\ Equals n' n = Some false.

Definition differs_as_argument (n : Node) : Prop :=
  exists d n',
    Encode n = Some d /\ Decode d = Decoded n' /\ Equals n n' = Some false.

End Codec.

(** The loops over lists inside [Datum], [AsConstant], [Encode] and
    [Decode], by name. *)
Definition Datum_each : list Node -> option (list ion.Datum) :=
  fix each (l : list Node) : option (list ion.Datum) :=
    match l with
    | [] => Some []
    | v :: rest =>
        match Datum v, each rest with
        | Some d, Some ds => Some (d :: ds)
        | _, _ => None
        end
    end.

Definition Datum_fields : list Field -> option (list (string * ion.Datum)) :=
  fix each (l : list Field) : option (list (string * ion.Datum)) :=
    match l with
    | [] => Some []
    | mkField label v :: rest =>
        match Datum v, each rest with
        | Some d, Some ds => Some ((label, d) :: ds)
        | _, _ => None
        end
    end.

Definition AsConstant_each : list ion.Datum -> decoding (list Node) :=
  fix each (l : list ion.Datum) : decoding (list Node) :=
    match l with
    | [] => Decoded []
    | x :: rest =>
        match AsConstant x with
        | Decoded v =>
            match each rest with
            | Decoded vs => Decoded (v :: vs)
            | Failed => Failed
            | Panicked => Panicked
            end
        | Failed => Failed
        | Panicked => Panicked
        end
    end.

Definition AsConstant_fields : list (string * ion.Datum) -> decoding (list Field) :=
  fix each (l : list (string * ion.Datum)) : decoding (list Field) :=
    match l with
    | [] => Decoded []
    | (label, x) :: rest =>
        match AsConstant x with
        | Decoded v =>
            match each rest with
            | Decoded vs => Decoded (mkField label v :: vs)
            | Failed => Failed
            | Panicked => Panicked
            end
        | Failed => Failed
        | Panicked => Panicked
        end
    end.

Definition Encode_each (ToUpper : string -> string)
  : list Node -> option (list ion.Datum) :=
  fix each (l : list Node) : option (list ion.Datum) :=
    match l with
    | [] => Some []
    | v :: rest =>
        match Encode ToUpper v, each rest with
        | Some d, Some ds => Some (d :: ds)
        | _, _ => None
        end
    end.

Definition Encode_columns (ToUpper : string -> string)
  : list Order -> option (list (ion.Datum * bool * bool)) :=
  fix columns (l : list Order) : option (list (ion.Datum * bool * bool)) :=
    match l with
    | [] => Some []
    | mkOrder c desc nullslast :: rest =>
        match Encode ToUpper c, columns rest with
        | Some d, Some cs => Some ((d, desc, nullslast) :: cs)
        | _, _ => None
        end
    end.

Definition Encode_limbs (ToUpper : string -> string)
  : list CaseLimb -> option (list ion.Datum) :=
  fix each (l : list CaseLimb) : option (list ion.Datum) :=
    match l with
    | [] => Some []
    | mkCaseLimb w t :: rest =>
        match Encode ToUpper w, Encode ToUpper t, each rest with
        | Some dw, Some dt, Some ds => Some (ion.List [dw; dt] :: ds)
        | _, _, _ => None
        end
    end.

(** The loops over lists inside [Equals], by name. *)
Definition Equals_each : list Node -> list Node -> option bool :=
  fix go (l xl : list Node) {struct l} : option bool :=
    match l, xl with
    | a1 :: l', x1 :: xl' => Equals a1 x1 &&& go l' xl'
    | _, _ => Some true
    end.

Definition Equivalent_each : list Node -> list Node -> option bool :=
  fix go (l xl : list Node) {struct l} : option bool :=
    match l, xl with
    | a1 :: l', x1 :: xl' =>
        (if same a1 x1 then Some true else Equals a1 x1) &&& go l' xl'
    | _, _ => Some true
    end.

Definition Order_each : list Order -> list Order -> option bool :=
  fix go (l xl : list Order) {struct l} : option bool :=
    match l, xl with
    | mkOrder c d n :: l', mkOrder xc xd xn :: xl' =>
        (Some (Bool.eqb d xd && Bool.eqb n xn) &&& Equals c xc) &&& go l' xl'
    | _, _ => Some true
    end.

Definition Limbs_each : list CaseLimb -> list CaseLimb -> option bool :=
  fix go (l xl : list CaseLimb) {struct l} : option bool :=
    match l, xl with
    | mkCaseLimb w t :: l', mkCaseLimb ow ot :: xl' =>
        Equals w ow &&& Equals t ot &&& go l' xl'
    | _, _ => Some true
    end.

(** The loop of [Struct.Equals]: the value of the argument is the
    receiver. *)
Definition Fields_each : list Field -> list Field -> option bool :=
  fix go (l xl : list Field) {struct l} : option bool :=
    match l, xl with
    | mkField label v :: l', mkField label2 v2 :: xl' =>
        Some (String.eqb label2 label) &&& Equals v2 v &&& go l' xl'
    | _, _ => Some true
    end.

End codec.

(** ** Package expr: operator methods, inversion and lookups in literals *)

Module ops.

Import num expr.

(** *** Comparison operators *)

(** [CmpOp.Ordinal]: the four ordinal comparisons are kept in order. *)
Definition Ordinal (c : CmpOp) : bool :=
  (Cmp.Less <=? c) && (c <=? Cmp.GreaterEquals).

(** [CmpOp.Flip] returns the operator that is equivalent to [c] if used
    with the operand order reversed. *)
Definition Flip (c : CmpOp) : CmpOp :=
  if Z.eqb c Cmp.Less then Cmp.Greater
  else if Z.eqb c Cmp.LessEquals then Cmp.GreaterEquals
  else if Z.eqb c Cmp.Greater then Cmp.Less
  else if Z.eqb c Cmp.GreaterEquals then Cmp.LessEquals
  else c.

(** [CmpOp.invert]. *)
Definition invert_CmpOp (c : CmpOp) : CmpOp :=
  if Z.eqb c Cmp.Less then Cmp.GreaterEquals
  else if Z.eqb c Cmp.LessEquals then Cmp.Greater
  else if Z.eqb c Cmp.Greater then Cmp.LessEquals
  else if Z.eqb c Cmp.GreaterEquals then Cmp.Less
  else if Z.eqb c Cmp.Equals then Cmp.NotEquals
  else if Z.eqb c Cmp.NotEquals then Cmp.Equals
  else c.

(** The switch of [IsKey.invert] on the keyword; a keyword outside the
    eight named ones is left as it is. *)
Definition invert_Keyword (k : Keyword) : Keyword :=
  if Z.eqb k IsNull then IsNotNull
  else if Z.eqb k IsNotNull then IsNull
  else if Z.eqb k IsMissing then IsNotMissing
  else if Z.eqb k IsNotMissing then IsMissing
  else if Z.eqb k IsTrue then IsNotTrue
  else if Z.eqb k IsFalse then IsNotFalse
  else if Z.eqb k IsNotTrue then IsTrue
  else if Z.eqb k IsNotFalse then IsFalse
  else k.

(** The [invert] methods: [Bool.invert], [Not.invert],
    [Comparison.invert] and [IsKey.invert].  The other node types have
    no such method ([None]). *)
Definition invert (n : Node) : option Node :=
  match n with
  | Bool b => Some (Bool (negb b))
  | Not e => Some e
  | Comparison op l r => Some (Comparison (invert_CmpOp op) l r)
  | IsKey e k => Some (IsKey e (invert_Keyword k))
  | _ => None
  end.

(** What the six comparison operators mean on two integers; an operator
    code outside the six has no meaning ([None]).  This is the reading
    against which [Flip] and [invert] are stated, not part of the Go
    code. *)
Definition holds (c : CmpOp) (a b : Z) : option bool :=
  if Z.eqb c Cmp.Equals then Some (a =? b)
  else if Z.eqb c Cmp.NotEquals then Some (negb (a =? b))
  else if Z.eqb c Cmp.Less then Some (a <? b)
  else if Z.eqb c Cmp.LessEquals then Some (a <=? b)
  else if Z.eqb c Cmp.Greater then Some (b <? a)
  else if Z.eqb c Cmp.GreaterEquals then Some (b <=? a)
  else None.

(** *** Self-equality *)

(** Whether a float literal that is a NaN occurs in a node.  The bags
    of a [Member] and of a [Lookup] hold datums, not nodes. *)
Fixpoint hasNaN (n : Node) : bool :=
  let opt (o : option Node) : bool :=
    match o with
    | Some x => hasNaN x
    | None => false
    end in
  match n with
  | Float f => isNaN f
  | Dot i _ | Index i _ | Not i | UnaryArith _ i | IsKey i _ | Cast i _
  | Member i _ | StringMatch _ i _ _ | Unpivot i _ _ =>
      hasNaN i
  | Comparison _ l r | Logical _ l r | Arithmetic _ l r | Union _ l r =>
      hasNaN l || hasNaN r
  | Builtin _ _ args => existsb hasNaN args
  | List values | Appended values => existsb hasNaN values
  | Aggregate _ _ inner over filter =>
      opt inner
      || match over with
         | Some (mkWindow part order) =>
             existsb hasNaN part
             || existsb (fun o => match o with mkOrder c _ _ => hasNaN c end) order
         | None => false
         end
      || opt filter
  | Lookup e els _ _ => hasNaN e || opt els
  | Case limbs els _ =>
      existsb (fun l => match l with
                        | mkCaseLimb w t => hasNaN w || hasNaN t
                        end) limbs
      || opt els
  | Struct fields =>
      existsb (fun f => match f with mkField _ v => hasNaN v end) fields
  | _ => false
  end.

(** *** Lookups in literals *)

(** [Equal] returns whether [a] and [b] are equivalent; [a] or [b] may
    be nil ([None]). *)
Definition Equal (a b : option Node) : option bool :=
  match a with
  | None => Some (match b with None => true | Some _ => false end)
  | Some a' =>
      match b with
      | None => Some false
      | Some b' => Equals a' b'
      end
  end.

(** The loop of [List.Index] from position [i] on. *)
Fixpoint Index_from (c : option Node) (values : list Node) (i : Z)
  : option Z :=
  match values with
  | [] => Some (-1)
  | v :: rest =>
      match Equal c (Some v) with
      | None => None
      | Some true => Some i
      | Some false => Index_from c rest (i + 1)
      end
  end.

(** [List.Index] returns the position of the first occurrence of the
    constant, and [-1] if no element was found. *)
Definition List_Index (Values : list Node) (c : option Node) : option Z :=
  Index_from c Values 0.






End ops.

(** ** Package plan: lowering of ORDER BY *)

Module ordering.

Import expr plan.

(** Modelled from the spec: the step [pir.Order] is declared outside the
    files embedded here; it is the step "order-by", with the one field
    that [lowerOrder] reads. *)
Record Order : Type := mkOrderStep { Columns : list expr.Order }.

(** [IsIdentifier] returns whether [e == Ident(s)]. *)
Definition IsIdentifier (e : Node) (s : string) : bool :=
  match e with
  | Ident x => String.eqb x s
  | _ => false
  end.

Definition makeOrdering (node : expr.Order) : vm.SortOrdering :=
  vm.mkSortOrdering
    (if expr.Desc node then vm.SortDescending else vm.SortAscending)
    (if expr.NullsLast node then vm.SortNullsLast else vm.SortNullsFirst).

(** The loops [for col := range ...] of [lowerOrder] over the
    aggregates and over the group-by bindings: the first position whose
    result name is the identifier [ex], counted from [col]. *)
Fixpoint find_col {A : Type} (Result : A -> string) (ex : Node)
         (l : list A) (col : Z) : option Z :=
  match l with
  | [] => None
  | a :: rest =>
      if IsIdentifier ex (Result a) then Some col
      else find_col Result ex rest (col + 1)
  end.

(** How the loop labelled [outer] is left: by its end ([return ha]) or
    by [goto slowpath]; in both cases with the [OrderBy] list of the
    hash aggregate as appended to so far. *)
Inductive fast_exit : Type :=
| Merged (OrderBy : list HashOrder)
| Slowpath (OrderBy : list HashOrder).

(** The loop labelled [outer], from the column at position [i] on.
    The loop over the windows reads [ha.Windows[i]], at the position of
    the ORDER BY column, on each of its rounds; the read panics when
    there is a window and [i] is past the last one. *)
Fixpoint outer (Agg Windows : vm.Aggregation) (By : list Binding)
         (columns : list expr.Order) (i : nat) (OrderBy : list HashOrder)
  : outcome fast_exit :=
  match columns with
  | [] => Returns (Merged OrderBy)
  | c :: rest =>
      let ex := expr.Column c in
      let ordering := makeOrdering c in
      match find_col vm.Result ex Agg 0 with
      | Some col =>
          outer Agg Windows By rest (S i)
                (OrderBy ++ [mkHashOrder col ordering])
      | None =>
          match find_col expr.Result ex By 0 with
          | Some col =>
              outer Agg Windows By rest (S i)
                    (OrderBy ++ [mkHashOrder (Z.of_nat (length Agg) + col) ordering])
          | None =>
              match Windows with
              | [] => Returns (Slowpath OrderBy)
              | _ :: _ =>
                  match Windows !! i with
                  | None => Panics
                  | Some w =>
                      if IsIdentifier ex (vm.Result w) then
                        outer Agg Windows By rest (S i)
                              (OrderBy ++
                               [mkHashOrder (Z.of_nat (length Agg)
                                             + Z.of_nat (length By) + 0)
                                            ordering])
                      else Returns (Slowpath OrderBy)
                  end
              end
          end
      end
  end.

(** The constant columns that the slow path skips: they do not
    meaningfully apply a sort. *)
Definition skipped (n : Node) : bool :=
  match n with
  | Bool _ | Integer _ | Rational _ | Float _ | String _ => true
  | _ => false
  end.

(** The first loop of the slow path: the sort columns. *)
Fixpoint sort_columns (columns : list expr.Order) : list vm.SortColumn :=
  match columns with
  | [] => []
  | c :: rest =>
      if skipped (expr.Column c) then sort_columns rest
      else vm.mkSortColumn (expr.Column c) (makeOrdering c) :: sort_columns rest
  end.

(** The loops that find possible duplicates: for each column, the
    columns after it, in order. *)
Fixpoint duplicate_of (n : Node) (later : list vm.SortColumn) : option bool :=
  match later with
  | [] => Some false
  | c :: rest =>
      match Equivalent n (vm.Node c) with
      | None => None
      | Some true => Some true
      | Some false => duplicate_of n rest
      end
  end.

Fixpoint duplicates (columns : list vm.SortColumn) : option bool :=
  match columns with
  | [] => Some false
  | c :: rest =>
      match duplicate_of (vm.Node c) rest with
      | None => None
      | Some true => Some true
      | Some false => duplicates rest
      end
  end.

(** The code from the label [slowpath] on.  The error message of the
    Go code goes on with the text of the duplicate expression. *)
Definition slowpath (columns : list expr.Order) (from : Op)
  : outcome (result Op) :=
  match sort_columns columns with
  | [] => Returns (Ok from)
  | cols =>
      match duplicates cols with
      | None => Panics
      | Some true => Returns (Err "duplicate order by expression")
      | Some false => Returns (Ok (plan.OrderBy from cols 0 0))
      end
  end.

(** [lowerOrder].  A hash aggregate below accepts ORDER BY directly and
    is updated in place; the entries appended before a jump to the slow
    path stay in it. *)
Definition lowerOrder (in_ : Order) (from : Op) : outcome (result Op) :=
  match from with
  | HashAggregate f agg windows by_ order limit =>
      match outer agg windows by_ (Columns in_) 0 order with
      | Returns (Merged order') =>
          Returns (Ok (HashAggregate f agg windows by_ order' limit))
      | Returns (Slowpath order') =>
          slowpath (Columns in_) (HashAggregate f agg windows by_ order' limit)
      | Panics => Panics
      | OutOfFuel => OutOfFuel
      end
  | _ => slowpath (Columns in_) from
  end.

(** Whether an ORDER BY column names an aggregate result or a group-by
    binding of a hash aggregate. *)
Definition resolves (Agg : vm.Aggregation) (By : list Binding)
           (c : expr.Order) : bool :=
  match find_col vm.Result (expr.Column c) Agg 0 with
  | Some _ => true
  | None =>
      match find_col expr.Result (expr.Column c) By 0 with
      | Some _ => true
      | None => false
      end
  end.

(** Whether an operator is a hash aggregate with window aggregates. *)
Definition windowed (from : Op) : bool :=
  match from with
  | HashAggregate _ _ (_ :: _) _ _ _ => true
  | _ => false
  end.

(** Whether an operator is a hash aggregate. *)
Definition hashed (from : Op) : bool :=
  match from with
  | HashAggregate _ _ _ _ _ _ => true
  | _ => false
  end.

(** No column of the list is equivalent to a column after it. *)
Definition distinct (columns : list vm.SortColumn) : Prop :=
  forall i j a b, (i < j)%nat ->
    columns !! i = Some a -> columns !! j = Some b ->
    Equivalent (vm.Node a) (vm.Node b) = Some false.

(** Some column of the list and a column after it give [r] when
    compared. *)
Definition clash (columns : list vm.SortColumn) (r : option bool) : Prop :=
  exists i j a b, (i < j)%nat /\
    columns !! i = Some a /\ columns !! j = Some b /\
    Equivalent (vm.Node a) (vm.Node b) = r.


(** The entry [o] that a hash aggregate takes for the ORDER BY column
    [c]: it carries the ordering of the column and the position of the
    aggregate whose result the column names or, when the column names
    no aggregate result, the position after the aggregates of the
    group-by binding that it names. *)
Definition names (Agg : vm.Aggregation) (By : list Binding)
           (c : expr.Order) (o : HashOrder) : Prop :=
  plan.Ordering o = makeOrdering c /\
  ((0 <= plan.Column o < Z.of_nat (length Agg) /\
    exists a, Agg !! Z.to_nat (plan.Column o) = Some a /\
              expr.Column c = Ident (vm.Result a))
   \/
   (Forall (fun a => expr.Column c <> Ident (vm.Result a)) Agg /\
    Z.of_nat (length Agg) <= plan.Column o
      < Z.of_nat (length Agg) + Z.of_nat (length By) /\
    exists b, By !! Z.to_nat (plan.Column o - Z.of_nat (length Agg)) = Some b /\
              expr.Column c = Ident (expr.Result b))).

(** The operators that take no limit of their own: [lowerLimit] puts a
    [Limit] operator over them. *)
Definition bare (from : Op) : bool :=
  match from with
  | HashAggregate _ _ _ _ _ _ | plan.OrderBy _ _ _ _ | Distinct _ _ _ => false
  | _ => true
  end.

End ordering.

(** ** Package expr: the strings that [ParsePath] reads *)

Module paths.

Import expr.

(** A path component that [ParsePath] reads back as it is: not empty,
    without the separators [.] and [[], and without a double quote at
    either end. *)
Definition plain (f : string) : bool :=
  negb (Nat.eqb (String.length f) 0)
  && forallb (fun c => negb (Ascii.eqb c "." || Ascii.eqb c "["))
             (list_ascii_of_string f)
  && String.eqb (Trim f) f.


(** What the parser has built so far is a path expression, if
    anything. *)
Definition path_or_nil (cur : option Node) : Prop :=
  match cur with
  | Some n => IsPath n = true
  | None => True
  end.

End paths.

(** ** Package plan: the field lists of merged inputs *)

Module fieldset.

(** The order of [slices.Sort] on strings, strict: byte-wise
    lexicographic, the strings being different. *)
Definition before (s t : string) : Prop := String.ltb s t = true.

(** The same, not strict. *)
Definition upto (s t : string) : Prop := String.leb s t = true.

(** A filter hint without a NaN: a filter all of whose conjuncts are
    [Equals] to themselves. *)
Definition clean (f : option expr.Node) : bool :=
  match f with
  | Some e => negb (ops.hasNaN e)
  | None => true
  end.

End fieldset.

(** ** Package pir: traces and rules, for the statements on [optimize] *)

Module trace.

Section Trace.

Variable Payload : Type.

(** The steps [l] reached from [s] through the parent pointers, down
    to a step without a parent. *)
Fixpoint chain (h : gmap nat (pir.node Payload)) (s : pir.Step)
         (l : list pir.ptr) : Prop :=
  match l with
  | [] => s = None
  | p :: l' =>
      s = Some p /\
      exists nd, h !! pir.address p = Some nd /\
                 chain h (pir.parent_of Payload nd) l'
  end.

(** Rules that keep their word: a call that reports neither
    [fpoUpdate] nor [fpoReplace] has left the steps as they were. *)
Definition quiet (rules : list (pir.rule Payload)) : Prop :=
  forall r s h n status h1,
    r ∈ rules ->
    pir.Call Payload r s h = (n, status, h1) ->
    status <> pir.fpoUpdate -> status <> pir.fpoReplace ->
    h1 = h.

End Trace.

End trace.

(** ** Concrete nodes, steps and inputs used in the statements below *)

Module examples.

Import expr plan dedup.

Definition two53 : Z := 9007199254740992.

(** A window aggregate. *)
Definition row_number : vm.AggBinding :=
  vm.mkAggBinding
    (expr.mkAggregate OpRowNumber 0 None (Some (mkWindow [Ident "x"] [])) None)
    "rn".

(** [SUM(x) OVER (PARTITION BY k)]. *)
Definition sum_over : vm.AggBinding :=
  vm.mkAggBinding
    (expr.mkAggregate OpSum 0 (Some (Ident "x")) (Some (mkWindow [Ident "k"] [])) None)
    "s".

(** A comparison with a timestamp literal. *)
Definition ts_lt : Node := Comparison Cmp.Less (Ident "t") (Timestamp 1000).

(** A slot whose only hint is the negation of a comparison with a
    timestamp literal, and a leaf of the same table without a filter. *)
Definition negated : input unit :=
  mkInput unit (Ident "tbl") (mkHints (Some (Not ts_lt)) ["t"] false) None.

Definition unfiltered : pir.IterTable :=
  pir.mkIterTable (Ident "tbl") None ["t"] false [].

Definition example_x : input unit :=
  mkInput unit (Ident "tbl") (mkHints (Some (And ts_lt ts_lt)) ["t"] false) None.

Definition example_it : pir.IterTable :=
  pir.mkIterTable (Ident "tbl") (Some ts_lt) ["t"] false [].

(** An approximate count with a window and a filter. *)
Definition approx_count : Node :=
  Aggregate OpApproxCountDistinct 11 (Some (Dot (Ident "x") "y"))
            (Some (mkWindow [Ident "k"] []))
            (Some (Comparison Cmp.Less (Index (Ident "a") 2) (Integer (-3)))).

(** A [CASE] over a pattern match, a membership test and a lookup, with
    a call of an unknown function, a ranked window and a union. *)
Definition searched : Node :=
  Case [mkCaseLimb (StringMatch Like (Ident "name") "a%" "")
                   (Struct [mkField "k" (Integer 1); mkField "r" (Rational (1 # 2))]);
        mkCaseLimb (Member (Ident "x") [ion.Uint 1; ion.String "a"])
                   (Appended [Ident "a"; List [Bool true; Rational 3]]);
        mkCaseLimb (Lookup (Ident "y") (Some Null) [ion.Uint 1] [ion.Bool false])
                   (Unpivot (Ident "t") (Some "v") None)]
       (Some (Builtin Unspecified "my_func"
                [Aggregate OpRank 0 None
                   (Some (mkWindow [Ident "k"] [mkOrder (Ident "o") true false]))
                   None;
                 Union UnionAll (Ident "l") (Not (IsKey (Ident "r") 1))]))
       "logical".

(** A trace [Limit -> Filter -> IterTable]. *)
Definition limit_step : pir.ptr := pir.mkPtr "*pir.Limit" 0.
Definition filter_step : pir.ptr := pir.mkPtr "*pir.Filter" 1.
Definition table_step : pir.ptr := pir.mkPtr "*pir.IterTable" 2.

Definition filtered : gmap nat (pir.node unit) :=
  <[0%nat := pir.mkNode _ (Some filter_step) tt]>
    (<[1%nat := pir.mkNode _ (Some table_step) tt]>
       (<[2%nat := pir.mkNode _ None tt]> ∅)).

(** A rule that replaces a [Filter] step by its parent, when it has
    one. *)
Definition drop_filter : pir.rule unit :=
  pir.mkRule unit "*pir.Filter"
    (fun s h =>
       match h !! pir.address s with
       | Some nd =>
           match pir.parent_of _ nd with
           | Some p => (Some p, pir.fpoReplace, h)
           | None => (None, pir.fpoIntact, h)
           end
       | None => (None, pir.fpoIntact, h)
       end).

(** A rule that reports a replacement and returns a nil step. *)
Definition nil_replace : pir.rule unit :=
  pir.mkRule unit "*pir.Filter" (fun s h => (None, pir.fpoReplace, h)).

(** A rule that returns a status that is none of the named ones. *)
Definition odd_status : pir.rule unit :=
  pir.mkRule unit "*pir.Filter" (fun s h => (Some s, 3%N, h)).

(** A trace that is a single [Filter] step. *)
Definition lone_filter : gmap nat (pir.node unit) :=
  <[1%nat := pir.mkNode _ None tt]> ∅.

End examples.

(** ** More concrete steps and operators *)

Module samples.

Import expr plan ordering.

(** [SUM(x) AS total] and [COUNT( * ) AS n], grouped by [k]. *)
Definition total : vm.AggBinding :=
  vm.mkAggBinding (expr.mkAggregate OpSum 0 (Some (Ident "x")) None None) "total".

Definition n : vm.AggBinding :=
  vm.mkAggBinding (expr.mkAggregate OpCount 0 (Some Star) None None) "n".

Definition by_k : Binding := Bind (Ident "k") "k".

Definition scan : Op := Leaf (Ident "t") [] [].

Definition grouped : Op := HashAggregate scan [total; n] [] [by_k] [] 0.

(** The same, with a window aggregate. *)
Definition ranked : Op :=
  HashAggregate scan [total; n] [examples.row_number] [by_k] [] 0.

(** [ORDER BY k DESC, n]. *)
Definition by_k_n : list expr.Order :=
  [mkOrder (Ident "k") true false; mkOrder (Ident "n") false false].

(** [ORDER BY n, total + 1]. *)
Definition by_sum : list expr.Order :=
  [mkOrder (Ident "n") false false;
   mkOrder (Arithmetic AddOp (Ident "total") (Integer 1)) false false].

(** The trace [Limit -> IterTable] that dropping the [Filter] step of
    [examples.filtered] leaves. *)
Definition relinked : gmap nat (pir.node unit) :=
  <[0%nat := pir.mkNode _ (Some examples.table_step) tt]> examples.filtered.

End samples.

(** ** Nodes and their equality *)

Module NodeProps.

Import num expr codec.

(** *** Induction on nodes *)

Lemma Node_children_ind (P : Node -> Prop) :
  (forall n, Forall P (children n) -> P n) -> forall n, P n.
Proof.
  intros H. fix IH 1. intros n. apply H.
  destruct n as [ | | | | | | i f | i o | | | | | op l r | op l r | e
                | f t args | op c | op l r | e k | fr to
                | op pr inner over filter | values
                | arg set | e els keys values | op e pat esc | values
                | limbs els val | fields | t as_ at_ | ty l r ]; simpl;
    repeat constructor; try apply IH.
  - induction args as [| a args IHa]; constructor; [apply IH | exact IHa].
  - apply Forall_app. split.
    + destruct inner; simpl; repeat constructor. apply IH.
    + apply Forall_app. split.
      * destruct over as [[part order] |]; [| constructor].
        apply Forall_app. split.
        -- induction part as [| a part IHa]; constructor; [apply IH | exact IHa].
        -- induction order as [| [c d nl] order IHa]; simpl; constructor;
             [apply IH | exact IHa].
      * destruct filter; simpl; repeat constructor. apply IH.
  - induction values as [| a values IHa]; constructor; [apply IH | exact IHa].
  - destruct els; simpl; repeat constructor. apply IH.
  - induction values as [| a values IHa]; constructor; [apply IH | exact IHa].
  - apply Forall_app. split.
    + induction limbs as [| [w t] limbs IHa]; simpl; repeat constructor;
        [apply IH | apply IH | exact IHa].
    + destruct els; simpl; repeat constructor. apply IH.
  - induction fields as [| [label v] fields IHa]; simpl; constructor;
      [apply IH | exact IHa].
Qed.

Lemma Forall_cons_inv {A : Type} (P : A -> Prop) (x : A) (l : list A) :
  Forall P (x :: l) -> P x /\ Forall P l.
Proof. intros H. by inversion H. Qed.

(** *** The two definitions of [Equals] agree *)

Lemma each_arg (l0 l : list Node) :
  Forall mirrored l0 ->
  (fix go (l xl : list Node) {struct xl} : option bool :=
     match l, xl with
     | a1 :: l', x1 :: xl' => EqualsArg x1 a1 &&& go l' xl'
     | _, _ => Some true
     end) l l0
  = Equals_each l l0.
Proof.
  revert l. induction l0 as [| x xl IHl]; intros [| a l] H; try reflexivity.
  apply Forall_cons_inv in H as [Hx H].
  simpl. rewrite (proj1 (Hx a)). f_equal. by apply IHl.
Qed.

Lemma each_recv (l0 xl : list Node) :
  Forall mirrored l0 ->
  (fix go (l xl : list Node) {struct xl} : option bool :=
     match l, xl with
     | a1 :: l', x1 :: xl' => EqualsArg x1 a1 &&& go l' xl'
     | _, _ => Some true
     end) l0 xl
  = Equals_each l0 xl.
Proof.
  revert xl. induction l0 as [| a l IHl]; intros [| x xl] H; try reflexivity.
  apply Forall_cons_inv in H as [Ha H].
  simpl. rewrite (proj2 (Ha x)). f_equal. by apply IHl.
Qed.

Lemma equiv_arg (l0 l : list Node) :
  Forall mirrored l0 ->
  (fix go (l xl : list Node) {struct xl} : option bool :=
     match l, xl with
     | a1 :: l', x1 :: xl' =>
         (if same a1 x1 then Some true else EqualsArg x1 a1) &&& go l' xl'
     | _, _ => Some true
     end) l l0
  = Equivalent_each l l0.
Proof.
  revert l. induction l0 as [| x xl IHl]; intros [| a l] H; try reflexivity.
  apply Forall_cons_inv in H as [Hx H].
  simpl. rewrite (proj1 (Hx a)). f_equal. by apply IHl.
Qed.

Lemma equiv_recv (l0 xl : list Node) :
  Forall mirrored l0 ->
  (fix go (l xl : list Node) {struct xl} : option bool :=
     match l, xl with
     | a1 :: l', x1 :: xl' =>
         (if same a1 x1 then Some true else EqualsArg x1 a1) &&& go l' xl'
     | _, _ => Some true
     end) l0 xl
  = Equivalent_each l0 xl.
Proof.
  revert xl. induction l0 as [| a l IHl]; intros [| x xl] H; try reflexivity.
  apply Forall_cons_inv in H as [Ha H].
  simpl. rewrite (proj2 (Ha x)). f_equal. by apply IHl.
Qed.

Lemma order_arg (l0 : list Order) (l : list Order) :
  Forall mirrored (map Column l0) ->
  (fix go (l xl : list Order) {struct xl} : option bool :=
     match l, xl with
     | mkOrder c d n :: l', mkOrder xc xd xn :: xl' =>
         (Some (Bool.eqb d xd && Bool.eqb n xn) &&& EqualsArg xc c) &&& go l' xl'
     | _, _ => Some true
     end) l l0
  = Order_each l l0.
Proof.
  revert l. induction l0 as [| [xc xd xn] xl IHl]; intros [| [c d n] l] H;
    try reflexivity.
  simpl in H. apply Forall_cons_inv in H as [Hx H].
  simpl. rewrite (proj1 (Hx c)). f_equal. by apply IHl.
Qed.

Lemma order_recv (l0 : list Order) (xl : list Order) :
  Forall mirrored (map Column l0) ->
  (fix go (l xl : list Order) {struct xl} : option bool :=
     match l, xl with
     | mkOrder c d n :: l', mkOrder xc xd xn :: xl' =>
         (Some (Bool.eqb d xd && Bool.eqb n xn) &&& EqualsArg xc c) &&& go l' xl'
     | _, _ => Some true
     end) l0 xl
  = Order_each l0 xl.
Proof.
  revert xl. induction l0 as [| [c d n] l IHl]; intros [| [xc xd xn] xl] H;
    try reflexivity.
  simpl in H. apply Forall_cons_inv in H as [Hx H].
  simpl. rewrite (proj2 (Hx xc)). f_equal. by apply IHl.
Qed.

Lemma limbs_arg (l0 : list CaseLimb) (l : list CaseLimb) :
  Forall mirrored (flat_map (fun l => [When l; Then l]) l0) ->
  (fix go (l xl : list CaseLimb) {struct xl} : option bool :=
     match l, xl with
     | mkCaseLimb w t :: l', mkCaseLimb ow ot :: xl' =>
         EqualsArg ow w &&& EqualsArg ot t &&& go l' xl'
     | _, _ => Some true
     end) l l0
  = Limbs_each l l0.
Proof.
  revert l. induction l0 as [| [ow ot] xl IHl]; intros [| [w t] l] H;
    try reflexivity.
  simpl in H. apply Forall_cons_inv in H as [Hw H].
  apply Forall_cons_inv in H as [Ht H].
  simpl. rewrite (proj1 (Hw w)), (proj1 (Ht t)). f_equal. by apply IHl.
Qed.

Lemma limbs_recv (l0 : list CaseLimb) (xl : list CaseLimb) :
  Forall mirrored (flat_map (fun l => [When l; Then l]) l0) ->
  (fix go (l xl : list CaseLimb) {struct xl} : option bool :=
     match l, xl with
     | mkCaseLimb w t :: l', mkCaseLimb ow ot :: xl' =>
         EqualsArg ow w &&& EqualsArg ot t &&& go l' xl'
     | _, _ => Some true
     end) l0 xl
  = Limbs_each l0 xl.
Proof.
  revert xl. induction l0 as [| [w t] l IHl]; intros [| [ow ot] xl] H;
    try reflexivity.
  simpl in H. apply Forall_cons_inv in H as [Hw H].
  apply Forall_cons_inv in H as [Ht H].
  simpl. rewrite (proj2 (Hw ow)), (proj2 (Ht ot)). f_equal. by apply IHl.
Qed.

Lemma fields_arg (l0 : list Field) (l : list Field) :
  Forall mirrored (map Value l0) ->
  (fix go (l xl : list Field) {struct l} : option bool :=
     match l, xl with
     | mkField label v :: l', mkField label2 v2 :: xl' =>
         Some (String.eqb label2 label) &&& EqualsArg v v2 &&& go l' xl'
     | _, _ => Some true
     end) l l0
  = (fix go (l xl : list Field) {struct xl} : option bool :=
       match l, xl with
       | mkField label v :: l', mkField label2 v2 :: xl' =>
           Some (String.eqb label2 label) &&& Equals v2 v &&& go l' xl'
       | _, _ => Some true
       end) l l0.
Proof.
  revert l. induction l0 as [| [label2 v2] xl IHl]; intros [| [label v] l] H;
    try reflexivity.
  simpl in H. apply Forall_cons_inv in H as [Hx H].
  cbn -[andthen]. rewrite (proj2 (Hx v)). f_equal. by apply IHl.
Qed.

Lemma fields_recv (l0 : list Field) (xl : list Field) :
  Forall mirrored (map Value l0) ->
  (fix go (l xl : list Field) {struct l} : option bool :=
     match l, xl with
     | mkField label v :: l', mkField label2 v2 :: xl' =>
         Some (String.eqb label2 label) &&& EqualsArg v v2 &&& go l' xl'
     | _, _ => Some true
     end) l0 xl
  = (fix go (l xl : list Field) {struct xl} : option bool :=
       match l, xl with
       | mkField label v :: l', mkField label2 v2 :: xl' =>
           Some (String.eqb label2 label) &&& Equals v2 v &&& go l' xl'
       | _, _ => Some true
       end) l0 xl.
Proof.
  revert xl. induction l0 as [| [label v] l IHl]; intros [| [label2 v2] xl] H;
    try reflexivity.
  simpl in H. apply Forall_cons_inv in H as [Hx H].
  cbn -[andthen]. rewrite (proj1 (Hx v2)). f_equal. by apply IHl.
Qed.

Ltac children_IH IH :=
  simpl in IH;
  repeat match type of IH with
         | Forall _ (_ :: _) =>
             let H := fresh "Hc" in apply Forall_cons_inv in IH as [H IH]
         end.

Ltac mirror :=
  repeat match goal with
         | H : mirrored ?c |- context [EqualsArg ?c ?d] => rewrite (proj1 (H d))
         | H : mirrored ?c |- context [EqualsArg ?d ?c] => rewrite (proj2 (H d))
         end.

Lemma EqualsArg_mirrored (n : Node) : mirrored n.
Proof.
  induction n as [n IH] using Node_children_ind.
  intros r.
  destruct n, r; try (split; reflexivity); children_IH IH.
  all: try (split; simpl; mirror; reflexivity).
  - (* Builtin *)
    split; simpl;
      (destruct (BuiltinOp_eqb _ _ && Nat.eqb _ _); [| reflexivity]);
      [by apply each_arg | by apply each_recv].
  - (* Aggregate *)
    apply Forall_app in IH as [IHi IH]. apply Forall_app in IH as [IHo IHf].
    destruct Inner0 as [i |], Inner1 as [i1 |], Filter0 as [f |], Filter1 as [f1 |];
      children_IH IHi; children_IH IHf;
      (destruct Over0 as [[part order] |], Over1 as [[part1 order1] |];
       [apply Forall_app in IHo as [IHp IHr] | | | ]);
      split; simpl; mirror;
      rewrite ?(equiv_arg part), ?(equiv_recv part),
        ?(order_arg order), ?(order_recv order) by assumption;
      reflexivity.
  - (* List *)
    split; simpl; (destruct (negb (Nat.eqb _ _)); [reflexivity |]);
      [by apply each_arg | by apply each_recv].
  - (* Lookup *)
    destruct Else as [x |], Else0 as [x0 |]; children_IH IH;
      split; simpl; mirror; reflexivity.
  - (* Appended *)
    split; simpl; (destruct (negb (Nat.eqb _ _)); [reflexivity |]);
      [by apply each_arg | by apply each_recv].
  - (* Case *)
    apply Forall_app in IH as [IHl IHe].
    destruct Else as [x |], Else0 as [x0 |]; children_IH IHe;
      split; simpl; mirror;
      (destruct (negb (Nat.eqb _ _)); [reflexivity |]); simpl;
      rewrite ?(limbs_arg Limbs), ?(limbs_recv Limbs) by assumption;
      reflexivity.
  - (* Struct *)
    split; simpl; (destruct (negb (Nat.eqb _ _)); [reflexivity |]).
    + symmetry. by apply fields_arg.
    + symmetry. by apply fields_recv.
Qed.

(** [EqualsArg e a] is [a.Equals(e)]. *)
Lemma EqualsArg_Equals (e a : Node) : EqualsArg e a = Equals a e.
Proof. apply EqualsArg_mirrored. Qed.

End NodeProps.

(** * Properties *)

(** ** Limit lowering *)

Module LimitProps.

Import plan.

(** C10: lowering a Limit step whose count is zero produces [NoOutput]
    for every operator below and every offset: the count is looked at
    before any offset is, so [LIMIT 0] with a non-zero offset succeeds. *)
Theorem lowerLimit_zero_count (offset : Z) (from : Op) :
  lowerLimit (pir.mkLimit 0 offset) from = Ok NoOutput.
Proof. reflexivity. Qed.

Lemma lowerLimit_count_ne (in_ : pir.Limit) (from : Op) :
  pir.Count in_ <> 0 ->
  lowerLimit in_ from =
    match from with
    | HashAggregate f agg windows by_ order _ =>
        if negb (Z.eqb (pir.Offset in_) 0)
        then Err (reject "non-zero OFFSET of hash aggregate result")
        else Ok (HashAggregate f agg windows by_ order (pir.Count in_))
    | OrderBy f columns _ _ =>
        Ok (OrderBy f columns (pir.Count in_) (pir.Offset in_))
    | Distinct f fields _ =>
        if negb (Z.eqb (pir.Offset in_) 0)
        then Err (reject "non-zero OFFSET of distinct result")
        else Ok (Distinct f fields (pir.Count in_))
    | _ =>
        if negb (Z.eqb (pir.Offset in_) 0)
        then Err (reject "OFFSET without GROUP BY/ORDER BY not implemented")
        else Ok (Limit from (pir.Count in_))
    end.
Proof.
  intros Hc. unfold lowerLimit.
  destruct (Z.eqb_spec (pir.Count in_) 0) as [E | _]; [contradiction | reflexivity].
Qed.

(** C6: with a non-zero count, a [HashAggregate] or [Distinct] below
    takes the limit, and lowering is rejected exactly when the offset is
    non-zero; an [OrderBy] below takes the limit and any offset; over
    any other operator a non-zero offset is rejected and a zero offset
    yields a [Limit] operator. *)
Theorem lowerLimit_nonzero_count (in_ : pir.Limit) (from : Op) :
  pir.Count in_ <> 0 ->
  match from with
  | HashAggregate f agg windows by_ order _ =>
      (rejected (lowerLimit in_ from) <-> pir.Offset in_ <> 0) /\
      (pir.Offset in_ = 0 ->
       lowerLimit in_ from =
         Ok (HashAggregate f agg windows by_ order (pir.Count in_)))
  | Distinct f fields _ =>
      (rejected (lowerLimit in_ from) <-> pir.Offset in_ <> 0) /\
      (pir.Offset in_ = 0 ->
       lowerLimit in_ from = Ok (Distinct f fields (pir.Count in_)))
  | OrderBy f columns _ _ =>
      lowerLimit in_ from =
        Ok (OrderBy f columns (pir.Count in_) (pir.Offset in_))
  | _ =>
      (rejected (lowerLimit in_ from) <-> pir.Offset in_ <> 0) /\
      (pir.Offset in_ = 0 -> lowerLimit in_ from = Ok (Limit from (pir.Count in_)))
  end.
Proof.
  intros Hc. rewrite (lowerLimit_count_ne _ _ Hc). unfold rejected.
  destruct from; try reflexivity;
    (destruct (Z.eqb_spec (pir.Offset in_) 0) as [E | E]; simpl;
     (split; [split | ]);
     [ intros [msg H]; discriminate H
     | intros H; contradiction
     | reflexivity
     | intros _; exact E
     | intros _; eexists; reflexivity
     | intros H; contradiction ]).
Qed.

Lemma lowerLimit_nonzero_count_witness :
  pir.Count (pir.mkLimit 2 1) <> 0 /\
  lowerLimit (pir.mkLimit 2 1) (OrderBy NoOutput [] 0 0) =
    Ok (OrderBy NoOutput [] 2 1).
Proof.
  split; [ discriminate | ].
  exact (lowerLimit_nonzero_count (pir.mkLimit 2 1) (OrderBy NoOutput [] 0 0)
           ltac:(discriminate)).
Defined.

End LimitProps.

(** ** Aggregate lowering *)

Module AggregateProps.

Import expr plan examples.

(** The aggregate ops that [splitWindows] sends to the second list. *)
Lemma WindowOnly_spec (op : AggregateOp) :
  WindowOnly op = List.existsb (Z.eqb op) [OpRowNumber; OpRank; OpDenseRank].
Proof. unfold WindowOnly. simpl. by rewrite orb_false_r, orb_assoc. Qed.

Lemma splitWindows_acc (lst agg window : vm.Aggregation) :
  fold_left
    (fun '(agg, window) b =>
       if WindowOnly (expr.Op (vm.Expr b)) then (agg, window ++ [b])
       else (agg ++ [b], window))
    lst (agg, window)
  = (agg ++ List.filter (fun b => negb (WindowOnly (expr.Op (vm.Expr b)))) lst,
     window ++ List.filter (fun b => WindowOnly (expr.Op (vm.Expr b))) lst).
Proof.
  revert agg window.
  induction lst as [| b lst IH]; intros agg window; simpl.
  - by rewrite !app_nil_r.
  - destruct (WindowOnly (expr.Op (vm.Expr b))); simpl;
      rewrite IH, <- ?app_assoc; reflexivity.
Qed.

(** [splitWindows] goes by the op of each aggregate: the pair (the
    bindings whose op is not only valid in a window function, the
    bindings whose op is), each in the order of the list. *)
Lemma splitWindows_filter (lst : vm.Aggregation) :
  splitWindows lst =
    (List.filter (fun b => negb (WindowOnly (expr.Op (vm.Expr b)))) lst,
     List.filter (fun b => WindowOnly (expr.Op (vm.Expr b))) lst).
Proof. unfold splitWindows. by rewrite splitWindows_acc. Qed.

(** [iscountstar] holds of exactly one unfiltered [COUNT( * )]. *)
Lemma iscountstar_spec (a : vm.Aggregation) :
  iscountstar a = true <->
  exists b, a = [b] /\ expr.Op (vm.Expr b) = OpCount /\
            expr.Filter (vm.Expr b) = None /\
            expr.Inner (vm.Expr b) = Some Star.
Proof.
  split.
  - destruct a as [| b [| c a]]; simpl; try discriminate.
    destruct (Z.eqb_spec (expr.Op (vm.Expr b)) OpCount) as [E | E];
      simpl; try discriminate.
    destruct (expr.Filter (vm.Expr b)) eqn:Ef; try discriminate.
    destruct (expr.Inner (vm.Expr b)) as [[] |] eqn:Ei; try discriminate.
    intros _. exists b. auto.
  - intros (b & -> & Eo & Ef & Ei). simpl.
    rewrite Eo, Ef, Ei. reflexivity.
Qed.

(** C4, as stated, fails.  With a nil GROUP BY and a window aggregate
    in the list, the step is not a single [COUNT( * )] and has a window
    aggregate, yet it lowers to [SimpleAggregate] (carrying the window
    aggregate) and not to [HashAggregate].  With a GROUP BY, an
    aggregate with an OVER part whose op is not one of the ops only
    valid in a window function is left in the first list of the
    [HashAggregate], and the list of windows is empty. *)
Lemma lowerAggregate_window_aggregates :
  let in_ := pir.mkAggregate [row_number] None in
  let grouped := pir.mkAggregate [sum_over] (Some [Bind (Ident "k") "k"]) in
  pir.GroupBy in_ = None /\
  iscountstar (pir.Agg in_) = false /\
  List.existsb hasOver (pir.Agg in_) = true /\
  lowerAggregate in_ NoOutput = Ok (SimpleAggregate NoOutput [row_number]) /\
  (forall agg windows by_ order limit,
      lowerAggregate in_ NoOutput <>
        Ok (HashAggregate NoOutput agg windows by_ order limit)) /\
  hasOver sum_over = true /\
  lowerAggregate grouped NoOutput =
    Ok (HashAggregate NoOutput [sum_over] [] [Bind (Ident "k") "k"] [] 0).
Proof.
  simpl. repeat split; try reflexivity. intros; discriminate.
Qed.

(** C4, amended: with a nil GROUP BY the step lowers to [CountStar]
    when the list is exactly one unfiltered [COUNT( * )] and otherwise
    to [SimpleAggregate] carrying the whole list, whatever aggregates it
    holds; with a non-nil GROUP BY it lowers to [HashAggregate] whose
    list is split by the op of each aggregate alone: the aggregates
    whose op is none of [ROW_NUMBER], [RANK] and [DENSE_RANK], and the
    aggregates whose op is one of the three, each in list order (the
    OVER part of an aggregate is not looked at).  This holds for every
    Aggregate step and every operator below. *)
Theorem lowerAggregate_cases (in_ : pir.Aggregate) (from : Op) :
  let ranking (b : vm.AggBinding) :=
    List.existsb (Z.eqb (expr.Op (vm.Expr b))) [OpRowNumber; OpRank; OpDenseRank] in
  match pir.GroupBy in_ with
  | None =>
      if iscountstar (pir.Agg in_) then
        exists b, pir.Agg in_ = [b] /\
                  expr.Op (vm.Expr b) = OpCount /\
                  expr.Filter (vm.Expr b) = None /\
                  expr.Inner (vm.Expr b) = Some Star /\
                  lowerAggregate in_ from = Ok (CountStar from (vm.Result b))
      else lowerAggregate in_ from = Ok (SimpleAggregate from (pir.Agg in_))
  | Some by_ =>
      lowerAggregate in_ from =
        Ok (HashAggregate from
              (List.filter (fun b => negb (ranking b)) (pir.Agg in_))
              (List.filter ranking (pir.Agg in_))
              by_ [] 0)
  end.
Proof.
  intros ranking. unfold lowerAggregate.
  destruct (pir.GroupBy in_) as [by_ |].
  - rewrite splitWindows_filter. do 2 f_equal.
    + apply filter_ext. intros b. unfold ranking. by rewrite WindowOnly_spec.
    + apply filter_ext. intros b. unfold ranking. by rewrite WindowOnly_spec.
  - destruct (iscountstar (pir.Agg in_)) eqn:E; [| reflexivity].
    apply iscountstar_spec in E as (b & Ea & Eo & Ef & Ei).
    exists b. rewrite Ea. auto.
Qed.

End AggregateProps.

(** ** Predicate decomposition *)

Module ConjunctionProps.

Import expr plan.

Lemma conjunctions_app (e : Node) (lst : list Node) :
  conjunctions e lst = lst ++ conjunctions e [].
Proof.
  revert lst.
  induction e using Node_ind; intros lst; simpl; try reflexivity.
  destruct (Z.eqb _ OpAnd); [| reflexivity].
  rewrite IHe1, (IHe1 (conjunctions e2 [])), IHe2.
  by rewrite app_assoc.
Qed.

(** C7, as stated, fails: the conjunctions of [x AND y] are those of
    [y] followed by those of [x]. *)
Lemma conjunctions_order_reversed :
  let x := Ident "x" in
  let y := Ident "y" in
  conjunctions (And x y) [] = [y; x] /\
  conjunctions (And x y) [] <> conjunctions x [] ++ conjunctions y [].
Proof. simpl. split; [reflexivity | discriminate]. Qed.

(** C7, amended: for [and(x, y)] the decomposition appends to the
    accumulator the conjunctions of [y] followed by the conjunctions of
    [x]; for any other expression it appends that expression alone.
    This holds for every expression and every accumulator. *)
Theorem conjunctions_spec (e : Node) (lst : list Node) :
  conjunctions e lst =
    lst ++ match e with
           | Logical op x y =>
               if Z.eqb op OpAnd
               then conjunctions y [] ++ conjunctions x []
               else [e]
           | _ => [e]
           end.
Proof.
  destruct e; try reflexivity. simpl.
  destruct (Z.eqb _ OpAnd); [| reflexivity].
  rewrite conjunctions_app, (conjunctions_app e2 lst).
  by rewrite app_assoc.
Qed.

End ConjunctionProps.

(** ** Paths *)

Module PathProps.

Import expr.

Lemma MakePath_snoc (fields : list string) (field : string) (q : Node) :
  MakePath fields = Some q ->
  MakePath (fields ++ [field]) = Some (Dot q field).
Proof.
  destruct fields as [| first rest]; simpl; [discriminate |].
  intros [= <-]. by rewrite fold_left_app.
Qed.

Lemma FlatPath_MakePath (p : Node) (fields : list string) :
  FlatPath p = Some fields -> MakePath fields = Some p.
Proof.
  revert fields.
  induction p using Node_ind; intros fields; simpl; try discriminate.
  - intros [= <-]. reflexivity.
  - destruct (FlatPath p) as [inner |]; [| discriminate].
    intros [= <-]. apply MakePath_snoc. by apply IHp.
Qed.

Lemma FlatPath_dotpath (p : Node) :
  dotpath p = true <-> exists fields, FlatPath p = Some fields.
Proof.
  induction p using Node_ind; simpl;
    try (split; [discriminate | intros [? H]; discriminate H]).
  - split; eauto.
  - rewrite IHp. split.
    + intros [inner ->]. eauto.
    + destruct (FlatPath p); [eauto | intros [? H]; discriminate H].
Qed.

Lemma Equals_dotpath_refl (p : Node) :
  dotpath p = true -> Equals p p = Some true.
Proof.
  induction p using Node_ind; simpl; try discriminate.
  - intros _. by rewrite String.eqb_refl.
  - intros H. rewrite String.eqb_refl. simpl. by apply IHp.
Qed.

(** C8, as stated, fails: [a[0]] is a path expression, but [FlatPath]
    does not flatten it, and [MakePath] of the nil list it returns
    panics. *)
Lemma FlatPath_index_fails :
  let p := Index (Ident "a") 0 in
  IsPath p = true /\ FlatPath p = None /\ MakePath [] = None.
Proof. simpl. auto. Qed.

(** C8, amended: for every path expression [p] composed only of
    identifier and dot operations, [FlatPath] flattens [p], and
    [MakePath] of the components is a node to which [p] is equivalent
    under [Equals]. *)
Theorem MakePath_FlatPath (p : Node) :
  dotpath p = true ->
  exists fields q,
    FlatPath p = Some fields /\ MakePath fields = Some q /\
    Equals q p = Some true.
Proof.
  intros H.
  destruct (proj1 (FlatPath_dotpath p) H) as [fields Hf].
  exists fields, p. split; [exact Hf |].
  split; [by apply FlatPath_MakePath | by apply Equals_dotpath_refl].
Qed.

Lemma MakePath_FlatPath_witness :
  dotpath (Dot (Dot (Ident "a") "b") "c") = true /\
  exists fields q,
    FlatPath (Dot (Dot (Ident "a") "b") "c") = Some fields /\
    MakePath fields = Some q /\
    Equals q (Dot (Dot (Ident "a") "b") "c") = Some true.
Proof.
  split; [reflexivity |].
  exact (MakePath_FlatPath (Dot (Dot (Ident "a") "b") "c") eq_refl).
Defined.

End PathProps.

(** ** Indexing a literal list *)

Module IndexProps.

Import expr.

Lemma guarded_index (vs : list Node) (i : Z) :
  (if i <? Z.of_nat (length vs) then at_index vs i else Some Missing) =
    if i <? 0 then None
    else match vs !! Z.to_nat i with
         | Some v => Some v
         | None => Some Missing
         end.
Proof.
  unfold at_index.
  destruct (Z.ltb_spec i (Z.of_nat (length vs))) as [Hlt | Hge];
    destruct (Z.ltb_spec i 0) as [Hneg | Hpos]; try reflexivity; try lia.
  - destruct (vs !! Z.to_nat i) eqn:E; [reflexivity |].
    apply lookup_ge_None in E. lia.
  - rewrite (proj2 (lookup_ge_None vs (Z.to_nat i))); [reflexivity | lia].
Qed.

(** C9: what [Index.simplify] does on a literal list, for every list
    and every integer offset: a negative offset passes the bound
    [Offset < len] and the slice access panics; an offset in range gives
    the element; an offset at or past the length gives [MISSING].  The
    claim holds of the last two cases and fails on the first.  Negative
    offsets do occur: [ParsePath] builds one from a negative index. *)
Theorem simplify_Index_literal (vs : list Node) (text : string) (i : Z) :
  let expected :=
    if i <? 0 then None
    else match vs !! Z.to_nat i with
         | Some v => Some v
         | None => Some Missing
         end in
  simplify_Index (List vs) i = expected /\
  simplify_Index (Builtin MakeList text vs) i = expected /\
  simplify_Index (List [Integer 1; Integer 2]) (-1) = None /\
  ParsePath "a[-1]" = Ok (Index (Ident "a") (-1)).
Proof.
  simpl. repeat split; try apply guarded_index.
Qed.

End IndexProps.

(** ** Equivalence of numeric literals *)

Module NumericProps.

Import num expr examples.

Lemma Qred_inject_Z (i : Z) : Qred (inject_Z i) = inject_Z i.
Proof. apply Qcanon.Qred_identity. simpl. apply Z.gcd_1_r. Qed.

Lemma integral_spec (r : Q) (i : Z) :
  IsInt64 i = true ->
  (if IsInt r && IsInt64 (Num r) then Z.eqb (Num r) i else false)
  = Qeq_bool r (inject_Z i).
Proof.
  intros Hi. apply eq_true_iff_eq. rewrite Qeq_bool_iff.
  unfold IsInt, Num. split.
  - destruct (Pos.eqb_spec (Qden (Qred r)) 1) as [Hd | Hd]; simpl; [| discriminate].
    destruct (IsInt64 (Qnum (Qred r))); [| discriminate].
    intros Hn. apply Z.eqb_eq in Hn.
    rewrite <- (Qred_correct r).
    destruct (Qred r) as [n d]. simpl in *. subst. reflexivity.
  - intros H. apply Qred_complete in H. rewrite Qred_inject_Z in H.
    rewrite H. simpl. rewrite Hi. apply Z.eqb_refl.
Qed.

(** On integer and rational literals [Equals] is equality of the
    numbers denoted, hence symmetric and transitive there. *)
Lemma Equals_exact (a b : Node) :
  exact a = true -> exact b = true ->
  Equals a b = Some (Qeq_bool (value a) (value b)).
Proof.
  destruct a as [ | | | i | r | | | | | | | | | | | | | | | | |
                | | | | | | | | ];
    try discriminate;
    destruct b as [ | | | j | s | | | | | | | | | | | | | | | | |
                  | | | | | | | | ];
    try discriminate; simpl; intros Ha Hb; f_equal.
  - apply eq_true_iff_eq. rewrite Z.eqb_eq, Qeq_bool_iff.
    unfold Qeq. simpl. lia.
  - rewrite (integral_spec s i Ha). apply Qeq_bool_comm.
  - rewrite Z.eqb_sym. apply (integral_spec r j Hb).
  - apply Qeq_bool_comm.
Qed.

Lemma Equals_exact_sym (a b : Node) :
  exact a = true -> exact b = true -> Equals a b = Equals b a.
Proof.
  intros Ha Hb. rewrite !Equals_exact by assumption. f_equal. apply Qeq_bool_comm.
Qed.

Lemma Equals_exact_trans (a b c : Node) :
  exact a = true -> exact b = true -> exact c = true ->
  Equals a b = Some true -> Equals b c = Some true -> Equals a c = Some true.
Proof.
  intros Ha Hb Hc. rewrite !Equals_exact by assumption.
  intros [= H1] [= H2]. f_equal.
  apply Qeq_bool_iff in H1, H2. apply Qeq_bool_iff. by rewrite H1.
Qed.

(** C5: the three zeros are pairwise [Equals], in both directions.
    [Equals] is neither symmetric nor transitive on numeric literals:
    the float [2^53] equals the integer [2^53 + 1] (the integer is
    rounded to a float first), the integer [2^53 + 1] does not equal the
    float [2^53] (the float is truncated to an integer first), and the
    integer [2^53] equals the float [2^53], which equals the integer
    [2^53 + 1].  A rational within [1e-16] of a float equals it, and the
    float does not equal the rational. *)
Theorem Equals_numeric_literals :
  let i0 := Integer 0 in
  let f0 := Float (S754_zero false) in
  let r0 := Rational (0 # 1) in
  let f := Float (of_int64 two53) in
  let i := Integer two53 in
  let i' := Integer (two53 + 1) in
  let tiny := Rational (1 # 1152921504606846976) in
  (Equals i0 f0 = Some true /\ Equals f0 i0 = Some true /\
   Equals f0 r0 = Some true /\ Equals r0 f0 = Some true /\
   Equals i0 r0 = Some true /\ Equals r0 i0 = Some true) /\
  (Equals f i' = Some true /\ Equals i' f = Some false) /\
  (Equals i f = Some true /\ Equals f i' = Some true /\
   Equals i i' = Some false) /\
  (Equals tiny f0 = Some true /\ Equals f0 tiny = Some false).
Proof. vm_compute. repeat split. Qed.

End NumericProps.

(** ** Input deduplication *)

Module DedupProps.

Import expr plan dedup examples.

(** *** Swap-remove *)

Lemma swap_remove_snoc {A : Type} (s : list A) (z : A) (i : nat) :
  swap_remove (s ++ [z]) i = if (i <? length s)%nat then <[i := z]> s else s.
Proof.
  unfold swap_remove. rewrite last_snoc, length_app. simpl.
  replace (length s + 1 - 1)%nat with (length s) by lia.
  destruct (Nat.ltb_spec i (length s)) as [Hlt | Hge].
  - rewrite insert_app_l by exact Hlt.
    rewrite take_app_length'; [reflexivity | by rewrite length_insert].
  - destruct (decide (i = length s)) as [-> | Hne].
    + rewrite insert_app_r_alt by lia. rewrite Nat.sub_diag. simpl.
      by rewrite take_app_length.
    + rewrite list_insert_ge by (rewrite length_app; simpl; lia).
      by rewrite take_app_length.
Qed.

Lemma swap_remove_perm {A : Type} (s : list A) (i : nat) (v : A) :
  s !! i = Some v -> s ≡ₚ v :: swap_remove s i.
Proof.
  intros Hi.
  destruct (decide (s = [])) as [-> | Hne]; [discriminate |].
  destruct (exists_last Hne) as (s' & z & ->).
  rewrite swap_remove_snoc.
  destruct (Nat.ltb_spec i (length s')) as [Hlt | Hge].
  - rewrite lookup_app_l in Hi by exact Hlt.
    rewrite <- (take_drop_middle s' i v Hi) at 1.
    rewrite insert_take_drop by exact Hlt.
    rewrite <- app_assoc. simpl.
    etransitivity; [symmetry; apply Permutation_middle |].
    apply perm_skip, Permutation_app_head.
    by rewrite Permutation_app_comm.
  - apply lookup_lt_Some in Hi as Hlen. rewrite length_app in Hlen. simpl in Hlen.
    assert (i = length s') as -> by lia.
    rewrite list_lookup_middle in Hi by reflexivity. injection Hi as ->.
    by rewrite Permutation_app_comm.
Qed.

Lemma swap_remove_length {A : Type} (s : list A) (i : nat) :
  (i < length s)%nat -> length (swap_remove s i) = (length s - 1)%nat.
Proof.
  intros Hi. destruct (lookup_lt_is_Some_2 s i Hi) as [v Hv].
  apply swap_remove_perm in Hv. apply Permutation_length in Hv.
  simpl in Hv. lia.
Qed.

Lemma swap_remove_take {A : Type} (s : list A) (i : nat) :
  (i < length s)%nat -> take i (swap_remove s i) = take i s.
Proof.
  destruct (decide (s = [])) as [-> | Hne]; [reflexivity |].
  destruct (exists_last Hne) as (s' & z & ->).
  rewrite length_app. simpl. intros Hi.
  rewrite swap_remove_snoc.
  destruct (Nat.ltb_spec i (length s')) as [Hlt | Hge].
  - rewrite take_insert_ge by lia. rewrite take_app_le by lia. reflexivity.
  - assert (i = length s') as -> by lia.
    by rewrite take_app_length, firstn_all.
Qed.


(** *** The inner loop *)

Lemma find_equivalent_found (v : Node) (ys : list Node) (j0 j : nat) :
  find_equivalent v ys j0 = Some (Some j) ->
  exists w, ys !! (j - j0)%nat = Some w /\ partner v w /\ (j0 <= j)%nat.
Proof.
  revert j0. induction ys as [| w ys IH]; intros j0; simpl; [discriminate |].
  destruct (Equivalent w v) as [[] |] eqn:E; [| | discriminate].
  - intros [= <-]. exists w. rewrite Nat.sub_diag. auto.
  - intros H. destruct (IH _ H) as (w' & Hw' & Hp & Hle).
    exists w'. replace (j - j0)%nat with (S (j - S j0)) by lia. auto with lia.
Qed.

Lemma find_equivalent_none (v : Node) (ys : list Node) (j0 : nat) :
  find_equivalent v ys j0 = Some None ->
  forall w, w ∈ ys -> Equivalent w v = Some false.
Proof.
  revert j0. induction ys as [| w ys IH]; intros j0; simpl.
  - intros _ w Hw. by apply not_elem_of_nil in Hw.
  - destruct (Equivalent w v) as [[] |] eqn:E; try discriminate.
    intros H w' Hw'. apply elem_of_cons in Hw' as [-> | Hw']; eauto.
Qed.

Lemma find_equivalent_total (v : Node) (ys : list Node) (j0 : nat) :
  (forall w, w ∈ ys -> Equivalent w v <> None) ->
  find_equivalent v ys j0 <> None.
Proof.
  revert j0. induction ys as [| w ys IH]; intros j0 H; simpl; [discriminate |].
  destruct (Equivalent w v) as [[] |] eqn:E.
  - discriminate.
  - apply IH. intros w' Hw'. apply H. by apply list_elem_of_further.
  - exfalso. apply (H w); [apply list_elem_of_here | exact E].
Qed.

(** *** The pairing *)

Lemma pairing_prefix (fuel : nat) (xc yc ov : list Node) (i : nat)
      (xr yr ov' : list Node) :
  pairing fuel xc yc ov i = Returns (xr, yr, ov') ->
  take i xr = take i xc.
Proof.
  revert xc yc ov i.
  induction fuel as [| fuel IH]; intros xc yc ov i; simpl; [discriminate |].
  destruct (Nat.ltb_spec i (length xc)) as [Hi | Hi]; simpl;
    [destruct (Nat.ltb_spec 0 (length yc)) as [Hy | Hy] |].
  - destruct (xc !! i) as [v |] eqn:Ev; [| discriminate].
    destruct (find_equivalent v yc 0) as [[j |] |] eqn:Ef; [| | discriminate].
    + intros H. apply IH in H. rewrite H. by apply swap_remove_take.
    + intros H. apply IH in H.
      apply (f_equal (take i)) in H. rewrite !take_take in H.
      by rewrite !Nat.min_l in H by lia.
  - by intros [= <- <- <-].
  - by intros [= <- <- <-].
Qed.

Lemma pairing_invariant (fuel : nat) (xc yc ov : list Node) (i : nat)
      (xr yr ov' : list Node) :
  pairing fuel xc yc ov i = Returns (xr, yr, ov') ->
  (forall v w, v ∈ take i xc -> w ∈ yc -> Equivalent w v = Some false) ->
  exists paired ypaired,
    ov' = ov ++ paired /\
    xc ≡ₚ paired ++ xr /\
    yc ≡ₚ ypaired ++ yr /\
    Forall2 partner paired ypaired /\
    (forall v w, v ∈ xr -> w ∈ yr -> Equivalent w v = Some false).
Proof.
  revert xc yc ov i.
  induction fuel as [| fuel IH]; intros xc yc ov i; simpl; [discriminate |].
  destruct (Nat.ltb_spec i (length xc)) as [Hi | Hi]; simpl;
    [destruct (Nat.ltb_spec 0 (length yc)) as [Hy | Hy] |].
  - destruct (xc !! i) as [v |] eqn:Ev; [| discriminate].
    destruct (find_equivalent v yc 0) as [[j |] |] eqn:Ef; [| | discriminate].
    + intros H Hpre.
      destruct (find_equivalent_found _ _ _ _ Ef) as (w & Hw & Hp & _).
      rewrite Nat.sub_0_r in Hw.
      pose proof (swap_remove_perm _ _ _ Ev) as Px.
      pose proof (swap_remove_perm _ _ _ Hw) as Py.
      destruct (IH _ _ _ _ H) as (paired & ypaired & -> & Qx & Qy & F & M).
      { intros v' w' Hv' Hw'. rewrite swap_remove_take in Hv' by exact Hi.
        apply Hpre; [exact Hv' |]. rewrite Py. by apply list_elem_of_further. }
      exists (v :: paired), (w :: ypaired). repeat split.
      * by rewrite <- app_assoc.
      * rewrite Px. simpl. by rewrite Qx.
      * rewrite Py. simpl. by rewrite Qy.
      * by constructor.
      * exact M.
    + intros H Hpre.
      destruct (IH _ _ _ _ H) as (paired & ypaired & -> & Qx & Qy & F & M).
      { intros v' w' Hv' Hw'.
        rewrite (take_S_r _ _ _ Ev) in Hv'.
        apply elem_of_app in Hv' as [Hv' | Hv']; [by apply Hpre |].
        apply list_elem_of_singleton in Hv' as ->.
        by apply (find_equivalent_none _ _ _ Ef). }
      exists paired, ypaired. auto.
  - intros [= <- <- <-] _. exists [], []. rewrite app_nil_r. repeat split; auto.
    intros v w _ Hw. destruct yc; [by apply not_elem_of_nil in Hw | simpl in Hy; lia].
  - intros [= <- <- <-] Hpre. exists [], []. rewrite app_nil_r. repeat split; auto.
    intros v w Hv Hw. apply Hpre; [| exact Hw]. by rewrite take_ge by lia.
Qed.

Lemma pairing_total (fuel : nat) (xc yc ov : list Node) (i : nat) :
  (forall v w, v ∈ xc -> w ∈ yc -> Equivalent w v <> None) ->
  (length xc - i < fuel)%nat ->
  exists r, pairing fuel xc yc ov i = Returns r.
Proof.
  revert xc yc ov i.
  induction fuel as [| fuel IH]; intros xc yc ov i Hnp Hfuel; simpl; [lia |].
  destruct (Nat.ltb_spec i (length xc)) as [Hi | Hi]; simpl;
    [destruct (Nat.ltb_spec 0 (length yc)) as [Hy | Hy] |]; eauto.
  destruct (lookup_lt_is_Some_2 xc i Hi) as [v Ev]. rewrite Ev.
  assert (v ∈ xc) as Hv by (apply list_elem_of_lookup; eauto).
  destruct (find_equivalent v yc 0) as [[j |] |] eqn:Ef.
  - destruct (find_equivalent_found _ _ _ _ Ef) as (w & Hw & _ & _).
    rewrite Nat.sub_0_r in Hw.
    apply IH.
    + intros v' w' Hv' Hw'. apply Hnp.
      * rewrite (swap_remove_perm _ _ _ Ev). by apply list_elem_of_further.
      * rewrite (swap_remove_perm _ _ _ Hw). by apply list_elem_of_further.
    + rewrite swap_remove_length by exact Hi. lia.
  - apply IH; [exact Hnp | lia].
  - exfalso. revert Ef. apply find_equivalent_total. intros w Hw. by apply Hnp.
Qed.


Lemma forallb_drop_cons (xr : list Node) (i : nat) (v : Node) :
  xr !! i = Some v ->
  forallb canRemoveHint (drop i xr) =
    canRemoveHint v && forallb canRemoveHint (drop (S i) xr).
Proof. intros H. by rewrite (drop_S _ _ _ H). Qed.

(** The loop of the code against the pairing: the loop leaves by
    [return false] only if a conjunct left over by the pairing may not
    be removed, and otherwise ends in the state of the pairing, with the
    conjuncts between the two indexes checked. *)
Lemma outer_pairing (fuel : nat) (xc yc ov : list Node) (i : nat)
      (xr yr ov' : list Node) :
  pairing fuel xc yc ov i = Returns (xr, yr, ov') ->
  match outer fuel xc yc ov i with
  | Returns ReturnFalse => forallb canRemoveHint (drop i xr) = false
  | Returns (Done xc' yc' ov'' i') =>
      xc' = xr /\ yc' = yr /\ ov'' = ov' /\ (i <= i')%nat /\
      forallb canRemoveHint (drop i (take i' xr)) = true
  | _ => False
  end.
Proof.
  revert xc yc ov i.
  induction fuel as [| fuel IH]; intros xc yc ov i; simpl; [discriminate |].
  destruct (Nat.ltb_spec i (length xc)) as [Hi | Hi]; simpl;
    [destruct (Nat.ltb_spec 0 (length yc)) as [Hy | Hy] |].
  - destruct (xc !! i) as [v |] eqn:Ev; [| discriminate].
    destruct (find_equivalent v yc 0) as [[j |] |] eqn:Ef; [| | discriminate].
    + apply IH.
    + intros H.
      pose proof (pairing_prefix _ _ _ _ _ _ _ _ H) as Hpre.
      assert (xr !! i = Some v) as Hv.
      { rewrite <- (lookup_take_lt xr (S i) i) by lia. rewrite Hpre.
        rewrite lookup_take_lt by lia. exact Ev. }
      destruct (canRemoveHint v) eqn:Ec; simpl.
      * specialize (IH _ _ _ _ H).
        destruct (outer fuel xc yc ov (S i)) as [[| xc' yc' ov'' i'] | |];
          try contradiction.
        -- rewrite (forallb_drop_cons _ _ _ Hv), IH. apply andb_false_r.
        -- destruct IH as (-> & -> & -> & Hle & Hall).
           repeat split; try lia.
           assert (take i' xr !! i = Some v) as Hv'
               by (rewrite lookup_take_lt by lia; exact Hv).
           by rewrite (forallb_drop_cons _ _ _ Hv'), Ec, Hall.
      * by rewrite (forallb_drop_cons _ _ _ Hv), Ec.
  - intros [= <- <- <-]. repeat split; try lia.
    by rewrite drop_ge by (rewrite length_take; lia).
  - intros [= <- <- <-]. repeat split; try lia.
    by rewrite drop_ge by (rewrite length_take; lia).
Qed.

(** *** The test of the code and the criterion *)

Lemma isTimestamp_mentions (e : Node) :
  isTimestamp e = true -> mentions_timestamp e = true.
Proof. by destruct e. Qed.

(** On an expression in which timestamp literals are operands of
    comparisons, outside any NOT, [canRemoveHint] is the criterion of
    the specification. *)
Lemma canRemoveHint_removable (e : Node) :
  direct e = true -> canRemoveHint e = removable e.
Proof.
  unfold removable.
  induction e using NodeProps.Node_children_ind.
  destruct e; try reflexivity; simpl in *.
  - (* Comparison *)
    intros Hd. apply orb_prop in Hd as [Hd | Hd].
    + rewrite Hd. apply orb_prop in Hd as [Hd | Hd];
        apply isTimestamp_mentions in Hd; rewrite Hd; by rewrite ?orb_true_r.
    + apply negb_true_iff in Hd. rewrite Hd.
      apply orb_false_elim in Hd as [Hl Hr].
      destruct (isTimestamp e1) eqn:E1;
        [apply isTimestamp_mentions in E1; congruence |].
      destruct (isTimestamp e2) eqn:E2;
        [apply isTimestamp_mentions in E2; congruence |].
      reflexivity.
  - (* Logical *)
    intros Hd. apply andb_prop in Hd as [Hl Hr].
    apply NodeProps.Forall_cons_inv in H as [IHl H].
    apply NodeProps.Forall_cons_inv in H as [IHr _].
    rewrite (IHl Hl), (IHr Hr). by rewrite negb_orb.
  - (* Not *)
    intros Hd. by rewrite Hd.
Qed.

Lemma removable_left_over (conj paired rest : list Node) :
  conj ≡ₚ paired ++ rest ->
  forallb direct conj = true ->
  forallb canRemoveHint rest = forallb removable rest.
Proof.
  intros Hp Hd.
  assert (Hr : Forall (fun e => direct e = true) rest).
  { apply Forall_forall. intros e He.
    rewrite forallb_forall in Hd. apply Hd.
    apply list_elem_of_In. rewrite Hp. apply elem_of_app. by right. }
  clear Hp Hd. induction Hr as [| e rest He _ IH]; simpl; [reflexivity |].
  by rewrite (canRemoveHint_removable e He), IH.
Qed.

Section Merge.

Variable TableHandle : Type.

(** [mergeFilterHint] is the account of the specification: pair off,
    then check every conjunct left over on either side. *)
Lemma mergeFilterHint_pairing (x y : input TableHandle) (xr yr ov : list Node) :
  pairing (S (length (conjuncts (Filter (hints _ x)))))
          (conjuncts (Filter (hints _ x))) (conjuncts (Filter (hints _ y))) [] 0
    = Returns (xr, yr, ov) ->
  mergeFilterHint _ x y =
    if forallb canRemoveHint xr && forallb canRemoveHint yr
    then Returns (true, set_filter _ x (conjoin ov))
    else Returns (false, x).
Proof.
  intros H. apply outer_pairing in H. unfold mergeFilterHint.
  fold (conjuncts (Filter (hints _ x))). fold (conjuncts (Filter (hints _ y))).
  destruct (outer _ _ _ _ _) as [[| xc' yc' ov'' i'] | |]; try contradiction.
  - rewrite drop_0 in H. by rewrite H.
  - destruct H as (-> & -> & -> & _ & Hall). rewrite drop_0 in Hall.
    rewrite <- (take_drop i' xr) at 2. rewrite forallb_app, Hall. simpl.
    destruct (forallb canRemoveHint (drop i' xr)); simpl; [| reflexivity].
    destruct (forallb canRemoveHint yr); reflexivity.
Qed.

Lemma put_from_refused (done_ rest : list (input TableHandle))
      (in_ : input TableHandle) :
  Forall (fun slot => merge _ slot in_ = Returns (false, slot)) rest ->
  put_from _ done_ rest in_ =
    Returns ((done_ ++ rest) ++ [in_], Z.of_nat (length (done_ ++ rest))).
Proof.
  intros H. revert done_.
  induction H as [| slot rest Hs _ IH]; intros done_; simpl.
  - by rewrite app_nil_r.
  - rewrite Hs, IH. by rewrite <- !app_assoc.
Qed.

(** An input that no slot merges with is appended as a new slot. *)
Lemma put_appends (w : walker TableHandle) (it : pir.IterTable) :
  Forall (fun slot => merge _ slot (trial _ it) = Returns (false, slot))
         (inputs _ w) ->
  put _ w it =
    Returns (mkWalker _ (inputs _ w ++ [trial _ it])
                      (Z.of_nat (length (inputs _ w)))).
Proof.
  intros H. unfold put. by rewrite (put_from_refused [] _ _ H).
Qed.

Lemma put_single (x : input TableHandle) (it : pir.IterTable) (l : Z) :
  put _ (mkWalker _ [x] l) it =
    match merge _ x (trial _ it) with
    | Returns (true, x') => Returns (mkWalker _ [x'] 0)
    | Returns (false, x') => Returns (mkWalker _ [x'; trial _ it] 1)
    | Panics => Panics
    | OutOfFuel => OutOfFuel
    end.
Proof.
  unfold put. simpl.
  destruct (merge _ x (trial _ it)) as [[[] x'] | |]; reflexivity.
Qed.

(** The merge, with the test of the code on the conjuncts left over. *)
Lemma merge_pairing (x : input TableHandle) (it : pir.IterTable) (l : Z) :
  let y := trial TableHandle it in
  let xconj := conjuncts (Filter (hints _ x)) in
  let yconj := conjuncts (Filter (hints _ y)) in
  Equals (table _ x) (table _ y) <> None ->
  (forall v w, v ∈ xconj -> w ∈ yconj -> Equivalent w v <> None) ->
  exists overlap ypaired xrest yrest,
    xconj ≡ₚ overlap ++ xrest /\
    yconj ≡ₚ ypaired ++ yrest /\
    Forall2 partner overlap ypaired /\
    (forall v w, v ∈ xrest -> w ∈ yrest -> Equivalent w v = Some false) /\
    if same_table _ x y && forallb canRemoveHint xrest && forallb canRemoveHint yrest
    then
      exists x',
        merge _ x y = Returns (true, x') /\
        table _ x' = table _ x /\
        Filter (hints _ x') = conjoin overlap /\
        put _ (mkWalker _ [x] l) it = Returns (mkWalker _ [x'] 0)
    else
      merge _ x y = Returns (false, x) /\
      put _ (mkWalker _ [x] l) it = Returns (mkWalker _ [x; y] 1).
Proof.
  intros y xconj yconj Htab Hnp.
  destruct (pairing_total (S (length xconj)) xconj yconj [] 0 Hnp ltac:(lia))
    as [[[xr yr] ov] Hp].
  destruct (pairing_invariant _ _ _ _ _ _ _ _ Hp) as (paired & ypaired & E & Qx & Qy & F & M).
  { intros v w Hv. by apply not_elem_of_nil in Hv. }
  simpl in E. subst paired.
  exists ov, ypaired, xr, yr. repeat (split; [assumption |]).
  pose proof (mergeFilterHint_pairing x y xr yr ov Hp) as Hm.
  rewrite (put_single x it l). fold y.
  unfold same_table, merge. rewrite Hm.
  destruct (Equals (table _ x) (table _ y)) as [[] |];
    [| simpl; auto | contradiction].
  rewrite andb_true_l.
  destruct (forallb canRemoveHint xr && forallb canRemoveHint yr); [| auto].
  unfold set_filter; cbn [hints AllFields table Filter].
  destruct (AllFields (hints _ x)); [| destruct (AllFields (hints _ y))];
    eexists; repeat split.
Qed.

(** C1, amended: the conjuncts of the two filter hints are paired off
    one to one, each conjunct of the first with an equivalent conjunct
    of the second, until no conjunct left over on one side is equivalent
    to one left over on the other.  The inputs are merged if and only if
    the table expressions are [Equals] and every conjunct left over on
    either side is safely removable: not a comparison, or logical
    composition of comparisons, involving a timestamp literal.  On
    success the merged filter hint is the conjunction of the paired
    conjuncts of the first input (absent when there are none) and the
    slot is updated in place; otherwise both inputs are kept, as
    separate slots.  This is stated for filters on which [Equals] does
    not panic and in whose conjuncts a timestamp literal that a
    comparison involves is the left or right operand of that comparison,
    no such comparison being under a NOT. *)
Theorem merge_pairs_conjuncts (x : input TableHandle) (it : pir.IterTable) (l : Z) :
  let y := trial TableHandle it in
  let xconj := conjuncts (Filter (hints _ x)) in
  let yconj := conjuncts (Filter (hints _ y)) in
  Equals (table _ x) (table _ y) <> None ->
  (forall v w, v ∈ xconj -> w ∈ yconj -> Equivalent w v <> None) ->
  forallb direct (xconj ++ yconj) = true ->
  exists overlap ypaired xrest yrest,
    xconj ≡ₚ overlap ++ xrest /\
    yconj ≡ₚ ypaired ++ yrest /\
    Forall2 partner overlap ypaired /\
    (forall v w, v ∈ xrest -> w ∈ yrest -> Equivalent w v = Some false) /\
    if same_table _ x y && forallb removable xrest && forallb removable yrest
    then
      exists x',
        merge _ x y = Returns (true, x') /\
        table _ x' = table _ x /\
        Filter (hints _ x') = conjoin overlap /\
        put _ (mkWalker _ [x] l) it = Returns (mkWalker _ [x'] 0)
    else
      merge _ x y = Returns (false, x) /\
      put _ (mkWalker _ [x] l) it = Returns (mkWalker _ [x; y] 1).
Proof.
  intros y xconj yconj Htab Hnp Hd.
  destruct (merge_pairing x it l Htab Hnp)
    as (ov & yp & xr & yr & Qx & Qy & F & M & H).
  fold y xconj yconj in Qx, Qy.
  exists ov, yp, xr, yr. repeat (split; [assumption |]).
  rewrite forallb_app in Hd. apply andb_prop in Hd as [Hdx Hdy].
  rewrite <- (removable_left_over xconj ov xr Qx Hdx).
  rewrite <- (removable_left_over yconj yp yr Qy Hdy).
  exact H.
Qed.

End Merge.

(** C1, as stated, fails: tables equal, every conjunct of either filter
    has an equivalent conjunct in the other filter, and yet the two
    inputs are not merged, because the timestamp comparison occurs twice
    on one side and once on the other. *)
Lemma merge_duplicate_conjunct :
  let x := example_x in
  let y := trial unit example_it in
  Equals (table _ x) (table _ y) = Some true /\
  (forall v, v ∈ conjuncts (Filter (hints _ x)) ->
        exists w, w ∈ conjuncts (Filter (hints _ y)) /\ partner v w) /\
  (forall w, w ∈ conjuncts (Filter (hints _ y)) ->
        exists v, v ∈ conjuncts (Filter (hints _ x)) /\ partner v w) /\
  merge _ x y = Returns (false, x) /\
  put _ (mkWalker _ [x] 0) example_it = Returns (mkWalker _ [x; y] 1).
Proof.
  simpl. repeat split.
  - intros v Hv. exists ts_lt. split; [apply list_elem_of_here |].
    apply elem_of_cons in Hv as [-> | Hv]; [reflexivity |].
    apply list_elem_of_singleton in Hv as ->. reflexivity.
  - intros w Hw. exists ts_lt. split; [apply list_elem_of_here |].
    apply list_elem_of_singleton in Hw as ->. reflexivity.
Qed.

(** Outside the filters of the theorem the test of the code and the
    criterion part: [canRemoveHint] looks at the two operands of a
    comparison and through AND, OR and the like, and nowhere else, so
    the negation of a timestamp comparison counts as removable.  A slot
    whose only hint is [NOT (t < ts)] merges with a leaf of the same
    table that has no filter, and the hint is dropped, where the comment
    on [canRemoveHint] has it that expressions containing timestamp
    comparisons are not removed. *)
Lemma merge_drops_negated_timestamp :
  timestamp_comparison (Not ts_lt) = true /\
  canRemoveHint (Not ts_lt) = true /\
  exists x',
    merge _ negated (trial unit unfiltered) = Returns (true, x') /\
    Filter (hints _ x') = None.
Proof. repeat split. eexists. split; reflexivity. Qed.

Lemma merge_pairs_conjuncts_witness :
  Equals (table _ example_x) (table _ (trial unit example_it)) <> None /\
  (forall v w, v ∈ conjuncts (Filter (hints _ example_x)) ->
               w ∈ conjuncts (Filter (hints _ (trial unit example_it))) ->
               Equivalent w v <> None) /\
  forallb direct (conjuncts (Filter (hints _ example_x))
                  ++ conjuncts (Filter (hints _ (trial unit example_it)))) = true /\
  exists overlap ypaired xrest yrest,
    conjuncts (Filter (hints _ example_x)) ≡ₚ overlap ++ xrest /\
    conjuncts (Filter (hints _ (trial unit example_it))) ≡ₚ ypaired ++ yrest /\
    Forall2 partner overlap ypaired /\
    (forall v w, v ∈ xrest -> w ∈ yrest -> Equivalent w v = Some false) /\
    if same_table unit example_x (trial unit example_it)
       && forallb removable xrest && forallb removable yrest
    then
      exists x',
        merge _ example_x (trial unit example_it) = Returns (true, x') /\
        table _ x' = table _ example_x /\
        Filter (hints _ x') = conjoin overlap /\
        put _ (mkWalker _ [example_x] 0) example_it
          = Returns (mkWalker _ [x'] 0)
    else
      merge _ example_x (trial unit example_it) = Returns (false, example_x) /\
      put _ (mkWalker _ [example_x] 0) example_it
        = Returns (mkWalker _ [example_x; trial unit example_it] 1).
Proof.
  assert (H1 : Equals (table _ example_x) (table _ (trial unit example_it)) <> None)
    by discriminate.
  assert (H2 : forall v w, v ∈ conjuncts (Filter (hints _ example_x)) ->
               w ∈ conjuncts (Filter (hints _ (trial unit example_it))) ->
               Equivalent w v <> None).
  { intros v w Hv Hw. simpl in Hv, Hw.
    apply list_elem_of_singleton in Hw as ->.
    apply elem_of_cons in Hv as [-> | Hv]; [discriminate |].
    apply list_elem_of_singleton in Hv as ->. discriminate. }
  split; [exact H1 |]. split; [exact H2 |]. split; [reflexivity |].
  exact (merge_pairs_conjuncts unit example_x example_it 0 H1 H2 eq_refl).
Defined.

End DedupProps.
(** ** The fixed-point optimizer *)

Module OptimizerProps.

Import pir examples.

Section Optimizer.

Variable Payload : Type.

Local Abbreviation heap := (gmap nat (node Payload)).
Local Abbreviation rule := (rule Payload).

(** *** Registration *)

Lemma add_lookup (fpo : gmap string (list rule)) (r : rule) (name : string) :
  default [] (add _ fpo r !! name) =
    default [] (fpo !! name) ++ (if String.eqb (In0 _ r) name then [r] else []).
Proof.
  unfold add.
  destruct (String.eqb_spec (In0 _ r) name) as [<- | Hne].
  - by rewrite lookup_insert_eq.
  - rewrite lookup_insert_ne by exact Hne. by rewrite app_nil_r.
Qed.

Lemma fold_add_lookup (rules : list rule) (fpo : gmap string (list rule))
      (name : string) :
  default [] (fold_left (add _) rules fpo !! name) =
    default [] (fpo !! name) ++ registered _ rules name.
Proof.
  revert fpo. induction rules as [| r rules IH]; intros fpo; simpl.
  - by rewrite app_nil_r.
  - rewrite IH, add_lookup, <- app_assoc. f_equal.
    unfold registered. simpl. by destruct (String.eqb (In0 _ r) name).
Qed.

(** The rules that the optimizer finds for a type are the rules
    registered for it, in registration order. *)
Lemma newFixedPointOptimizer_lookup (rules : list rule) (name : string) :
  default [] (newFixedPointOptimizer _ rules !! name) = registered _ rules name.
Proof.
  unfold newFixedPointOptimizer. rewrite fold_add_lookup.
  by rewrite lookup_empty.
Qed.

Lemma registered_elem (rules : list rule) (name : string) (r : rule) :
  r ∈ registered _ rules name -> r ∈ rules.
Proof.
  unfold registered. rewrite list_elem_of_In, filter_In, <- list_elem_of_In.
  by intros [H _].
Qed.

(** *** apply *)

(** What [apply] returns is what trying the rules in order gives. *)
Lemma apply_rules_tries (rs : list rule) (s : ptr) (h h1 : heap)
      (n : Step) (status : fpoStatus) :
  apply_rules _ rs s h = Returns (n, status, h1) -> tries _ s rs h n status h1.
Proof.
  revert h. induction rs as [| r rs IH]; intros h; simpl.
  - intros [= <- <- <-]. constructor.
  - destruct (Call _ r s h) as [[n0 st0] h0] eqn:Ec.
    destruct (N.eqb_spec st0 fpoIntact) as [-> | Hne]; simpl.
    + intros H. eapply tries_next; eauto.
    + destruct n0 as [p |]; [| discriminate].
      intros [= <- <- <-]. eapply tries_wins; eauto.
Qed.

(** Trying the rules in order is what [apply] returns, unless the rule
    that wins returned a nil step. *)
Lemma tries_apply_rules (rs : list rule) (s : ptr) (h h1 : heap)
      (n : Step) (status : fpoStatus) :
  tries _ s rs h n status h1 ->
  status = fpoIntact \/ n <> None ->
  apply_rules _ rs s h = Returns (n, status, h1).
Proof.
  induction 1 as [h | r rest h h1 h2 n n' st Hc _ IH | r rest h h1 n st Hc Hne];
    intros Hn; simpl.
  - reflexivity.
  - rewrite Hc. simpl. by apply IH.
  - rewrite Hc. destruct (N.eqb_spec st fpoIntact) as [-> | _]; [contradiction |].
    simpl. destruct n as [p |]; [reflexivity |].
    destruct Hn as [-> | Hn]; contradiction.
Qed.

(** With rules that keep to the three statuses and supply a step
    whenever they report a change, so does the rule that wins. *)
Lemma tries_supplied (rules rs : list rule) (s : ptr) (h h1 : heap)
      (n : Step) (status : fpoStatus) :
  supplied _ rules ->
  (forall r, r ∈ rs -> r ∈ rules) ->
  tries _ s rs h n status h1 ->
  status = fpoIntact \/
  ((status = fpoUpdate \/ status = fpoReplace) /\ n <> None).
Proof.
  intros Hs Hin Ht.
  induction Ht as [h | r rest h h1 h2 n n' st Hc _ IH | r rest h h1 n st Hc Hne].
  - by left.
  - apply IH. intros r' Hr'. apply Hin. by apply list_elem_of_further.
  - specialize (Hs r s h (Hin r (list_elem_of_here _ _))).
    rewrite Hc in Hs. exact Hs.
Qed.

Lemma apply_tries (rules : list rule) (s : ptr) (h h1 : heap)
      (n : Step) (status : fpoStatus) :
  apply _ (newFixedPointOptimizer _ rules) s h = Returns (n, status, h1) ->
  tries _ s (registered _ rules (dyntype s)) h n status h1.
Proof.
  unfold apply. rewrite newFixedPointOptimizer_lookup. apply apply_rules_tries.
Qed.

Lemma tries_apply (rules : list rule) (s : ptr) (h h1 : heap)
      (n : Step) (status : fpoStatus) :
  supplied _ rules ->
  tries _ s (registered _ rules (dyntype s)) h n status h1 ->
  apply _ (newFixedPointOptimizer _ rules) s h = Returns (n, status, h1).
Proof.
  intros Hs Ht. unfold apply. rewrite newFixedPointOptimizer_lookup.
  apply tries_apply_rules; [exact Ht |].
  destruct (tries_supplied rules _ _ _ _ _ _ Hs (fun r => registered_elem _ _ r) Ht)
    as [-> | [_ Hn]]; auto.
Qed.

(** *** One pass *)

Lemma walk_pass (fuel : nat) (rules : list rule) (h : heap) (t prev s : Step)
      (c : bool) (h' : heap) (t' : Step) (c' : bool) :
  supplied _ rules ->
  (prev = None -> s = t) ->
  walk _ fuel (newFixedPointOptimizer _ rules) h t prev s c = Returns (h', t', c') ->
  pass _ rules (mkPosition _ h t prev s c) h' t' c'.
Proof.
  intros Hs. revert h t prev s c.
  induction fuel as [| fuel IH]; intros h t prev s c Htop; simpl; [discriminate |].
  destruct s as [p |]; [| intros [= <- <- <-]; constructor].
  destruct (apply _ _ p h) as [[[n status] h1] | |] eqn:Ea; try discriminate.
  apply apply_tries in Ea.
  destruct (tries_supplied rules _ _ _ _ _ _ Hs (fun r => registered_elem _ _ r) Ea)
    as [-> | [[-> | ->] _]]; simpl.
  - unfold parent. destruct (h1 !! address p) as [nd |] eqn:En; [| discriminate].
    intros H. eapply pass_visit; [| apply IH, H; discriminate].
    eapply visit_intact; eauto.
  - intros H. eapply pass_visit; [| apply IH, H; exact Htop].
    eapply visit_updated; eauto.
  - destruct prev as [q |].
    + unfold setparent. destruct (h1 !! address q) as [nd |] eqn:En; [| discriminate].
      intros H. eapply pass_visit; [| apply IH, H; discriminate].
      eapply visit_replaced_below; eauto.
    + intros H. rewrite <- (Htop eq_refl).
      eapply pass_visit; [| apply IH, H; reflexivity].
      eapply visit_replaced_top; eauto.
Qed.

Lemma pass_walk (rules : list rule) (p : position Payload) (h' : heap)
      (t' : Step) (c' : bool) :
  supplied _ rules ->
  pass _ rules p h' t' c' ->
  exists fuel, forall fuel', (fuel <= fuel')%nat ->
    walk _ fuel' (newFixedPointOptimizer _ rules)
         (steps _ p) (top _ p) (preceding _ p) (current _ p) (changed _ p)
      = Returns (h', t', c').
Proof.
  intros Hs.
  induction 1 as [h t prev c | p p' h t c Hv _ [fuel IH]].
  - exists 1%nat. intros [| fuel'] Hle; [lia | reflexivity].
  - exists (S fuel). intros [| fuel'] Hle; [lia |].
    specialize (IH fuel' ltac:(lia)).
    destruct Hv as [h0 h1 t0 prev n s c0 nd Ht En
                   | h0 h1 t0 prev n s c0 Ht
                   | h0 h1 n s c0 Ht
                   | h0 h1 t0 n q s c0 nd Ht En];
      simpl in *; apply (tries_apply _ _ _ _ _ _ Hs) in Ht; rewrite Ht; simpl.
    + unfold parent. rewrite En. exact IH.
    + exact IH.
    + exact IH.
    + unfold setparent. rewrite En. exact IH.
Qed.

(** *** The outer loop *)

Lemma optimize_run (fuel : nat) (rules : list rule) (h : heap) (t : Step)
      (h' : heap) (t' : Step) :
  supplied _ rules ->
  optimize _ fuel (newFixedPointOptimizer _ rules) h t = Returns (h', t') ->
  run _ rules h t h' t'.
Proof.
  intros Hs.
  revert h t. induction fuel as [| fuel IH]; intros h t; simpl; [discriminate |].
  destruct (walk _ fuel _ h t None t false) as [[[h1 t1] []] | |] eqn:Ew;
    try discriminate.
  - intros H. eapply run_again;
      [apply (walk_pass _ _ _ _ _ _ _ _ _ _ Hs (fun _ => eq_refl) Ew) | eauto].
  - intros [= <- <-].
    apply run_fixed, (walk_pass _ _ _ _ _ _ _ _ _ _ Hs (fun _ => eq_refl) Ew).
Qed.

Lemma run_optimize (rules : list rule) (h : heap) (t : Step) (h' : heap)
      (t' : Step) :
  supplied _ rules ->
  run _ rules h t h' t' ->
  exists fuel, forall fuel', (fuel <= fuel')%nat ->
    optimize _ fuel' (newFixedPointOptimizer _ rules) h t = Returns (h', t').
Proof.
  intros Hs.
  induction 1 as [h h' t t' Hp | h h1 h' t t1 t' Hp _ [fo IH]];
    destruct (pass_walk _ _ _ _ _ Hs Hp) as [fw Hw]; simpl in Hw.
  - exists (S fw). intros [| fuel'] Hle; [lia |]. simpl.
    by rewrite Hw by lia.
  - exists (S (max fw fo)). intros [| fuel'] Hle; [lia |]. simpl.
    rewrite Hw by lia. apply IH. lia.
Qed.

(** C3, amended: for a rule set whose rules return one of the three
    statuses, and a step that is not nil whenever the status is
    [fpoUpdate] or [fpoReplace], [optimize] returns exactly the outcome
    of the execution model: each pass walks from the top following
    parent pointers; at a step the rules registered for its dynamic type
    are tried in registration order and the first status other than
    [fpoIntact] wins; a replaced step is linked in as the top of the
    trace, or as the parent of the preceding step, and the walk goes on
    from the new step; an updated step is visited again; passes are
    repeated until one ends with nothing changed. *)
Theorem optimize_fixed_point (rules : list rule) (h : heap) (t : Step)
        (h' : heap) (t' : Step) :
  supplied _ rules ->
  (exists fuel,
      optimize _ fuel (newFixedPointOptimizer _ rules) h t = Returns (h', t'))
  <-> run _ rules h t h' t'.
Proof.
  intros Hs. split.
  - intros [fuel H]. by eapply optimize_run.
  - intros H. destruct (run_optimize _ _ _ _ _ Hs H) as [fuel Hf].
    exists fuel. by apply Hf.
Qed.

End Optimizer.

Lemma drop_filter_supplied : supplied unit [drop_filter].
Proof.
  intros r s h Hr. apply list_elem_of_singleton in Hr as ->.
  unfold drop_filter. cbn [Call].
  destruct (h !! address s) as [nd |]; [| by left].
  destruct (parent_of _ nd) as [p |]; [| by left].
  right. split; [by right | discriminate].
Qed.

(** The rule that replaces a [Filter] step by its parent, on the trace
    [Limit -> Filter -> IterTable]: the first pass relinks the [Limit]
    step to the [IterTable] step, the second pass changes nothing. *)
Example optimize_drops_filter :
  optimize _ 10 (newFixedPointOptimizer _ [drop_filter]) filtered (Some limit_step) =
    Returns (<[0%nat := mkNode _ (Some table_step) tt]> filtered, Some limit_step).
Proof. vm_compute. reflexivity. Qed.

Lemma optimize_fixed_point_witness :
  supplied unit [drop_filter] /\
  ((exists fuel,
       optimize _ fuel (newFixedPointOptimizer _ [drop_filter]) filtered
                (Some limit_step)
       = Returns (<[0%nat := mkNode _ (Some table_step) tt]> filtered,
                  Some limit_step))
   <-> run _ [drop_filter] filtered (Some limit_step)
           (<[0%nat := mkNode _ (Some table_step) tt]> filtered)
           (Some limit_step)).
Proof.
  split; [exact drop_filter_supplied |].
  exact (optimize_fixed_point unit [drop_filter] filtered (Some limit_step) _ _
                              drop_filter_supplied).
Defined.

(** C3, as stated, fails: [apply] hands the step of the winning rule
    through a type assertion, so a rule that reports a replacement and
    returns a nil step makes the program panic, where the execution
    model links the nil step in as the top of the trace and ends. *)
Lemma optimize_nil_replacement :
  let rules := [nil_replace] in
  run _ rules lone_filter (Some filter_step) lone_filter None /\
  (forall fuel,
      optimize _ (S (S fuel)) (newFixedPointOptimizer _ rules) lone_filter
               (Some filter_step) = Panics) /\
  ~ ((exists fuel,
         optimize _ fuel (newFixedPointOptimizer _ rules) lone_filter
                  (Some filter_step) = Returns (lone_filter, None))
     <-> run _ rules lone_filter (Some filter_step) lone_filter None).
Proof.
  assert (Hp : forall fuel,
             optimize _ (S (S fuel)) (newFixedPointOptimizer _ [nil_replace])
                      lone_filter (Some filter_step) = Panics).
  { intros fuel. cbn [optimize walk]. unfold apply.
    rewrite newFixedPointOptimizer_lookup. reflexivity. }
  assert (Hr : run _ [nil_replace] lone_filter (Some filter_step) lone_filter None).
  { eapply run_again.
    - eapply pass_visit; [| apply pass_end].
      apply visit_replaced_top.
      eapply tries_wins; [reflexivity | discriminate].
    - apply run_fixed, pass_end. }
  cbv zeta. split; [exact Hr |]. split; [exact Hp |].
  intros [_ H]. destruct (H Hr) as [[| [| fuel]] Hf]; [discriminate Hf .. |].
  rewrite Hp in Hf. discriminate Hf.
Qed.

(** A status that is none of the three named ones is returned by
    [apply] and matches no case of the [switch]: the walk stays at the
    step, and with a rule that goes on returning it, never ends. *)
Lemma optimize_unnamed_status (fuel : nat) :
  optimize _ fuel (newFixedPointOptimizer _ [odd_status]) lone_filter
           (Some filter_step) = OutOfFuel.
Proof.
  destruct fuel as [| fuel]; [reflexivity |].
  cbn [optimize].
  assert (H : forall c,
             walk _ fuel (newFixedPointOptimizer _ [odd_status]) lone_filter
                  (Some filter_step) None (Some filter_step) c = OutOfFuel).
  { induction fuel as [| fuel IH]; intros c; [reflexivity |].
    cbn [walk]. unfold apply. rewrite newFixedPointOptimizer_lookup.
    cbn. apply IH. }
  by rewrite H.
Qed.

End OptimizerProps.

(** ** The binary codec *)

Module CodecProps.

Import num expr codec examples NodeProps.
Import ion (decoding, Decoded, Failed, Panicked, bind, of_option).

(** *** Numbers *)

Lemma to_int64_to_uint64 (z : Z) :
  IsInt64 z = true -> to_int64 (to_uint64 z) = z.
Proof.
  unfold IsInt64, minInt64, maxInt64, to_int64, to_uint64.
  intros H. apply andb_prop in H as [H1 H2].
  apply Z.leb_le in H1, H2.
  rewrite Z.mod_mod by lia.
  destruct (Z.ltb_spec (z mod 2 ^ 64) (2 ^ 63)) as [Hlt | Hge].
  - destruct (Z_lt_le_dec z 0) as [Hn | Hp].
    + rewrite <- (Z.mod_add z 1 (2 ^ 64)) in Hlt by lia.
      rewrite Z.mod_small in Hlt by lia. lia.
    + apply Z.mod_small. lia.
  - destruct (Z_lt_le_dec z 0) as [Hn | Hp].
    + rewrite <- (Z.mod_add z 1 (2 ^ 64)) by lia.
      rewrite Z.mod_small by lia. lia.
    + rewrite Z.mod_small in Hge by lia. lia.
Qed.

Lemma to_int64_small (u : Z) :
  0 <= u -> IsInt64 u = true -> to_int64 u = u.
Proof.
  unfold IsInt64, minInt64, maxInt64, to_int64.
  intros H0 H. apply andb_prop in H as [_ H2]. apply Z.leb_le in H2.
  rewrite Z.mod_small by lia.
  destruct (Z.ltb_spec u (2 ^ 63)); lia.
Qed.

Lemma to_uint8_small (p : Z) :
  (0 <=? p) && (p <? 2 ^ 8) = true -> to_uint8 p = p.
Proof.
  intros H. apply andb_prop in H as [H1 H2].
  apply Z.leb_le in H1. apply Z.ltb_lt in H2.
  unfold to_uint8. apply Z.mod_small. lia.
Qed.

Lemma feq_refl (f : float64) : isNaN f = false -> feq f f = true.
Proof.
  unfold feq, SFeqb.
  destruct f as [s | s | | s m e]; simpl; try discriminate; intros _.
  - reflexivity.
  - by destruct s.
  - rewrite Z.compare_refl.
    change (Pos.compare_cont Eq m m) with (Pos.compare m m).
    rewrite Pos.compare_refl. by destruct s.
Qed.

(** A float that has a rational value is a zero or finite, and is
    within the tolerance of [Rational.Equals] of itself. *)
Lemma to_Q_finite (f : float64) (v : Q) :
  to_Q f = Some v ->
  isNaN f = false /\ flt (fabs (fsub f f)) tolerance = true.
Proof.
  destruct f as [s | s | | s m e]; try discriminate; intros _;
    (split; [reflexivity |]).
  - by destruct s.
  - unfold fsub, SFsub. rewrite Z.sub_diag. reflexivity.
Qed.

Lemma Float64_exact (r : Q) :
  snd (Float64 r) = true ->
  exists f, Float64 r = (f, true) /\ isNaN f = false /\
            flt (fabs (fsub f f)) tolerance = true.
Proof.
  unfold Float64.
  destruct (Qnum r) as [| n | n] eqn:En.
  - intros _. exists (S754_zero false). repeat split.
  - destruct (SFdiv_core_binary _ _ _ _ _ _) as [[q e] l]. simpl.
    destruct (to_Q (binary_round_aux prec emax false q e l)) as [v |] eqn:Ev;
      [| discriminate].
    intros ->. eexists. split; [reflexivity |]. by apply (to_Q_finite _ v).
  - destruct (SFdiv_core_binary _ _ _ _ _ _) as [[q e] l]. simpl.
    destruct (to_Q (binary_round_aux prec emax true q e l)) as [v |] eqn:Ev;
      [| discriminate].
    intros ->. eexists. split; [reflexivity |]. by apply (to_Q_finite _ v).
Qed.

Lemma AsConstant_WriteInt (i : Z) :
  IsInt64 i = true -> AsConstant (ion.WriteInt i) = Decoded (Integer i).
Proof.
  intros H. unfold ion.WriteInt.
  destruct (Z.ltb_spec i 0) as [Hn | Hp]; simpl; [reflexivity |].
  rewrite to_int64_small by assumption.
  destruct (Z.leb_spec 0 i); [reflexivity | lia].
Qed.

Lemma Decode_WriteInt (i : Z) :
  IsInt64 i = true -> Decode (ion.WriteInt i) = Decoded (Integer i).
Proof.
  intros H. rewrite <- (AsConstant_WriteInt i H).
  unfold ion.WriteInt. by destruct (i <? 0).
Qed.

Lemma as_Int_WriteInt (i : Z) :
  IsInt64 i = true -> ion.as_Int (ion.WriteInt i) = Some i.
Proof.
  intros H. unfold ion.WriteInt.
  destruct (Z.ltb_spec i 0); simpl; [reflexivity | by rewrite H].
Qed.

(** *** Bags *)

Lemma same_float_refl (f : float64) : ion.same_float f f = true.
Proof.
  destruct f as [s | s | | s m e]; simpl; rewrite ?eqb_reflx; try reflexivity.
  by rewrite Pos.eqb_refl, Z.eqb_refl.
Qed.

Lemma Datum_eqb_refl (d : ion.Datum) : ion.Datum_eqb d d = true.
Proof.
  revert d. fix IH 1. intros [| b | i | u | f | s | s | t | mem | items | fields];
    simpl; rewrite ?eqb_reflx, ?Z.eqb_refl, ?String.eqb_refl, ?same_float_refl,
      ?Pos.eqb_refl;
    try reflexivity.
  - induction items as [| x items IHi]; [reflexivity |]. by rewrite IH, IHi.
  - induction fields as [| [l x] fields IHf]; [reflexivity |].
    by rewrite String.eqb_refl, IH, IHf.
Qed.

Lemma Bag_Equals_refl (b : ion.Bag) : ion.Bag_Equals b b = true.
Proof.
  induction b as [| d b IH]; [reflexivity |]. simpl. by rewrite Datum_eqb_refl, IH.
Qed.

(** *** Loops of [Equals] *)

Lemma each_agree (l' l : list Node) :
  Forall2 agree l' l ->
  Equals_each l' l = Some true /\ Equals_each l l' = Some true /\
  Equivalent_each l' l = Some true /\ Equivalent_each l l' = Some true /\
  length l' = length l.
Proof.
  induction 1 as [| a' a l' l [H1 H2] _ (IH1 & IH2 & IH3 & IH4 & IH5)]; simpl;
    [auto |].
  rewrite H1, H2, IH5. simpl. destruct (same a' a), (same a a'); simpl; auto.
Qed.

Lemma order_agree (l' l : list Order) :
  Forall2 agree_order l' l ->
  Order_each l' l = Some true /\ Order_each l l' = Some true /\
  length l' = length l.
Proof.
  induction 1 as [| [c' d' n'] [c d n] l' l (Hd & Hn & H1 & H2) _ (IH1 & IH2 & IH3)];
    simpl in *; [auto |].
  subst. rewrite H1, H2, !eqb_reflx, IH3. simpl. auto.
Qed.

Lemma limbs_agree (l' l : list CaseLimb) :
  Forall2 agree_limb l' l ->
  Limbs_each l' l = Some true /\ Limbs_each l l' = Some true /\
  length l' = length l.
Proof.
  induction 1 as [| [w' t'] [w t] l' l [[W1 W2] [T1 T2]] _ (IH1 & IH2 & IH3)];
    simpl in *; [auto |].
  rewrite W1, W2, T1, T2, IH3. simpl. auto.
Qed.

Lemma fields_agree (l' l : list Field) :
  Forall2 agree_field l' l ->
  Fields_each l' l = Some true /\ Fields_each l l' = Some true /\
  length l' = length l.
Proof.
  induction 1 as [| [b' v'] [b v] l' l [Hl [H1 H2]] _ (IH1 & IH2 & IH3)];
    simpl in *; [auto |].
  subst. rewrite H1, H2, String.eqb_refl, IH3. simpl. auto.
Qed.

(** [Struct.Equals] and [StringMatch.Equals], with the calls on the
    children of the argument written as calls of [Equals]. *)
Lemma Equals_Struct (fs fs2 : list Field) :
  Equals (Struct fs) (Struct fs2) =
    if negb (Nat.eqb (length fs) (length fs2)) then Some false
    else Fields_each fs fs2.
Proof.
  simpl. destruct (negb (Nat.eqb _ _)); [reflexivity |].
  revert fs2. induction fs as [| [l v] fs IH]; intros [| [l2 v2] fs2];
    try reflexivity.
  cbn -[andthen]. by rewrite EqualsArg_Equals, IH.
Qed.

Lemma Equals_StringMatch (op oop : Z) (e oe : Node) (p op_ esc oesc : string) :
  Equals (StringMatch op e p esc) (StringMatch oop oe op_ oesc) =
    Some (Z.eqb oop op) &&& Equals oe e &&& Some (String.eqb op_ p)
    &&& Some (String.eqb oesc esc).
Proof. cbn -[andthen]. by rewrite EqualsArg_Equals. Qed.

(** *** [Equals] of two nodes built alike *)

Ltac agreed :=
  unfold agree in *;
  repeat match goal with
         | H : _ /\ _ |- _ => destruct H
         end;
  split; cbn -[andthen Equals_each Equivalent_each Order_each Limbs_each Fields_each];
  rewrite ?EqualsArg_Equals;
  repeat match goal with
         | H : Equals _ _ = Some true |- _ => rewrite H
         end;
  rewrite ?Z.eqb_refl, ?String.eqb_refl, ?eqb_reflx, ?Nat.eqb_refl,
    ?Bag_Equals_refl;
  try reflexivity.

Lemma agree_Dot (i' i : Node) (f : string) :
  agree i' i -> agree (Dot i' f) (Dot i f).
Proof. intros. agreed. Qed.

Lemma agree_Index (i' i : Node) (o : Z) :
  agree i' i -> agree (Index i' o) (Index i o).
Proof. intros. agreed. Qed.

Lemma agree_Comparison (op : Z) (l' l r' r : Node) :
  agree l' l -> agree r' r -> agree (Comparison op l' r') (Comparison op l r).
Proof. intros. agreed. Qed.

Lemma agree_Logical (op : Z) (l' l r' r : Node) :
  agree l' l -> agree r' r -> agree (Logical op l' r') (Logical op l r).
Proof. intros. agreed. Qed.

Lemma agree_Not (e' e : Node) : agree e' e -> agree (Not e') (Not e).
Proof. intros. agreed. Qed.

Lemma agree_UnaryArith (op : Z) (c' c : Node) :
  agree c' c -> agree (UnaryArith op c') (UnaryArith op c).
Proof. intros. agreed. Qed.

Lemma agree_Arithmetic (op : Z) (l' l r' r : Node) :
  agree l' l -> agree r' r -> agree (Arithmetic op l' r') (Arithmetic op l r).
Proof. intros. agreed. Qed.

Lemma agree_IsKey (e' e : Node) (k : Z) :
  agree e' e -> agree (IsKey e' k) (IsKey e k).
Proof. intros. agreed. Qed.

Lemma agree_Cast (f' f : Node) (to : Z) :
  agree f' f -> agree (Cast f' to) (Cast f to).
Proof. intros. agreed. Qed.

Lemma agree_Member (a' a : Node) (set : ion.Bag) :
  agree a' a -> agree (Member a' set) (Member a set).
Proof. intros. agreed. Qed.

Lemma agree_StringMatch (op : Z) (e' e : Node) (p esc : string) :
  agree e' e -> agree (StringMatch op e' p esc) (StringMatch op e p esc).
Proof. intros. agreed. Qed.

Lemma agree_Unpivot (t' t : Node) (as_ at_ : option string) :
  agree t' t -> agree (Unpivot t' as_ at_) (Unpivot t as_ at_).
Proof.
  intros. assert (forall o, equalPointed o o = true) as Hp
    by (intros [s |]; simpl; [apply String.eqb_refl | reflexivity]).
  agreed; rewrite !Hp; simpl.
  - by destruct (same t' t).
  - by destruct (same t t').
Qed.

Lemma agree_Union (ty : Z) (l' l r' r : Node) :
  agree l' l -> agree r' r -> agree (Union ty l' r') (Union ty l r).
Proof. intros. agreed. Qed.

Lemma agree_Builtin (f : BuiltinOp) (t' t : string) (l' l : list Node) :
  Forall2 agree l' l -> agree (Builtin f t' l') (Builtin f t l).
Proof.
  intros H. apply each_agree in H as (H1 & H2 & _ & _ & H5).
  assert (BuiltinOp_eqb f f = true) as Hf by (by destruct f).
  split; simpl; rewrite Hf, H5, Nat.eqb_refl; simpl; assumption.
Qed.

Lemma agree_List (l' l : list Node) :
  Forall2 agree l' l -> agree (List l') (List l).
Proof.
  intros H. apply each_agree in H as (H1 & H2 & _ & _ & H5).
  split; simpl; rewrite H5, Nat.eqb_refl; simpl; assumption.
Qed.

Lemma agree_Appended (l' l : list Node) :
  Forall2 agree l' l -> agree (Appended l') (Appended l).
Proof.
  intros H. apply each_agree in H as (H1 & H2 & _ & _ & H5).
  split; simpl; rewrite H5, Nat.eqb_refl; simpl; assumption.
Qed.

Lemma agree_Struct (l' l : list Field) :
  Forall2 agree_field l' l -> agree (Struct l') (Struct l).
Proof.
  intros H. apply fields_agree in H as (H1 & H2 & H3).
  split; rewrite Equals_Struct, H3, Nat.eqb_refl; simpl; assumption.
Qed.

Lemma agree_Lookup (e' e : Node) (els' els : option Node) (keys values : ion.Bag) :
  agree e' e -> agree_opt els' els ->
  agree (Lookup e' els' keys values) (Lookup e els keys values).
Proof.
  intros He Hl.
  destruct els' as [x' |], els as [x |]; try contradiction; simpl in Hl.
  - agreed. + by destruct (same x' x). + by destruct (same x x').
  - agreed.
Qed.

Lemma agree_Case (limbs' limbs : list CaseLimb) (els' els : option Node)
      (v' v : string) :
  Forall2 agree_limb limbs' limbs -> agree_opt els' els ->
  agree (Case limbs' els' v') (Case limbs els v).
Proof.
  intros H Hl. apply limbs_agree in H as (H1 & H2 & H3).
  unfold Limbs_each in H1, H2.
  destruct els' as [x' |], els as [x |]; try contradiction; simpl in Hl.
  - destruct Hl as [E1 E2].
    split; simpl; rewrite H3, Nat.eqb_refl; simpl.
    + by rewrite H1.
    + by rewrite H2.
  - split; simpl; rewrite H3, Nat.eqb_refl; simpl.
    + by rewrite H1.
    + by rewrite H2.
Qed.

Lemma Equals_Aggregate (op p : Z) (inner : option Node) (over : option Window)
      (filter : option Node) (eop ep : Z) (einner : option Node)
      (eover : option Window) (efilter : option Node) :
  Equals (Aggregate op p inner over filter) (Aggregate eop ep einner eover efilter)
  = (if negb (Z.eqb eop op) then Some false
     else match inner, einner with
          | None, None => Some true
          | Some i, Some ei => Equals i ei
          | _, _ => Some false
          end)
    &&& (if negb (Z.eqb ep p) then Some false
         else match filter, efilter with
              | None, None => Some true
              | Some f, Some ef => Equals f ef
              | _, _ => Some false
              end)
    &&& match over with
        | None => Some (match eover with None => true | Some _ => false end)
        | Some (mkWindow part order) =>
            match eover with
            | None => None
            | Some (mkWindow epart eorder) =>
                (if negb (Nat.eqb (length part) (length epart)) then Some false
                 else Equivalent_each part epart)
                &&& (if negb (Nat.eqb (length order) (length eorder)) then Some false
                     else Order_each order eorder)
            end
        end.
Proof. reflexivity. Qed.

Lemma agree_Aggregate (op p : Z) (inner' inner : option Node)
      (over' over : option Window) (filter' filter : option Node) :
  agree_opt inner' inner -> agree_window over' over -> agree_opt filter' filter ->
  agree (Aggregate op p inner' over' filter') (Aggregate op p inner over filter).
Proof.
  intros Hi Ho Hf.
  assert (Hin : forall o' o, agree_opt o' o ->
            match o', o with
            | None, None => Some true
            | Some i, Some ei => Equals i ei
            | _, _ => Some false
            end = Some true /\
            match o, o' with
            | None, None => Some true
            | Some i, Some ei => Equals i ei
            | _, _ => Some false
            end = Some true).
  { intros [a |] [b |]; simpl; try contradiction; [intros [? ?] | ]; auto. }
  destruct (Hin _ _ Hi) as [Hi1 Hi2]. destruct (Hin _ _ Hf) as [Hf1 Hf2].
  destruct over' as [[part' order'] |], over as [[part order] |];
    try contradiction; simpl in Ho.
  - destruct Ho as [Hp Hr].
    apply each_agree in Hp as (_ & _ & P1 & P2 & P3).
    apply order_agree in Hr as (R1 & R2 & R3).
    split; rewrite Equals_Aggregate, !Z.eqb_refl; cbn [negb].
    + rewrite Hi1, Hf1, P3, R3, !Nat.eqb_refl. cbn [negb]. by rewrite P1, R1.
    + rewrite Hi2, Hf2, P3, R3, !Nat.eqb_refl. cbn [negb]. by rewrite P2, R2.
  - split; rewrite Equals_Aggregate, !Z.eqb_refl; cbn [negb].
    + by rewrite Hi1, Hf1.
    + by rewrite Hi2, Hf2.
Qed.

(** *** List and struct literals *)

Lemma Datum_List (values : list Node) :
  Datum (List values) = option_map ion.List (Datum_each values).
Proof. unfold Datum_each. simpl. by destruct (_ values). Qed.

Lemma Datum_Struct (fields : list Field) :
  Datum (Struct fields) = option_map ion.Struct (Datum_fields fields).
Proof. unfold Datum_fields. simpl. by destruct (_ fields). Qed.

Lemma AsConstant_List (items : list ion.Datum) :
  AsConstant (ion.List items) =
    bind (AsConstant_each items) (fun vs => Decoded (List vs)).
Proof. unfold AsConstant_each. simpl. by destruct (_ items). Qed.

Lemma AsConstant_Struct (fields : list (string * ion.Datum)) :
  AsConstant (ion.Struct fields) =
    bind (AsConstant_fields fields) (fun fs => Decoded (Struct fs)).
Proof. unfold AsConstant_fields. simpl. by destruct (_ fields). Qed.

Lemma literal_Struct (fields : list Field) :
  literal (Struct fields) = forallb (fun f => literal (Value f)) fields.
Proof.
  simpl. induction fields as [| [l v] fields IH]; [reflexivity |].
  simpl. by rewrite IH.
Qed.

(** A constant of a literal goes through [Datum] and [AsConstant] to a
    constant that [Equals] it, whichever of the two is the receiver. *)
Lemma literal_roundtrip (c : Node) :
  literal c = true ->
  exists d c', Datum c = Some d /\ AsConstant d = Decoded c' /\ agree c' c.
Proof.
  induction c as [c IH] using Node_children_ind.
  destruct c; try discriminate; intros H.
  - (* Bool *) eexists _, _. repeat split; simpl; by rewrite eqb_reflx.
  - (* String *) eexists _, _. repeat split; simpl; by rewrite String.eqb_refl.
  - (* Float *)
    simpl in H. apply negb_true_iff in H.
    eexists _, _. repeat split; simpl; by rewrite feq_refl.
  - (* Integer *)
    simpl in H. eexists _, _. split; [reflexivity |].
    rewrite AsConstant_WriteInt by exact H.
    repeat split; simpl; by rewrite Z.eqb_refl.
  - (* Rational *)
    simpl in H. unfold lossless in H. simpl.
    destruct (IsInt r && IsInt64 (Num r)) eqn:Ei.
    + apply andb_prop in Ei as Ei'. destruct Ei' as [_ E64].
      eexists _, _. split; [reflexivity |].
      rewrite AsConstant_WriteInt by exact E64.
      repeat split; simpl; by rewrite Ei, Z.eqb_refl.
    + simpl in H. destruct (Float64_exact r H) as (f & Ef & Hn & Ht).
      eexists _, _. split; [reflexivity |]. rewrite Ef.
      repeat split; simpl; rewrite Ef; simpl.
      * by rewrite feq_refl.
      * by rewrite Ht.
  - (* Null *) eexists _, _. repeat split.
  - (* Timestamp *) eexists _, _. repeat split; simpl; by rewrite Z.eqb_refl.
  - (* List *)
    simpl in IH, H.
    assert (exists ds values',
               Datum_each Values = Some ds /\
               AsConstant_each ds = Decoded values' /\
               Forall2 agree values' Values)
      as (ds & values' & Ee & Ed & Eq).
    { clear -IH H.
      induction IH as [| a values Ha _ IHv]; simpl.
      - exists [], []. auto.
      - simpl in H. apply andb_prop in H as [Hw Hws].
        destruct (Ha Hw) as (d & a' & Ee & Ed & Eq).
        destruct (IHv Hws) as (ds & values' & Ees & Eds & Eqs).
        exists (d :: ds), (a' :: values'). rewrite Ee, Ees.
        split; [reflexivity |]. simpl. rewrite Ed, Eds. auto. }
    exists (ion.List ds), (List values').
    rewrite Datum_List, Ee, AsConstant_List, Ed.
    split; [reflexivity |]. split; [reflexivity |]. by apply agree_List.
  - (* Struct *)
    rewrite literal_Struct in H. simpl in IH.
    assert (exists ds fields',
               Datum_fields Fields = Some ds /\
               AsConstant_fields ds = Decoded fields' /\
               Forall2 agree_field fields' Fields)
      as (ds & fields' & Ee & Ed & Eq).
    { clear -IH H.
      induction Fields as [| [l v] fields IHf]; simpl.
      - exists [], []. auto.
      - simpl in H, IH. apply andb_prop in H as [Hw Hws].
        apply Forall_cons_inv in IH as [Ha IH].
        destruct (Ha Hw) as (d & a' & Ee & Ed & Eq).
        destruct (IHf IH Hws) as (ds & fields' & Ees & Eds & Eqs).
        exists ((l, d) :: ds), (mkField l a' :: fields'). rewrite Ee, Ees.
        split; [reflexivity |]. simpl. rewrite Ed, Eds.
        split; [reflexivity |]. constructor; [| exact Eqs]. by split. }
    exists (ion.Struct ds), (Struct fields').
    rewrite Datum_Struct, Ee, AsConstant_Struct, Ed.
    split; [reflexivity |]. split; [reflexivity |]. by apply agree_Struct.
Qed.

(** *** The round trip *)

Lemma agree_leaf (n : Node) :
  match n with
  | Bool _ | String _ | Ident _ | Star | Missing | Null | Timestamp _ => True
  | Float f => isNaN f = false
  | Integer _ => True
  | _ => False
  end ->
  agree n n.
Proof.
  destruct n; try contradiction; intros H; split; simpl;
    rewrite ?eqb_reflx, ?String.eqb_refl, ?Z.eqb_refl, ?feq_refl by assumption;
    reflexivity.
Qed.

Lemma agree_Rational (r : Q) : agree (Rational (big.GobEncode r)) (Rational r).
Proof.
  unfold big.GobEncode, Cmp0.
  split; simpl; unfold Cmp0; f_equal; apply Qeq_bool_iff;
    [symmetry |]; apply Qred_correct.
Qed.

Lemma UnpackList_cons {A : Type} (fn : ion.Datum -> decoding A)
      (x : ion.Datum) (rest : list ion.Datum) :
  ion.UnpackList fn (ion.List (x :: rest)) =
    bind (fn x) (fun v =>
    bind (ion.UnpackList fn (ion.List rest)) (fun vs => Decoded (v :: vs))).
Proof.
  simpl. destruct (fn x); [| reflexivity ..].
  by destruct ((fix each (l : list ion.Datum) := _) rest).
Qed.

Ltac split_wf H :=
  repeat match type of H with
         | (_ && _)%bool = true => let H' := fresh H in apply andb_prop in H as [H H']
         end.

Section RoundTrip.

Variable ToUpper : string -> string.

Local Abbreviation Encode := (codec.Encode ToUpper).
Local Abbreviation wellformed := (codec.wellformed ToUpper).
Local Abbreviation roundtrips := (codec.roundtrips ToUpper).

Ltac child IH H :=
  let d := fresh "d" in
  let n' := fresh "n'" in
  let Ee := fresh "Ee" in
  let Ed := fresh "Ed" in
  let Eq := fresh "Eq" in
  destruct (IH H) as (d & n' & Ee & Ed & Eq); rewrite Ee.

Lemma Encode_each_roundtrip (args : list Node) :
  Forall (fun a => wellformed a = true -> roundtrips a) args ->
  forallb wellformed args = true ->
  exists ds args',
    Encode_each ToUpper args = Some ds /\
    ion.UnpackList Decode (ion.List ds) = Decoded args' /\
    Forall2 agree args' args.
Proof.
  induction 1 as [| a args Ha _ IH]; simpl.
  - intros _. exists [], []. auto.
  - intros H. apply andb_prop in H as [Hw Hws].
    destruct (Ha Hw) as (d & a' & Ee & Ed & Eq).
    destruct (IH Hws) as (ds & args' & Ees & Eds & Eqs).
    exists (d :: ds), (a' :: args'). rewrite Ee, Ees.
    split; [reflexivity |]. simpl in *. rewrite Ed, Eds. auto.
Qed.

Lemma name2Builtin_Name (func : BuiltinOp) (text : string) :
  match func with
  | Unspecified => BuiltinOp_eqb (name2Builtin (ToUpper text)) Unspecified
  | _ => true
  end = true ->
  name2Builtin (Name ToUpper func text) = func.
Proof.
  destruct func; simpl; try reflexivity.
  by destruct (name2Builtin (ToUpper text)).
Qed.

Lemma Encode_Builtin (func : BuiltinOp) (text : string) (args : list Node) :
  Encode (Builtin func text args) =
    option_map
      (fun ds => ion.Struct [settype "builtin";
                             ("func", ion.String (Name ToUpper func text));
                             ("args", ion.List ds)])
      (Encode_each ToUpper args).
Proof. unfold Encode_each. simpl. by destruct (_ args). Qed.

Lemma Decode_builtin (name : string) (ds : list ion.Datum) (args' : list Node) :
  ion.UnpackList Decode (ion.List ds) = Decoded args' ->
  Decode (ion.Struct [settype "builtin"; ("func", ion.String name);
                      ("args", ion.List ds)])
  = Decoded (match name2Builtin name with
             | Unspecified => Builtin Unspecified name args'
             | f => Builtin f "" args'
             end).
Proof.
  intros Ed. simpl in Ed. simpl.
  destruct (name2Builtin name); simpl; rewrite Ed; reflexivity.
Qed.

Lemma Encode_columns_roundtrip (order : list Order) :
  Forall (fun a => wellformed a = true -> roundtrips a) (map Column order) ->
  (fix each (l : list Order) : bool :=
     match l with
     | [] => true
     | mkOrder c _ _ :: rest => wellformed c && each rest
     end) order = true ->
  exists cs order',
    Encode_columns ToUpper order = Some cs /\
    decodeOrder Decode (EncodeOrder cs) = Decoded order' /\
    Forall2 agree_order order' order.
Proof.
  induction order as [| [c desc nl] order IHo]; intros IH H.
  - exists [], []. repeat split. constructor.
  - simpl in IH, H.
    apply andb_prop in H as [Hw Hws]. apply Forall_cons_inv in IH as [Hc IH].
    destruct (Hc Hw) as (d & c' & Ee & Ed & Eq).
    destruct (IHo IH Hws) as (cs & order' & Ees & Eds & Eqs).
    exists ((d, desc, nl) :: cs), (mkOrder c' desc nl :: order').
    split; [simpl; by rewrite Ee, Ees |]. split.
    + unfold decodeOrder, EncodeOrder in *.
      cbn [map]. rewrite UnpackList_cons. cbn [decodeKey]. rewrite Ed.
      cbn [bind]. by rewrite Eds.
    + constructor; [| exact Eqs].
      split; [reflexivity |]. split; [reflexivity |]. exact Eq.
Qed.

Lemma Encode_Aggregate (op precision : Z) (inner : option Node)
      (over : option Window) (filter : option Node) :
  Encode (Aggregate op precision inner over filter) =
    match
      optional "inner" (option_map Encode inner),
      match over with
      | None => Some []
      | Some (mkWindow part order) =>
          match Encode_each ToUpper part with
          | Some ds =>
              match order with
              | [] => Some [("over_partition", ion.List ds)]
              | _ :: _ =>
                  match Encode_columns ToUpper order with
                  | Some cs =>
                      Some [("over_partition", ion.List ds);
                            ("over_order_by", EncodeOrder cs)]
                  | None => None
                  end
              end
          | None => None
          end
      end,
      optional "filter_where" (option_map Encode filter)
    with
    | Some fi, Some fo, Some ff =>
        Some (ion.Struct
                ([settype "aggregate"; ("op", ion.WriteUint (to_uint64 op))]
                 ++ (if isApprox op
                     then [("precision", ion.WriteUint precision)] else [])
                 ++ fi ++ fo ++ ff))
    | _, _, _ => None
    end.
Proof. destruct inner, filter; reflexivity. Qed.

Lemma roundtrip_aggregate (op precision : Z) (inner : option Node)
      (over : option Window) (filter : option Node) :
  (forall i, inner = Some i -> roundtrips i) ->
  (forall part order, over = Some (mkWindow part order) ->
     (exists ds part',
        Encode_each ToUpper part = Some ds /\
        ion.UnpackList Decode (ion.List ds) = Decoded part' /\
        Forall2 agree part' part) /\
     (exists cs order',
        Encode_columns ToUpper order = Some cs /\
        decodeOrder Decode (EncodeOrder cs) = Decoded order' /\
        Forall2 agree_order order' order)) ->
  (forall f, filter = Some f -> roundtrips f) ->
  IsInt64 op = true ->
  (if isApprox op then (0 <=? precision) && (precision <? 2 ^ 8)
   else Z.eqb precision 0) = true ->
  roundtrips (Aggregate op precision inner over filter).
Proof.
  intros Hi Ho Hf Hop Hp. unfold codec.roundtrips.
  assert (Hpr : (if isApprox op then to_uint8 precision else 0) = precision).
  { destruct (isApprox op); [by apply to_uint8_small | by apply Z.eqb_eq in Hp]. }
  rewrite Encode_Aggregate.
  destruct inner as [i |];
    [destruct (Hi i eq_refl) as (di & i' & Eei & Edi & Eqi) |];
    (destruct over as [[part order] |];
     [destruct (Ho part order eq_refl)
        as ((dsp & part' & Eep & Edp & Eqp) & (cs & order' & Eec & Edc & Eqc));
      rewrite Eep, ?Eec; unfold decodeOrder, EncodeOrder in Edc;
      simpl in Edp, Edc |]);
    (destruct filter as [f |];
     [destruct (Hf f eq_refl) as (df & f' & Eef & Edf & Eqf) |]);
    simpl option_map; rewrite ?Eei, ?Eef; simpl optional.
  all: try (destruct order as [| o order];
            [inversion Eqc; subst | ]).
  all: destruct (isApprox op) eqn:Ea.
  all: eexists _, _; (split; [reflexivity |]).
  all: split;
    [ simpl;
      repeat (first [rewrite Edi | rewrite Edp | rewrite Edc | rewrite Edf]; simpl);
      rewrite ?to_int64_to_uint64 by exact Hop;
      rewrite ?Hpr; reflexivity
    | apply agree_Aggregate; simpl; auto ].
Qed.

Lemma Encode_limbs_roundtrip (limbs : list CaseLimb) :
  Forall (fun a => wellformed a = true -> roundtrips a)
         (flat_map (fun l => [When l; Then l]) limbs) ->
  (fix each (l : list CaseLimb) : bool :=
     match l with
     | [] => true
     | mkCaseLimb w t :: rest => wellformed w && wellformed t && each rest
     end) limbs = true ->
  exists ds limbs',
    Encode_limbs ToUpper limbs = Some ds /\
    ion.UnpackList (decodeLimb Decode) (ion.List ds) = Decoded limbs' /\
    Forall2 agree_limb limbs' limbs.
Proof.
  induction limbs as [| [w t] limbs IHl]; intros IH H.
  - exists [], []. repeat split. constructor.
  - simpl in IH, H. split_wf H.
    apply Forall_cons_inv in IH as [Hw IH]. apply Forall_cons_inv in IH as [Ht IH].
    destruct (Hw H) as (dw & w' & Eew & Edw & Eqw).
    destruct (Ht H1) as (dt & t' & Eet & Edt & Eqt).
    destruct (IHl IH H0) as (ds & limbs' & Ees & Eds & Eqs).
    exists (ion.List [dw; dt] :: ds), (mkCaseLimb w' t' :: limbs').
    split; [simpl; by rewrite Eew, Eet, Ees |]. split.
    + rewrite UnpackList_cons. cbn [decodeLimb]. rewrite Edw. cbn [bind].
      rewrite Edt. cbn [bind]. by rewrite Eds.
    + constructor; [| exact Eqs]. split; assumption.
Qed.

Lemma Encode_Appended (values : list Node) :
  Encode (Appended values) =
    option_map
      (fun ds => ion.Struct [settype "append"; ("values", ion.List ds)])
      (Encode_each ToUpper values).
Proof. unfold Encode_each. simpl. by destruct (_ values). Qed.

Lemma Encode_Case (limbs : list CaseLimb) (els : option Node) (valence : string) :
  Encode (Case limbs els valence) =
    match Encode_limbs ToUpper limbs, optional "else" (option_map Encode els) with
    | Some ds, Some fe =>
        Some (ion.Struct
                ([settype "case"; ("limbs", ion.List ds)] ++ fe
                 ++ nonempty "valence" valence))
    | _, _ => None
    end.
Proof. destruct els; reflexivity. Qed.

Lemma Decode_append (ds : list ion.Datum) (values' : list Node) :
  ion.UnpackList Decode (ion.List ds) = Decoded values' ->
  Decode (ion.Struct [settype "append"; ("values", ion.List ds)])
  = Decoded (Appended (fold_left append values' [])).
Proof. intros Ed. simpl in Ed. simpl. rewrite Ed. reflexivity. Qed.

Lemma Decode_case (ds : list ion.Datum) (limbs' : list CaseLimb)
      (fe : list (string * ion.Datum)) (els' : option Node) (valence : string) :
  ion.UnpackList (decodeLimb Decode) (ion.List ds) = Decoded limbs' ->
  match els' with
  | Some x' => exists d, fe = [("else", d)] /\ Decode d = Decoded x'
  | None => fe = []
  end ->
  exists v',
    Decode (ion.Struct ([settype "case"; ("limbs", ion.List ds)] ++ fe
                        ++ nonempty "valence" valence))
    = Decoded (Case limbs' els' v').
Proof.
  intros Ed He. simpl in Ed.
  destruct els' as [x' |]; [destruct He as (d & -> & Edx) | subst fe];
    destruct valence; eexists; simpl; rewrite Ed; simpl;
    rewrite ?Edx; reflexivity.
Qed.

(** [append] adds the values that are not themselves an [Appended]
    one by one. *)
Lemma fold_append (items acc : list Node) :
  forallb (fun v => negb (isAppended v)) items = true ->
  fold_left append items acc = acc ++ items.
Proof.
  revert acc. induction items as [| x items IH]; intros acc H; simpl.
  - by rewrite app_nil_r.
  - simpl in H. apply andb_prop in H as [Hx Hs].
    rewrite IH by exact Hs.
    destruct x; try discriminate Hx; simpl; by rewrite <- app_assoc.
Qed.

Lemma agree_isAppended (a' a : Node) :
  agree a' a -> isAppended a' = isAppended a.
Proof.
  intros [E1 E2]. destruct a', a; try reflexivity; simpl in E1, E2; discriminate.
Qed.

(** C2, amended: every well-formed node, of every node type, is
    encoded, and decoding the encoding yields a node that [Equals] it,
    whichever of the two is the receiver.  Well-formed leaves out, beyond
    what the Go types of the fields say, the nodes that hold a NaN, an
    aggregate with a precision that is not one of the approximate
    counts, a call that carries the name of a builtin without being one,
    a literal that holds a rational written with loss, and an [Appended]
    that holds an [Appended]. *)
Theorem Encode_Decode_Equals (n : Node) :
  wellformed n = true -> roundtrips n.
Proof.
  induction n as [n IH] using Node_children_ind.
  unfold roundtrips.
  destruct n; simpl in IH; simpl codec.wellformed; intros H.
  - (* Bool *) eexists _, _. repeat split; by apply agree_leaf.
  - (* String *) eexists _, _. repeat split; by apply agree_leaf.
  - (* Float *) apply negb_true_iff in H.
    eexists _, _. repeat split; by apply agree_leaf.
  - (* Integer *) eexists _, _. split; [reflexivity |].
    rewrite Decode_WriteInt by exact H. split; [reflexivity |]. by apply agree_leaf.
  - (* Rational *) eexists _, _. split; [reflexivity |]. split; [reflexivity |].
    apply agree_Rational.
  - (* Ident *) eexists _, _. repeat split; by apply agree_leaf.
  - (* Dot *) apply Forall_cons_inv in IH as [IH _]. simpl. child IH H.
    eexists _, _. split; [reflexivity |].
    split; [simpl; rewrite Ed; reflexivity |]. by apply agree_Dot.
  - (* Index *) split_wf H. apply Forall_cons_inv in IH as [IH _]. simpl. child IH H0.
    eexists _, _. split; [reflexivity |].
    split; [simpl; rewrite Ed; simpl; rewrite as_Int_WriteInt by exact H;
            reflexivity |].
    by apply agree_Index.
  - (* Star *) eexists _, _. repeat split; by apply agree_leaf.
  - (* Missing *) eexists _, _. repeat split; by apply agree_leaf.
  - (* Null *) eexists _, _. repeat split; by apply agree_leaf.
  - (* Timestamp *) eexists _, _. repeat split; by apply agree_leaf.
  - (* Comparison *) split_wf H.
    apply Forall_cons_inv in IH as [IHl IH]. apply Forall_cons_inv in IH as [IHr _].
    simpl. child IHl H1. child IHr H0.
    eexists _, _. split; [reflexivity |].
    split; [simpl; rewrite Ed; simpl; rewrite Ed0; simpl;
            rewrite to_int64_to_uint64 by exact H; reflexivity |].
    by apply agree_Comparison.
  - (* Logical *) split_wf H.
    apply Forall_cons_inv in IH as [IHl IH]. apply Forall_cons_inv in IH as [IHr _].
    simpl. child IHl H1. child IHr H0.
    eexists _, _. split; [reflexivity |].
    split; [simpl; rewrite Ed; simpl; rewrite Ed0; simpl;
            rewrite to_int64_to_uint64 by exact H; reflexivity |].
    by apply agree_Logical.
  - (* Not *) apply Forall_cons_inv in IH as [IH _]. simpl. child IH H.
    eexists _, _. split; [reflexivity |].
    split; [simpl; rewrite Ed; reflexivity |]. by apply agree_Not.
  - (* Builtin *) split_wf H.
    destruct (Encode_each_roundtrip _ IH H0) as (ds & args' & Ee & Ed & Eq).
    rewrite Encode_Builtin, Ee.
    eexists _, _. split; [reflexivity |].
    split; [apply (Decode_builtin _ _ _ Ed) |].
    rewrite (name2Builtin_Name _ _ H).
    destruct Func; by apply agree_Builtin.
  - (* UnaryArith *) split_wf H. apply Forall_cons_inv in IH as [IH _].
    simpl. child IH H0.
    eexists _, _. split; [reflexivity |].
    split; [simpl; rewrite Ed; simpl;
            rewrite to_int64_to_uint64 by exact H; reflexivity |].
    by apply agree_UnaryArith.
  - (* Arithmetic *) split_wf H.
    apply Forall_cons_inv in IH as [IHl IH]. apply Forall_cons_inv in IH as [IHr _].
    simpl. child IHl H1. child IHr H0.
    eexists _, _. split; [reflexivity |].
    split; [simpl; rewrite Ed; simpl; rewrite Ed0; simpl;
            rewrite to_int64_to_uint64 by exact H; reflexivity |].
    by apply agree_Arithmetic.
  - (* IsKey *) split_wf H. apply Forall_cons_inv in IH as [IH _].
    simpl. child IH H0.
    eexists _, _. split; [reflexivity |].
    split; [simpl; rewrite Ed; simpl;
            rewrite to_int64_to_uint64 by exact H; reflexivity |].
    by apply agree_IsKey.
  - (* Cast *) split_wf H. apply Forall_cons_inv in IH as [IH _].
    simpl. child IH H0.
    apply Z.leb_le in H. apply Z.ltb_lt in H1.
    eexists _, _. split; [reflexivity |].
    split; [simpl; rewrite Ed; simpl;
            rewrite as_Int_WriteInt
              by (unfold IsInt64, minInt64, maxInt64; apply andb_true_intro;
                  split; apply Z.leb_le; lia);
            simpl; rewrite Z.mod_small by lia; reflexivity |].
    by apply agree_Cast.
  - (* Aggregate *)
    split_wf H.
    apply roundtrip_aggregate; try assumption.
    + intros i ->. simpl in IH. apply Forall_cons_inv in IH as [IH _]. by apply IH.
    + intros part order ->.
      apply Forall_app in IH as [_ IH]. apply Forall_app in IH as [IH _].
      apply Forall_app in IH as [IHp IHo]. apply andb_prop in H1 as [Hp Ho].
      split; [by apply Encode_each_roundtrip | by apply Encode_columns_roundtrip].
    + intros f ->.
      apply Forall_app in IH as [_ IH]. apply Forall_app in IH as [_ IH].
      apply Forall_cons_inv in IH as [IH _]. by apply IH.
  - (* List *)
    destruct (literal_roundtrip (List Values) H) as (d & c' & Ee & Ed & Eq).
    change (Encode (List Values))
      with (match Datum (List Values) with
            | Some d => Some (ion.Struct [settype "list"; ("value", d)])
            | None => None
            end).
    rewrite Ee. eexists _, c'. split; [reflexivity |]. split; [| exact Eq].
    destruct Eq as [_ E2].
    simpl. rewrite Ed.
    destruct c'; try (simpl in E2; discriminate E2). reflexivity.
  - (* Member *)
    apply Forall_cons_inv in IH as [IH _]. simpl. child IH H.
    eexists _, _. split; [reflexivity |].
    split; [simpl; rewrite Ed; reflexivity |]. by apply agree_Member.
  - (* Lookup *)
    apply andb_prop in H as [He Hl].
    apply Forall_cons_inv in IH as [IHe IH]. simpl. child IHe He.
    destruct Else as [x |].
    + apply Forall_cons_inv in IH as [IHx _]. child IHx Hl.
      eexists _, _. split; [reflexivity |].
      split; [simpl; rewrite Ed; simpl; rewrite Ed0; reflexivity |].
      by apply agree_Lookup.
    + eexists _, _. split; [reflexivity |].
      split; [simpl; rewrite Ed; reflexivity |].
      by apply agree_Lookup.
  - (* StringMatch *)
    split_wf H. apply Forall_cons_inv in IH as [IH _]. simpl. child IH H0.
    destruct Escape; (eexists _, _; split; [reflexivity |]);
      (split; [simpl; rewrite as_Int_WriteInt by exact H; simpl; rewrite Ed;
               reflexivity |]);
      by apply agree_StringMatch.
  - (* Appended *)
    apply andb_prop in H as [Ha Hw].
    destruct (Encode_each_roundtrip _ IH Hw) as (ds & values' & Ee & Ed & Eq).
    rewrite Encode_Appended, Ee.
    eexists _, _. split; [reflexivity |].
    split; [apply (Decode_append _ _ Ed) |].
    rewrite fold_append.
    + by apply agree_Appended.
    + clear -Ha Eq. induction Eq as [| a' a l' l Hq _ IHq]; [reflexivity |].
      simpl in Ha. apply andb_prop in Ha as [Hx Hs].
      simpl. by rewrite (agree_isAppended _ _ Hq), Hx, IHq.
  - (* Case *)
    apply andb_prop in H as [Hl He].
    apply Forall_app in IH as [IHl IHe].
    destruct (Encode_limbs_roundtrip _ IHl Hl) as (ds & limbs' & Ee & Ed & Eq).
    rewrite Encode_Case, Ee.
    destruct Else as [x |].
    + apply Forall_cons_inv in IHe as [IHx _].
      destruct (IHx He) as (d & x' & Eex & Edx & Eqx).
      simpl option_map. rewrite Eex. simpl optional.
      destruct (Decode_case ds limbs' [("else", d)] (Some x') Valence Ed)
        as (v' & Edc); [by exists d |].
      eexists _, _. split; [reflexivity |]. split; [exact Edc |].
      by apply agree_Case.
    + simpl option_map. simpl optional.
      destruct (Decode_case ds limbs' [] None Valence Ed)
        as (v' & Edc); [reflexivity |].
      eexists _, _. split; [reflexivity |]. split; [exact Edc |].
      by apply agree_Case.
  - (* Struct *)
    destruct (literal_roundtrip (Struct Fields) H) as (d & c' & Ee & Ed & Eq).
    change (Encode (Struct Fields))
      with (match Datum (Struct Fields) with
            | Some d => Some (ion.Struct [settype "struct"; ("value", d)])
            | None => None
            end).
    rewrite Ee. eexists _, c'. split; [reflexivity |]. split; [| exact Eq].
    destruct Eq as [_ E2].
    simpl. rewrite Ed.
    destruct c'; try (simpl in E2; discriminate E2). reflexivity.
  - (* Unpivot *)
    apply Forall_cons_inv in IH as [IH _]. simpl. child IH H.
    destruct As as [as_ |], At as [at_ |];
      (eexists _, _; split; [reflexivity |]);
      (split; [simpl; rewrite Ed; reflexivity |]);
      by apply agree_Unpivot.
  - (* Union *)
    split_wf H.
    apply Forall_cons_inv in IH as [IHl IH]. apply Forall_cons_inv in IH as [IHr _].
    simpl. child IHl H1. child IHr H0.
    eexists _, _. split; [reflexivity |].
    split; [simpl; rewrite Ed; simpl; rewrite Ed0; simpl;
            rewrite to_uint8_small by (by rewrite H, H2); reflexivity |].
    by apply agree_Union.
Qed.

End RoundTrip.

Lemma Encode_Decode_Equals_witness :
  wellformed ascii_upper searched = true /\ roundtrips ascii_upper searched.
Proof.
  split; [reflexivity |].
  exact (Encode_Decode_Equals ascii_upper searched eq_refl).
Defined.

(** A node that [Equals] an aggregate is an aggregate with the same
    precision. *)
Lemma Equals_aggregate_precision (n : Node) (op p : Z) (inner : option Node)
      (over : option Window) (filter : option Node) :
  Equals n (Aggregate op p inner over filter) = Some true ->
  exists op' inner' over' filter', n = Aggregate op' p inner' over' filter'.
Proof.
  destruct n as [ | | | | | | | | | | | | | | | | | | |
                | op' p' inner' over' filter' | | | | | | | | | ];
    try discriminate.
  rewrite Equals_Aggregate.
  destruct (Z.eqb_spec p p') as [<- | Hne]; [eauto |]. cbn [negb].
  match goal with
  | |- ?A &&& Some false &&& ?C = _ -> _ =>
      destruct A as [[] |]; destruct C as [[] |]; discriminate
  end.
Qed.

(** [Encode] writes the precision of an aggregate only for the
    approximate-count operations, so [COUNT( * )] with a precision of 5
    has the encoding of [COUNT( * )] with a precision of 0, and no node
    is [Equals] to both, whatever the decoder. *)
Lemma Encode_drops_precision (ToUpper : string -> string) :
  let a := Aggregate OpCount 5 (Some Star) None None in
  let a0 := Aggregate OpCount 0 (Some Star) None None in
  Encode ToUpper a = Encode ToUpper a0 /\
  (forall n, ~ (Equals n a = Some true /\ Equals n a0 = Some true)).
Proof.
  simpl. split; [reflexivity |].
  intros n [H1 H2].
  apply Equals_aggregate_precision in H1 as (op1 & i1 & o1 & f1 & ->).
  apply Equals_aggregate_precision in H2 as (op2 & i2 & o2 & f2 & E).
  discriminate E.
Qed.

(** A node that differs from what it is decoded to does not round
    trip. *)
Lemma differs_roundtrips (ToUpper : string -> string) (n : Node) :
  differs ToUpper n \/ differs_as_argument ToUpper n -> ~ roundtrips ToUpper n.
Proof.
  intros [(d & n' & Ee & Ed & E) | (d & n' & Ee & Ed & E)]
         (d2 & n2 & Ee2 & Ed2 & [E1 E2]);
    rewrite Ee in Ee2; injection Ee2 as <-;
    rewrite Ed in Ed2; injection Ed2 as <-; congruence.
Qed.

(** C2, as stated, fails, on each kind of node that the round trip is
    not stated for.  [COUNT( * )] with a precision of 5 is decoded to
    [COUNT( * )] with a precision of 0, which is not [Equals] to it; a NaN
    is decoded to a NaN, which [Equals] no float; a call of an
    unspecified builtin with the text [make_list] is decoded to the
    [MAKE_LIST] builtin; the list literal [[1/3]] is decoded to the list
    of the nearest float, which does not [Equals] the rational; the
    struct literal [{a: 1/3}] is decoded to a struct that [Equals] has
    the node differ from when the node is the receiver; and an
    [Appended] inside an [Appended] is decoded spliced into it. *)
Lemma Encode_Decode_differs :
  differs ascii_upper (Aggregate OpCount 5 (Some Star) None None) /\
  differs ascii_upper (Float S754_nan) /\
  differs ascii_upper (Builtin Unspecified "make_list" []) /\
  differs ascii_upper (List [Rational (1 # 3)]) /\
  differs_as_argument ascii_upper (Struct [mkField "a" (Rational (1 # 3))]) /\
  differs ascii_upper (Appended [Ident "a"; Appended [Ident "b"; Ident "c"]]).
Proof.
  repeat apply conj; eexists _, _;
    (split; [vm_compute; reflexivity |]);
    (split; [vm_compute; reflexivity |]); vm_compute; reflexivity.
Qed.

End CodecProps.

(** ** Self-equality of nodes *)

Module SelfEqualsProps.

Import num expr codec ops NodeProps.

Lemma same_no_NaN (a : Node) : same a a = true -> hasNaN a = false.
Proof.
  destruct a; simpl; try reflexivity; try discriminate.
  unfold feq. destruct f; simpl; (reflexivity || discriminate).
Qed.

Lemma feq_self (f : float64) : feq f f = negb (isNaN f).
Proof.
  destruct (isNaN f) eqn:E.
  - destruct f; try discriminate. reflexivity.
  - by apply CodecProps.feq_refl.
Qed.

Local Abbreviation diagonal := (fun a => Equals a a = Some (negb (hasNaN a))).

Lemma Equals_each_self (l : list Node) :
  Forall diagonal l ->
  Equals_each l l = Some (negb (existsb hasNaN l)).
Proof.
  induction 1 as [| a l Ha _ IH]; simpl; [reflexivity |].
  fold Equals_each. rewrite Ha, IH.
  by destruct (hasNaN a).
Qed.

Lemma Equivalent_self (a : Node) :
  diagonal a ->
  (if same a a then Some true else Equals a a) = Some (negb (hasNaN a)).
Proof.
  intros Ha. destruct (same a a) eqn:Es; [| exact Ha].
  by rewrite (same_no_NaN _ Es).
Qed.

Lemma Equivalent_each_self (l : list Node) :
  Forall diagonal l ->
  Equivalent_each l l = Some (negb (existsb hasNaN l)).
Proof.
  induction 1 as [| a l Ha _ IH]; simpl; [reflexivity |].
  fold Equivalent_each. rewrite (Equivalent_self _ Ha), IH.
  by destruct (hasNaN a).
Qed.

Lemma Order_each_self (order : list Order) :
  Forall diagonal (map Column order) ->
  Order_each order order
  = Some (negb (existsb (fun o => match o with
                                  | mkOrder c _ _ => hasNaN c
                                  end) order)).
Proof.
  induction order as [| [c d nl] order IHo]; intros H; [reflexivity |].
  simpl in H. apply Forall_cons_inv in H as [Hc Hrest].
  simpl. fold Order_each. rewrite !eqb_reflx. simpl. rewrite Hc, (IHo Hrest).
  by destruct (hasNaN c).
Qed.

Lemma Limbs_each_self (limbs : list CaseLimb) :
  Forall diagonal (flat_map (fun l => [When l; Then l]) limbs) ->
  Limbs_each limbs limbs
  = Some (negb (existsb (fun l => match l with
                                  | mkCaseLimb w t => hasNaN w || hasNaN t
                                  end) limbs)).
Proof.
  induction limbs as [| [w t] limbs IHl]; intros H; [reflexivity |].
  simpl in H. apply Forall_cons_inv in H as [Hw H].
  apply Forall_cons_inv in H as [Ht Hrest].
  simpl. fold Limbs_each. rewrite Hw, Ht, (IHl Hrest).
  by destruct (hasNaN w), (hasNaN t).
Qed.

Lemma Fields_each_self (fields : list Field) :
  Forall diagonal (map Value fields) ->
  Fields_each fields fields
  = Some (negb (existsb (fun f => match f with
                                  | mkField _ v => hasNaN v
                                  end) fields)).
Proof.
  induction fields as [| [b v] fields IHf]; intros H; [reflexivity |].
  simpl in H. apply Forall_cons_inv in H as [Hv Hrest].
  simpl. fold Fields_each. rewrite String.eqb_refl, Hv, (IHf Hrest).
  by destruct (hasNaN v).
Qed.

Lemma option_self (o : option Node) :
  Forall diagonal (option_list o) ->
  match o with
  | Some x => diagonal x
  | None => True
  end.
Proof.
  destruct o as [x |]; [| done]. intros H.
  by apply Forall_cons_inv in H as [Hx _].
Qed.

Lemma Equals_Case (limbs olimbs : list CaseLimb) (els oels : option Node)
      (v ov : string) :
  Equals (Case limbs els v) (Case olimbs oels ov) =
    if negb (Nat.eqb (length limbs) (length olimbs)) then Some false
    else if negb (Bool.eqb (notnil els) (notnil oels)) then Some false
    else Limbs_each limbs olimbs
         &&& match els, oels with
             | Some c, Some oc => Equals c oc
             | _, _ => Some true
             end.
Proof. reflexivity. Qed.

Lemma Equals_diagonal (n : Node) : Equals n n = Some (negb (hasNaN n)).
Proof.
  induction n as [n IH] using Node_children_ind.
  destruct n as [ | | | | r | | i f | i o | | | | | op l r | op l r | e
                | f t args | op c | op l r | e k | fr to
                | op pr inner over filter | values
                | arg set | e els keys values | op e pat esc | values
                | limbs els val | fields | t as_ at_ | ty l r ];
    cbn [children] in IH.
  all: try (apply Forall_cons_inv in IH as [IH1 IH];
            try apply Forall_cons_inv in IH as [IH2 IH]).
  all: try (simpl;
            rewrite ?eqb_reflx, ?String.eqb_refl, ?Z.eqb_refl, ?feq_self; simpl;
            reflexivity).
  - (* Rational *) simpl. unfold Cmp0. f_equal. apply Qeq_bool_iff. reflexivity.
  - (* Dot *) simpl. by rewrite String.eqb_refl.
  - (* Index *) simpl. by rewrite Z.eqb_refl.
  - (* Comparison *) simpl. rewrite Z.eqb_refl, IH1, IH2.
    by destruct (hasNaN l), (hasNaN r).
  - (* Logical *) simpl. rewrite Z.eqb_refl, IH1, IH2.
    by destruct (hasNaN l), (hasNaN r).
  - (* Not *) exact IH1.
  - (* Builtin *) simpl.
    assert (BuiltinOp_eqb f f = true) as -> by (by destruct f).
    rewrite Nat.eqb_refl. simpl. apply (Equals_each_self args IH).
  - (* UnaryArith *) simpl. by rewrite Z.eqb_refl.
  - (* Arithmetic *) simpl. rewrite Z.eqb_refl, IH1, IH2.
    by destruct (hasNaN l), (hasNaN r).
  - (* IsKey *) simpl. by rewrite Z.eqb_refl.
  - (* Cast *) simpl. by rewrite Z.eqb_refl.
  - (* Aggregate *)
    apply Forall_app in IH as [Hinner IH].
    apply Forall_app in IH as [Hover Hfilter].
    rewrite CodecProps.Equals_Aggregate, !Z.eqb_refl. cbn [negb].
    apply option_self in Hinner as Hi. apply option_self in Hfilter as Hf.
    destruct over as [[part order] |].
    + apply Forall_app in Hover as [Hpart Horder].
      rewrite !Nat.eqb_refl. cbn [negb].
      rewrite (Equivalent_each_self _ Hpart), (Order_each_self _ Horder).
      destruct inner, filter; rewrite ?Hi, ?Hf; simpl;
        repeat match goal with
               | |- context [hasNaN ?x] => destruct (hasNaN x)
               | |- context [existsb ?f ?x] => destruct (existsb f x)
               end; reflexivity.
    + destruct inner, filter; rewrite ?Hi, ?Hf; simpl;
        repeat match goal with
               | |- context [hasNaN ?x] => destruct (hasNaN x)
               end; reflexivity.
  - (* List *) simpl. rewrite Nat.eqb_refl. simpl. apply (Equals_each_self values IH).
  - (* Member *) simpl. rewrite Z.eqb_refl, IH1, CodecProps.Bag_Equals_refl.
    by destruct (hasNaN arg).
  - (* Lookup *) simpl. rewrite IH1, !CodecProps.Bag_Equals_refl.
    destruct els as [x |].
    + apply Forall_cons_inv in IH as [Hx _]. rewrite (Equivalent_self _ Hx).
      by destruct (hasNaN e), (hasNaN x).
    + by destruct (hasNaN e).
  - (* StringMatch *)
    rewrite CodecProps.Equals_StringMatch, Z.eqb_refl, IH1, !String.eqb_refl.
    simpl. by destruct (hasNaN e).
  - (* Appended *) simpl. rewrite Nat.eqb_refl. simpl.
    apply (Equals_each_self values IH).
  - (* Case *)
    apply Forall_app in IH as [Hl He].
    rewrite Equals_Case, Nat.eqb_refl, eqb_reflx. cbn [negb].
    rewrite (Limbs_each_self _ Hl). simpl.
    destruct els as [x |].
    + apply Forall_cons_inv in He as [Hx _]. rewrite Hx.
      by destruct (existsb _ limbs), (hasNaN x).
    + by destruct (existsb _ limbs).
  - (* Struct *)
    rewrite CodecProps.Equals_Struct, Nat.eqb_refl. cbn [negb].
    apply (Fields_each_self _ IH).
  - (* Unpivot *) simpl.
    assert (forall o, equalPointed o o = true) as Hp
      by (intros [s |]; simpl; [apply String.eqb_refl | reflexivity]).
    rewrite !Hp. simpl. apply (Equivalent_self _ IH1).
  - (* Union *) simpl. rewrite Z.eqb_refl, IH1, IH2.
    by destruct (hasNaN l), (hasNaN r).
Qed.

Lemma Equivalent_diagonal (n : Node) : Equivalent n n = Some (negb (hasNaN n)).
Proof.
  unfold Equivalent. destruct (same n n) eqn:E; [| apply Equals_diagonal].
  by rewrite (same_no_NaN _ E).
Qed.


End SelfEqualsProps.

(** ** Integer and rational literals *)

Module ExactProps.

Import num expr.

(** X2: on integer literals (within int64) and rational literals,
    [Equals] decides equality of the numbers denoted; there it is
    symmetric and transitive. *)
Theorem Equals_exact_numbers (a b c : Node) :
  exact a = true -> exact b = true -> exact c = true ->
  Equals a b = Some (Qeq_bool (value a) (value b)) /\
  Equals a b = Equals b a /\
  (Equals a b = Some true -> Equals b c = Some true -> Equals a c = Some true).
Proof.
  intros Ha Hb Hc. split; [by apply NumericProps.Equals_exact |].
  split; [by apply NumericProps.Equals_exact_sym |].
  by apply NumericProps.Equals_exact_trans.
Qed.

Lemma Equals_exact_numbers_witness :
  (exact (Integer 3) = true /\ exact (Rational (6 # 2)) = true /\
   exact (Rational (3 # 1)) = true) /\
  Equals (Integer 3) (Rational (6 # 2))
    = Some (Qeq_bool (value (Integer 3)) (value (Rational (6 # 2)))) /\
  Equals (Integer 3) (Rational (6 # 2)) = Equals (Rational (6 # 2)) (Integer 3) /\
  (Equals (Integer 3) (Rational (6 # 2)) = Some true ->
   Equals (Rational (6 # 2)) (Rational (3 # 1)) = Some true ->
   Equals (Integer 3) (Rational (3 # 1)) = Some true).
Proof.
  split; [repeat split |].
  exact (Equals_exact_numbers (Integer 3) (Rational (6 # 2)) (Rational (3 # 1))
           eq_refl eq_refl eq_refl).
Defined.

End ExactProps.

(** ** Comparison operators and inversion *)

Module InvertProps.

Import num expr ops.

Ltac zbool :=
  repeat match goal with
         | |- context [Z.ltb ?x ?y] => destruct (Z.ltb_spec x y)
         | |- context [Z.leb ?x ?y] => destruct (Z.leb_spec x y)
         | |- context [Z.eqb ?x ?y] => destruct (Z.eqb_spec x y)
         end;
  simpl; first [reflexivity | exfalso; lia].

(** X3: [Flip] and [invert] on comparison operators are involutions,
    they commute, and both keep an operator ordinal or not ordinal. *)
Theorem Flip_invert_involutions (c : CmpOp) :
  Flip (Flip c) = c /\
  invert_CmpOp (invert_CmpOp c) = c /\
  Flip (invert_CmpOp c) = invert_CmpOp (Flip c) /\
  Ordinal (Flip c) = Ordinal c /\
  Ordinal (invert_CmpOp c) = Ordinal c.
Proof.
  unfold Flip, invert_CmpOp, Ordinal, Cmp.Less, Cmp.LessEquals, Cmp.Greater,
    Cmp.GreaterEquals, Cmp.Equals, Cmp.NotEquals.
  destruct (Z.eqb_spec c 2); [subst; repeat split |].
  destruct (Z.eqb_spec c 3); [subst; repeat split |].
  destruct (Z.eqb_spec c 4); [subst; repeat split |].
  destruct (Z.eqb_spec c 5); [subst; repeat split |].
  destruct (Z.eqb_spec c 0); [subst; repeat split |].
  destruct (Z.eqb_spec c 1); [subst; repeat split |].
  repeat match goal with
         | |- context [Z.eqb c ?k] =>
             let H := fresh in
             destruct (Z.eqb_spec c k) as [H | H]; [contradiction |]
         end.
  repeat split.
Qed.

(** X4: on integers, [Flip c] holds of [(a, b)] exactly when [c] holds
    of [(b, a)], and [invert c] holds exactly when [c] does not. *)
Theorem Flip_invert_meaning (c : CmpOp) (a b : Z) :
  holds (Flip c) a b = holds c b a /\
  holds (invert_CmpOp c) a b = option_map negb (holds c a b).
Proof.
  unfold holds, Flip, invert_CmpOp, Cmp.Less, Cmp.LessEquals, Cmp.Greater,
    Cmp.GreaterEquals, Cmp.Equals, Cmp.NotEquals.
  destruct (Z.eqb_spec c 2); [subst; simpl; split; zbool |].
  destruct (Z.eqb_spec c 3); [subst; simpl; split; zbool |].
  destruct (Z.eqb_spec c 4); [subst; simpl; split; zbool |].
  destruct (Z.eqb_spec c 5); [subst; simpl; split; zbool |].
  destruct (Z.eqb_spec c 0); [subst; simpl; split; zbool |].
  destruct (Z.eqb_spec c 1); [subst; simpl; split; zbool |].
  repeat match goal with
         | |- context [Z.eqb c ?k] =>
             let H := fresh in
             destruct (Z.eqb_spec c k) as [H | H]; [contradiction |]
         end.
  split; reflexivity.
Qed.

Lemma invert_CmpOp_involutive (c : CmpOp) :
  invert_CmpOp (invert_CmpOp c) = c.
Proof.
  unfold invert_CmpOp, Cmp.Less, Cmp.LessEquals, Cmp.Greater,
    Cmp.GreaterEquals, Cmp.Equals, Cmp.NotEquals.
  destruct (Z.eqb_spec c 2); [by subst |].
  destruct (Z.eqb_spec c 3); [by subst |].
  destruct (Z.eqb_spec c 4); [by subst |].
  destruct (Z.eqb_spec c 5); [by subst |].
  destruct (Z.eqb_spec c 0); [by subst |].
  destruct (Z.eqb_spec c 1); [by subst |].
  repeat match goal with
         | |- context [Z.eqb c ?k] =>
             let H := fresh in
             destruct (Z.eqb_spec c k) as [H | H]; [contradiction |]
         end.
  reflexivity.
Qed.

Lemma invert_Keyword_involutive (k : Keyword) :
  invert_Keyword (invert_Keyword k) = k.
Proof.
  unfold invert_Keyword, IsNull, IsNotNull, IsMissing, IsNotMissing, IsTrue,
    IsNotTrue, IsFalse, IsNotFalse.
  destruct (Z.eqb_spec k 0); [by subst |].
  destruct (Z.eqb_spec k 1); [by subst |].
  destruct (Z.eqb_spec k 2); [by subst |].
  destruct (Z.eqb_spec k 3); [by subst |].
  destruct (Z.eqb_spec k 4); [by subst |].
  destruct (Z.eqb_spec k 6); [by subst |].
  destruct (Z.eqb_spec k 5); [by subst |].
  destruct (Z.eqb_spec k 7); [by subst |].
  repeat match goal with
         | |- context [Z.eqb k ?j] =>
             let H := fresh in
             destruct (Z.eqb_spec k j) as [H | H]; [contradiction |]
         end.
  reflexivity.
Qed.

(** X5: inverting a boolean literal, a comparison or an IS test twice
    gives back the node; inverting a negation strips it. *)
Theorem invert_twice (n : Node) :
  match n with
  | Bool _ | Comparison _ _ _ | IsKey _ _ =>
      exists m, invert n = Some m /\ invert m = Some n
  | Not e => invert n = Some e
  | _ => invert n = None
  end.
Proof.
  destruct n as [ | | | | | | | | | | | | op l r | | | | | | | | |
                | | | | | | | | ];
    simpl; try reflexivity.
  - eexists. split; [reflexivity |]. simpl. by rewrite negb_involutive.
  - eexists. split; [reflexivity |]. simpl.
    by rewrite invert_CmpOp_involutive.
  - eexists. split; [reflexivity |]. simpl.
    by rewrite invert_Keyword_involutive.
Qed.

End InvertProps.

(** ** Lookups in literals *)

Module LookupProps.

Import num expr ops.

Lemma Index_from_spec (c : Node) (values : list Node) (i0 : Z) :
  match Index_from (Some c) values i0 with
  | Some i =>
      if i =? -1 then Forall (fun v => Equals c v = Some false) values
      else
        i0 <= i < i0 + Z.of_nat (length values) /\
        (exists v, values !! Z.to_nat (i - i0) = Some v /\ Equals c v = Some true) /\
        Forall (fun v => Equals c v = Some false) (take (Z.to_nat (i - i0)) values)
  | None => exists v, v ∈ values /\ Equals c v = None
  end \/ i0 < 0.
Proof.
  destruct (Z_lt_le_dec i0 0) as [Hneg | Hpos]; [by right | left].
  revert i0 Hpos. induction values as [| v values IH]; intros i0 Hpos; simpl.
  - constructor.
  - destruct (Equals c v) as [[] |] eqn:E.
    + destruct (Z.eqb_spec i0 (-1)) as [Hi | _]; [lia |].
      rewrite Z.sub_diag. simpl. repeat split; try lia; eauto.
    + specialize (IH (i0 + 1) ltac:(lia)).
      destruct (Index_from (Some c) values (i0 + 1)) as [i |].
      * destruct (Z.eqb_spec i (-1)) as [Hi | Hne].
        -- by constructor.
        -- destruct IH as (Hr & (w & Hw & Ew) & Hall).
           replace (Z.to_nat (i - i0)) with (S (Z.to_nat (i - (i0 + 1)))) by lia.
           simpl. repeat split; try lia; eauto.
      * destruct IH as (w & Hw & Ew). exists w. split; [by apply list_elem_of_further | exact Ew].
    + exists v. split; [apply list_elem_of_here | exact E].
Qed.

(** X6: [List.Index] finds the first element that the constant is
    [Equals] to: the result is [-1] when the constant equals no
    element, and otherwise a position in range whose element the
    constant equals, no element before it being equal; the call panics
    only if a comparison with an element does; a nil constant is found
    nowhere. *)
Theorem List_Index_first (values : list Node) (c : Node) :
  match List_Index values (Some c) with
  | Some i =>
      if i =? -1 then Forall (fun v => Equals c v = Some false) values
      else
        0 <= i < Z.of_nat (length values) /\
        (exists v, values !! Z.to_nat i = Some v /\ Equals c v = Some true) /\
        Forall (fun v => Equals c v = Some false) (take (Z.to_nat i) values)
  | None => exists v, v ∈ values /\ Equals c v = None
  end /\
  List_Index values None = Some (-1).
Proof.
  split.
  - unfold List_Index.
    destruct (Index_from_spec c values 0) as [H | H]; [| lia].
    destruct (Index_from (Some c) values 0) as [i |]; [| exact H].
    destruct (i =? -1); [exact H |].
    by rewrite Z.sub_0_r, Z.add_0_l in H.
  - unfold List_Index. generalize 0.
    induction values as [| v values IH]; intros i0; simpl; [reflexivity | apply IH].
Qed.




End LookupProps.

(** ** What [ParsePath] reads *)

Module ParseProps.

Import expr paths.

Lemma pushfield_path (cur : option Node) (s : string) :
  path_or_nil cur -> path_or_nil (pushfield cur s).
Proof. destruct cur; simpl; auto. Qed.

Lemma pushindex_path (cur : option Node) (i : Z) :
  path_or_nil cur -> path_or_nil (pushindex cur i).
Proof. destruct cur; simpl; auto. Qed.

Lemma parse_path (x : string) (cur : option Node) (state : parsing)
      (field : string) :
  path_or_nil cur ->
  match parse x cur state field with
  | Ok (cur', _, _) => path_or_nil cur'
  | Err _ => True
  end.
Proof.
  revert cur state field.
  induction x as [| c x IH]; intros cur state field Hcur; simpl; [exact Hcur |].
  destruct state.
  - destruct (Ascii.eqb c "." || Ascii.eqb c "[").
    + destruct (Nat.eqb (String.length field) 0); [exact I |].
      apply IH. by apply pushfield_path.
    + by apply IH.
  - destruct (Ascii.eqb c "]"); [| by apply IH].
    destruct (Atoi field); [| exact I].
    apply IH. by apply pushindex_path.
  - destruct (Ascii.eqb c "["); by apply IH.
Qed.

(** X8: whatever [ParsePath] returns without an error is a path
    expression. *)
Theorem ParsePath_IsPath (x : string) :
  match ParsePath x with
  | Ok n => IsPath n = true
  | Err _ => True
  end.
Proof.
  unfold ParsePath.
  pose proof (parse_path x None parsingField "" I) as H.
  destruct (parse x None parsingField "") as [[[cur state] field] | msg];
    [| exact I].
  destruct state.
  - destruct (Nat.eqb (String.length field) 0); [exact I |].
    apply (pushfield_path _ field) in H.
    by destruct (pushfield cur field).
  - destruct (negb (Nat.eqb (String.length field) 0)); [exact I |].
    by destruct cur.
  - by destruct cur.
Qed.

Lemma append_assoc (a b c : string) :
  String.append (String.append a b) c = String.append a (String.append b c).
Proof.
  induction a as [| x a IH]; [reflexivity |].
  change (String.String x (String.append (String.append a b) c)
          = String.String x (String.append a (String.append b c))).
  by f_equal.
Qed.

Lemma append_nil_r (a : string) : String.append a "" = a.
Proof.
  induction a as [| x a IH]; [reflexivity |].
  change (String.String x (String.append a "") = String.String x a).
  by f_equal.
Qed.

(** The bytes of a component are read into the field. *)
Lemma parse_component (f rest : string) (cur : option Node) (acc : string) :
  forallb (fun c => negb (Ascii.eqb c "." || Ascii.eqb c "["))
          (list_ascii_of_string f) = true ->
  parse (f ++ rest)%string cur parsingField acc
  = parse rest cur parsingField (acc ++ f)%string.
Proof.
  revert acc. induction f as [| c f IH]; intros acc; simpl.
  - intros _. by rewrite append_nil_r.
  - intros H. apply andb_prop in H as [Hc Hf].
    apply negb_true_iff in Hc. rewrite Hc.
    rewrite (IH _ Hf), append_assoc. reflexivity.
Qed.

Lemma plain_inv (f : string) :
  plain f = true ->
  Nat.eqb (String.length f) 0 = false /\
  forallb (fun c => negb (Ascii.eqb c "." || Ascii.eqb c "["))
          (list_ascii_of_string f) = true /\
  Trim f = f.
Proof.
  unfold plain. intros H.
  apply andb_prop in H as [H Ht]. apply andb_prop in H as [Hl Hc].
  apply negb_true_iff in Hl. apply String.eqb_eq in Ht. auto.
Qed.

Lemma parse_dot (rest : string) (cur : option Node) (acc : string) :
  parse (String.String "." rest) cur parsingField acc
  = if Nat.eqb (String.length acc) 0
    then Err "zero-length field not supported"
    else parse rest (pushfield cur acc) parsingField "".
Proof. reflexivity. Qed.

(** Reading the components [f1.f2. ... .fn] after the path [cur]. *)
Lemma parse_components (f : string) (fields : list string) (cur : option Node) :
  plain f = true -> Forall (fun g => plain g = true) fields ->
  exists cur' g,
    parse (String.concat "." (f :: fields)) cur parsingField ""
      = Ok (cur', parsingField, g) /\
    Nat.eqb (String.length g) 0 = false /\
    pushfield cur' g
      = Some (fold_left (fun p field => Dot p field) fields
                        (match cur with
                         | Some c => Dot c f
                         | None => Ident f
                         end)).
Proof.
  intros Hf Hfs. revert f cur Hf.
  induction Hfs as [| g fields Hg _ IH]; intros f cur Hf;
    destruct (plain_inv f Hf) as (Hl & Hc & Ht).
  - exists cur, f. simpl.
    rewrite <- (append_nil_r f) at 1. rewrite (parse_component f "" cur "" Hc).
    simpl. repeat split; [exact Hl |].
    unfold pushfield. rewrite Ht. by destruct cur.
  - change (String.concat "." (f :: g :: fields))
      with (f ++ String.String "." (String.concat "." (g :: fields)))%string.
    rewrite (parse_component f _ cur "" Hc).
    change (String.append "" f) with f. rewrite parse_dot, Hl.
    destruct (IH g (pushfield cur f) Hg) as (cur' & g' & Hp & Hl' & Hpush).
    exists cur', g'. split; [exact Hp |]. split; [exact Hl' |].
    rewrite Hpush. simpl. unfold pushfield. rewrite Ht. by destruct cur.
Qed.

Lemma FlatPath_fold (fields : list string) (p : Node) (pre : list string) :
  FlatPath p = Some pre ->
  FlatPath (fold_left (fun p field => Dot p field) fields p)
  = Some (pre ++ fields).
Proof.
  revert p pre. induction fields as [| g fields IH]; intros p pre Hp; simpl.
  - by rewrite app_nil_r.
  - rewrite (IH (Dot p g) (pre ++ [g])).
    + by rewrite <- app_assoc.
    + simpl. by rewrite Hp.
Qed.

(** X9: for a non-empty list of plain components, [ParsePath] of the
    components joined by dots is the path that [MakePath] builds from
    them, and [FlatPath] of that path gives the components back. *)
Theorem ParsePath_dotted (f : string) (fields : list string) :
  plain f = true -> Forall (fun g => plain g = true) fields ->
  exists p,
    MakePath (f :: fields) = Some p /\
    ParsePath (String.concat "." (f :: fields)) = Ok p /\
    FlatPath p = Some (f :: fields).
Proof.
  intros Hf Hfs.
  destruct (parse_components f fields None Hf Hfs) as (cur' & g & Hp & Hl & Hpush).
  eexists. split; [reflexivity |]. split.
  - unfold ParsePath. rewrite Hp, Hl, Hpush. reflexivity.
  - by apply (FlatPath_fold fields (Ident f) [f]).
Qed.

Lemma ParsePath_dotted_witness :
  (plain "a" = true /\ Forall (fun g => plain g = true) ["b"; "c"]) /\
  exists p,
    MakePath ["a"; "b"; "c"] = Some p /\
    ParsePath (String.concat "." ["a"; "b"; "c"]) = Ok p /\
    FlatPath p = Some ["a"; "b"; "c"].
Proof.
  assert (H : Forall (fun g => plain g = true) ["b"; "c"])
    by (repeat constructor).
  split; [split; [reflexivity | exact H] |].
  exact (ParsePath_dotted "a" ["b"; "c"] eq_refl H).
Defined.

End ParseProps.

(** ** Paths built from components *)

Module MakePathProps.

Import expr.

(** X23: [FlatPath] undoes [MakePath]: for every non-empty list of
    components, [MakePath] builds a path expression (of identifier and
    dot operations) that [FlatPath] flattens back into the list;
    [MakePath] panics on the empty list only. *)
Theorem FlatPath_after_MakePath (path : list string) :
  match MakePath path with
  | Some p =>
      FlatPath p = Some path /\ IsPath p = true /\ dotpath p = true
  | None => path = []
  end.
Proof.
  destruct path as [| f fields]; [reflexivity |]. simpl.
  assert (FlatPath (fold_left (fun p field => Dot p field) fields (Ident f))
          = Some (f :: fields)) as Hf
    by apply (ParseProps.FlatPath_fold fields (Ident f) [f] eq_refl).
  split; [exact Hf |].
  assert (dotpath (fold_left (fun p field => Dot p field) fields (Ident f)) = true)
    as Hd by (apply PathProps.FlatPath_dotpath; eauto).
  split; [| exact Hd].
  revert Hd. generalize (fold_left (fun p field => Dot p field) fields (Ident f)).
  induction n using Node_ind; simpl; try discriminate; auto.
Qed.

End MakePathProps.

(** ** Lowering of ORDER BY *)

Module OrderProps.

Import expr plan ordering samples.

(** *** The loops over the result names *)

Lemma IsIdentifier_spec (e : Node) (s : string) :
  IsIdentifier e s = true <-> e = Ident s.
Proof.
  destruct e; simpl; try (split; [discriminate | intros [=]]).
  rewrite String.eqb_eq. split; [by intros -> | by intros [= ->]].
Qed.

Lemma find_col_found {A : Type} (R : A -> string) (ex : Node) (l : list A)
      (c0 col : Z) :
  find_col R ex l c0 = Some col ->
  c0 <= col < c0 + Z.of_nat (length l) /\
  exists a, l !! Z.to_nat (col - c0) = Some a /\ ex = Ident (R a).
Proof.
  revert c0. induction l as [| a l IH]; intros c0; simpl; [discriminate |].
  destruct (IsIdentifier ex (R a)) eqn:E.
  - intros [= <-]. split; [lia |]. exists a. rewrite Z.sub_diag.
    split; [reflexivity | by apply IsIdentifier_spec].
  - intros H. destruct (IH _ H) as (Hr & b & Hb & Eb).
    split; [lia |]. exists b.
    replace (Z.to_nat (col - c0)) with (S (Z.to_nat (col - (c0 + 1)))) by lia.
    auto.
Qed.

Lemma find_col_none {A : Type} (R : A -> string) (ex : Node) (l : list A)
      (c0 : Z) :
  find_col R ex l c0 = None <-> Forall (fun a => ex <> Ident (R a)) l.
Proof.
  revert c0. induction l as [| a l IH]; intros c0; simpl.
  - split; [constructor | reflexivity].
  - destruct (IsIdentifier ex (R a)) eqn:E.
    + split; [discriminate |]. intros H. inversion_clear H as [| ? ? Ha _].
      apply IsIdentifier_spec in E. contradiction.
    + rewrite IH. split.
      * intros H. constructor; [| exact H].
        intros Hi. apply IsIdentifier_spec in Hi. congruence.
      * intros H. by inversion_clear H.
Qed.

Lemma find_col_skipped {A : Type} (R : A -> string) (ex : Node) (l : list A)
      (c0 : Z) :
  skipped ex = true -> find_col R ex l c0 = None.
Proof.
  intros H. apply find_col_none. apply Forall_forall. intros a _ ->. discriminate.
Qed.

(** *** The slow path *)

(** The sort columns are the columns that are not skipped, in order,
    each with the ordering of [makeOrdering]. *)
Lemma sort_columns_filter (columns : list expr.Order) :
  sort_columns columns =
    map (fun c => vm.mkSortColumn (expr.Column c) (makeOrdering c))
        (List.filter (fun c => negb (skipped (expr.Column c))) columns).
Proof.
  induction columns as [| c columns IH]; simpl; [reflexivity |].
  destruct (skipped (expr.Column c)); simpl; by rewrite IH.
Qed.

Lemma sort_columns_skipped (columns : list expr.Order) :
  forallb (fun c => skipped (expr.Column c)) columns = true ->
  sort_columns columns = [].
Proof.
  induction columns as [| c columns IH]; simpl; [reflexivity |].
  intros H. apply andb_prop in H as [Hc Hcs]. rewrite Hc. by apply IH.
Qed.

Lemma duplicate_of_spec (n : Node) (later : list vm.SortColumn) :
  match duplicate_of n later with
  | Some false => Forall (fun b => Equivalent n (vm.Node b) = Some false) later
  | r => exists j b, later !! j = Some b /\
                     Equivalent n (vm.Node b) = r
  end.
Proof.
  induction later as [| c later IH]; simpl; [constructor |].
  destruct (Equivalent n (vm.Node c)) as [[] |] eqn:E.
  - exists 0%nat, c. auto.
  - destruct (duplicate_of n later) as [[] |].
    + destruct IH as (j & b & Hb & Eb). exists (S j), b. auto.
    + by constructor.
    + destruct IH as (j & b & Hb & Eb). exists (S j), b. auto.
  - exists 0%nat, c. auto.
Qed.

Lemma duplicates_spec (columns : list vm.SortColumn) :
  match duplicates columns with
  | Some false => distinct columns
  | r => clash columns r
  end.
Proof.
  induction columns as [| c columns IH]; simpl.
  - intros i j a b _ Ha. discriminate Ha.
  - pose proof (duplicate_of_spec (vm.Node c) columns) as Hc.
    destruct (duplicate_of (vm.Node c) columns) as [[] |].
    + destruct Hc as (j & b & Hb & Eb). exists 0%nat, (S j), c, b.
      repeat split; [lia | exact Hb | exact Eb].
    + destruct (duplicates columns) as [[] |].
      * destruct IH as (i & j & a & b & Hij & Ha & Hb & Eab).
        exists (S i), (S j), a, b. repeat split; [lia | auto ..].
      * intros [| i] [| j] a b Hij Ha Hb; try lia; simpl in Ha, Hb.
        -- injection Ha as <-.
           rewrite Forall_forall in Hc. apply Hc.
           by apply list_elem_of_lookup_2 in Hb.
        -- apply (IH i j a b); [lia | auto ..].
      * destruct IH as (i & j & a & b & Hij & Ha & Hb & Eab).
        exists (S i), (S j), a, b. repeat split; [lia | auto ..].
    + destruct Hc as (j & b & Hb & Eb). exists 0%nat, (S j), c, b.
      repeat split; [lia | exact Hb | exact Eb].
Qed.

Lemma slowpath_cases (columns : list expr.Order) (from : Op) :
  match slowpath columns from with
  | Returns (Ok op) =>
      (sort_columns columns = [] /\ op = from) \/
      (sort_columns columns <> [] /\ distinct (sort_columns columns) /\
       op = plan.OrderBy from (sort_columns columns) 0 0)
  | Returns (Err _) => clash (sort_columns columns) (Some true)
  | Panics => clash (sort_columns columns) None
  | OutOfFuel => False
  end.
Proof.
  unfold slowpath.
  destruct (sort_columns columns) as [| c cols] eqn:E; [by left |].
  pose proof (duplicates_spec (c :: cols)) as H.
  destruct (duplicates (c :: cols)) as [[] |]; try exact H.
  right. split; [discriminate |]. split; [exact H | reflexivity].
Qed.

Lemma lowerOrder_unhashed (in_ : Order) (from : Op) :
  hashed from = false -> lowerOrder in_ from = slowpath (Columns in_) from.
Proof. destruct from; simpl; (reflexivity || discriminate). Qed.

(** X10: over an operator that is not a hash aggregate, [lowerOrder]
    keeps the columns that are not literal constants (booleans,
    integers, rationals, floats, strings), in order.  With none left it
    returns the operator below as it is; otherwise it returns an
    [OrderBy] over that operator, with no limit and no offset, whose
    columns are pairwise not equivalent; it fails exactly when a kept
    column is equivalent to a later one, and panics only when such a
    comparison does. *)
Theorem lowerOrder_slowpath (in_ : Order) (from : Op) :
  hashed from = false ->
  let kept :=
    map (fun c => vm.mkSortColumn (expr.Column c) (makeOrdering c))
        (List.filter (fun c => negb (skipped (expr.Column c))) (Columns in_)) in
  match lowerOrder in_ from with
  | Returns (Ok op) =>
      (kept = [] /\ op = from) \/
      (kept <> [] /\ distinct kept /\ op = plan.OrderBy from kept 0 0)
  | Returns (Err _) => clash kept (Some true)
  | Panics => clash kept None
  | OutOfFuel => False
  end.
Proof.
  intros Hf kept. rewrite (lowerOrder_unhashed _ _ Hf).
  unfold kept. rewrite <- sort_columns_filter. apply slowpath_cases.
Qed.

Lemma lowerOrder_slowpath_witness :
  let in_ := mkOrderStep [mkOrder (Ident "x") true false;
                          mkOrder (Integer 1) false false;
                          mkOrder (Dot (Ident "y") "z") false true] in
  let from := plan.Filter (Leaf (Ident "t") [] []) (Ident "p") in
  hashed from = false /\
  let kept :=
    map (fun c => vm.mkSortColumn (expr.Column c) (makeOrdering c))
        (List.filter (fun c => negb (skipped (expr.Column c))) (Columns in_)) in
  match lowerOrder in_ from with
  | Returns (Ok op) =>
      (kept = [] /\ op = from) \/
      (kept <> [] /\ distinct kept /\ op = plan.OrderBy from kept 0 0)
  | Returns (Err _) => clash kept (Some true)
  | Panics => clash kept None
  | OutOfFuel => False
  end.
Proof.
  split; [reflexivity |].
  exact (lowerOrder_slowpath
           (mkOrderStep [mkOrder (Ident "x") true false;
                         mkOrder (Integer 1) false false;
                         mkOrder (Dot (Ident "y") "z") false true])
           (plan.Filter (Leaf (Ident "t") [] []) (Ident "p")) eq_refl).
Defined.

(** *** The hash aggregate below *)

Lemma resolves_names (Agg : vm.Aggregation) (By : list Binding)
      (c : expr.Order) :
  resolves Agg By c = true ->
  exists col,
    names Agg By c (mkHashOrder col (makeOrdering c)) /\
    forall Windows rest i order,
      outer Agg Windows By (c :: rest) i order
      = outer Agg Windows By rest (S i)
              (order ++ [mkHashOrder col (makeOrdering c)]).
Proof.
  unfold resolves. intros H.
  destruct (find_col vm.Result (expr.Column c) Agg 0) as [col |] eqn:Ea.
  - exists col. split.
    + destruct (find_col_found _ _ _ _ _ Ea) as (Hr & a & Ha & Ec).
      split; [reflexivity |]. left. simpl.
      rewrite Z.sub_0_r in Ha. split; [lia |]. eauto.
    + intros. simpl. by rewrite Ea.
  - destruct (find_col expr.Result (expr.Column c) By 0) as [col |] eqn:Eb;
      [| discriminate].
    exists (Z.of_nat (length Agg) + col). split.
    + destruct (find_col_found _ _ _ _ _ Eb) as (Hr & b & Hb & Ec).
      split; [reflexivity |]. right. simpl.
      split; [by apply (find_col_none vm.Result _ _ 0) |].
      split; [lia |]. exists b.
      replace (Z.of_nat (length Agg) + col - Z.of_nat (length Agg)) with (col - 0)
        by lia.
      auto.
    + intros. simpl. by rewrite Ea, Eb.
Qed.

Lemma outer_resolved (Agg : vm.Aggregation) (By : list Binding)
      (pre : list expr.Order) :
  forallb (resolves Agg By) pre = true ->
  exists added,
    Forall2 (names Agg By) pre added /\
    forall Windows rest i order,
      outer Agg Windows By (pre ++ rest) i order
      = outer Agg Windows By rest (i + length pre)%nat (order ++ added).
Proof.
  induction pre as [| c pre IH]; intros H.
  - exists []. split; [constructor |].
    intros. cbn [app length]. by rewrite Nat.add_0_r, app_nil_r.
  - simpl in H. apply andb_prop in H as [Hc Hpre].
    destruct (resolves_names _ _ _ Hc) as (col & Hn & Ho).
    destruct (IH Hpre) as (added & Hns & Hos).
    exists (mkHashOrder col (makeOrdering c) :: added).
    split; [by constructor |].
    intros. change ((c :: pre) ++ rest) with (c :: (pre ++ rest)).
    rewrite Ho, Hos, <- app_assoc. cbn [app length].
    by replace (S i + length pre)%nat with (i + S (length pre))%nat by lia.
Qed.


Lemma outer_unresolved (Agg Windows : vm.Aggregation) (By : list Binding)
      (c : expr.Order) (rest : list expr.Order) (i : nat)
      (order : list HashOrder) :
  resolves Agg By c = false ->
  outer Agg Windows By (c :: rest) i order
  = match Windows with
    | [] => Returns (Slowpath order)
    | _ :: _ =>
        match Windows !! i with
        | None => Panics
        | Some w =>
            if IsIdentifier (expr.Column c) (vm.Result w) then
              outer Agg Windows By rest (S i)
                    (order ++
                     [mkHashOrder (Z.of_nat (length Agg)
                                   + Z.of_nat (length By) + 0)
                                  (makeOrdering c)])
            else Returns (Slowpath order)
        end
    end.
Proof.
  unfold resolves. intros H. cbn [outer].
  destruct (find_col vm.Result (expr.Column c) Agg 0); [discriminate |].
  destruct (find_col expr.Result (expr.Column c) By 0); [discriminate |].
  reflexivity.
Qed.


(** X12: a hash aggregate below that has window aggregates makes
    [lowerOrder] panic on the first ORDER BY column that names neither
    an aggregate result nor a group-by binding, when the position of
    that column is at or past the number of windows: the loop over the
    windows indexes them by the position of the column. *)
Theorem lowerOrder_window_index (pre post : list expr.Order) (c : expr.Order)
        (f : Op) (agg windows : vm.Aggregation) (by_ : list Binding)
        (order : list HashOrder) (limit : Z) :
  forallb (resolves agg by_) pre = true ->
  resolves agg by_ c = false ->
  windows <> [] ->
  (length windows <= length pre)%nat ->
  lowerOrder (mkOrderStep (pre ++ c :: post))
             (HashAggregate f agg windows by_ order limit)
  = Panics.
Proof.
  intros Hpre Hc Hw Hlen.
  destruct (outer_resolved _ _ _ Hpre) as (added & _ & Ho).
  unfold lowerOrder. cbn [Columns].
  rewrite Ho, (outer_unresolved _ _ _ _ _ _ _ Hc).
  destruct windows as [| w windows]; [contradiction |].
  lazymatch goal with
  | |- context [match ?t with Some _ => _ | None => Panics end] =>
      assert (E : t = None) by (apply lookup_ge_None; simpl in *; lia);
      rewrite E
  end.
  reflexivity.
Qed.

Lemma lowerOrder_window_index_witness :
  (forallb (resolves [total; n] [by_k]) [mkOrder (Ident "n") false false] = true /\
   resolves [total; n] [by_k]
            (mkOrder (Arithmetic AddOp (Ident "total") (Integer 1)) false false)
     = false /\
   [examples.row_number] <> [] /\
   (length [examples.row_number] <= length [mkOrder (Ident "n") false false])%nat) /\
  lowerOrder (mkOrderStep by_sum) ranked = Panics.
Proof.
  split; [repeat split; [discriminate | simpl; lia] |].
  exact (lowerOrder_window_index
           [mkOrder (Ident "n") false false] []
           (mkOrder (Arithmetic AddOp (Ident "total") (Integer 1)) false false)
           scan [total; n] [examples.row_number] [by_k] [] 0
           eq_refl eq_refl ltac:(discriminate) ltac:(simpl; lia)).
Defined.

(** *** ORDER BY followed by LIMIT *)

(** X13: lowering a Limit step (with a non-zero count) over what
    [lowerOrder] returns for an operator that is not a hash aggregate.
    When a column is kept, the result is the one [OrderBy] operator,
    carrying the count and the offset, whatever the offset.  When every
    column is a literal constant the ORDER BY has vanished and the limit
    is lowered over the operator below, so that over an operator that
    takes no limit of its own a non-zero offset is rejected. *)
Theorem lowerOrder_then_lowerLimit (in_ : Order) (lim : pir.Limit) (from : Op) :
  hashed from = false ->
  pir.Count lim <> 0 ->
  match lowerOrder in_ from with
  | Returns (Ok op) =>
      match sort_columns (Columns in_) with
      | [] =>
          lowerLimit lim op = lowerLimit lim from /\
          (bare from = true ->
           (rejected (lowerLimit lim op) <-> pir.Offset lim <> 0))
      | kept =>
          lowerLimit lim op
          = Ok (plan.OrderBy from kept (pir.Count lim) (pir.Offset lim))
      end
  | _ => True
  end.
Proof.
  intros Hf Hc. rewrite (lowerOrder_unhashed _ _ Hf).
  pose proof (slowpath_cases (Columns in_) from) as H.
  destruct (slowpath (Columns in_) from) as [[op | msg] | |]; try exact I.
  destruct H as [[E ->] | (Hne & _ & ->)].
  - rewrite E. split; [reflexivity |]. intros Hb.
    rewrite (LimitProps.lowerLimit_count_ne _ _ Hc). unfold rejected.
    destruct from; try discriminate Hb;
      (destruct (Z.eqb_spec (pir.Offset lim) 0) as [E0 | E0]; simpl;
       [ split; [intros [msg Hm]; discriminate Hm | intros Hn; contradiction]
       | split; [intros _; exact E0 | intros _; eexists; reflexivity] ]).
  - destruct (sort_columns (Columns in_)) as [| c kept]; [contradiction |].
    by rewrite (LimitProps.lowerLimit_count_ne _ _ Hc).
Qed.

Lemma lowerOrder_then_lowerLimit_witness :
  (hashed scan = false /\ pir.Count (pir.mkLimit 10 5) <> 0) /\
  match lowerOrder (mkOrderStep by_sum) scan with
  | Returns (Ok op) =>
      match sort_columns (Columns (mkOrderStep by_sum)) with
      | [] =>
          lowerLimit (pir.mkLimit 10 5) op = lowerLimit (pir.mkLimit 10 5) scan /\
          (bare scan = true ->
           (rejected (lowerLimit (pir.mkLimit 10 5) op)
            <-> pir.Offset (pir.mkLimit 10 5) <> 0))
      | kept =>
          lowerLimit (pir.mkLimit 10 5) op
          = Ok (plan.OrderBy scan kept (pir.Count (pir.mkLimit 10 5))
                             (pir.Offset (pir.mkLimit 10 5)))
      end
  | _ => True
  end.
Proof.
  split; [split; [reflexivity | discriminate] |].
  exact (lowerOrder_then_lowerLimit (mkOrderStep by_sum) (pir.mkLimit 10 5) scan
           eq_refl ltac:(discriminate)).
Defined.

(** *** GROUP BY, ORDER BY and LIMIT together *)

(** X14: an Aggregate step with a GROUP BY, an Order step whose columns
    all name aggregate results or group-by bindings, and a Limit step
    with a non-zero count and no offset, lowered one over the other,
    give a single [HashAggregate] operator over the input: it holds the
    aggregates whose op is not only valid in a window function, the
    aggregates whose op is, one [OrderBy] entry for each ORDER BY
    column, and the count as its limit. *)
Theorem lower_group_order_limit (agg_ : pir.Aggregate) (columns : list expr.Order)
        (lim : pir.Limit) (by_ : list Binding) (from : Op) :
  let agg := List.filter (fun b => negb (WindowOnly (expr.Op (vm.Expr b)))) (pir.Agg agg_) in
  let windows := List.filter (fun b => WindowOnly (expr.Op (vm.Expr b))) (pir.Agg agg_) in
  pir.GroupBy agg_ = Some by_ ->
  forallb (resolves agg by_) columns = true ->
  pir.Count lim <> 0 ->
  pir.Offset lim = 0 ->
  exists ha ha' added,
    lowerAggregate agg_ from = Ok ha /\
    lowerOrder (mkOrderStep columns) ha = Returns (Ok ha') /\
    lowerLimit lim ha'
    = Ok (HashAggregate from agg windows by_ added (pir.Count lim)) /\
    Forall2 (names agg by_) columns added.
Proof.
  intros agg windows Hg Hr Hc Ho.
  destruct (outer_resolved _ _ _ Hr) as (added & Hn & Hout).
  exists (HashAggregate from agg windows by_ [] 0),
         (HashAggregate from agg windows by_ added 0), added.
  split; [| split; [| split; [| exact Hn]]].
  - unfold lowerAggregate. rewrite Hg.
    by rewrite AggregateProps.splitWindows_filter.
  - unfold lowerOrder. cbn [Columns].
    rewrite <- (app_nil_r columns), Hout. reflexivity.
  - rewrite (LimitProps.lowerLimit_count_ne _ _ Hc), Ho. reflexivity.
Qed.

Lemma lower_group_order_limit_witness :
  let agg_ := pir.mkAggregate [total; examples.row_number; n] (Some [by_k]) in
  let lim := pir.mkLimit 10 0 in
  let agg := List.filter (fun b => negb (WindowOnly (expr.Op (vm.Expr b)))) (pir.Agg agg_) in
  let windows := List.filter (fun b => WindowOnly (expr.Op (vm.Expr b))) (pir.Agg agg_) in
  (pir.GroupBy agg_ = Some [by_k] /\
   forallb (resolves agg [by_k]) by_k_n = true /\
   pir.Count lim <> 0 /\ pir.Offset lim = 0) /\
  exists ha ha' added,
    lowerAggregate agg_ scan = Ok ha /\
    lowerOrder (mkOrderStep by_k_n) ha = Returns (Ok ha') /\
    lowerLimit lim ha'
    = Ok (HashAggregate scan agg windows [by_k] added (pir.Count lim)) /\
    Forall2 (names agg [by_k]) by_k_n added.
Proof.
  split; [repeat split; discriminate |].
  exact (lower_group_order_limit
           (pir.mkAggregate [total; examples.row_number; n] (Some [by_k]))
           by_k_n (pir.mkLimit 10 0) [by_k] scan
           eq_refl eq_refl ltac:(discriminate) eq_refl).
Defined.

End OrderProps.

(** ** Filter hints and merged inputs *)

Module HintProps.

Import expr plan dedup ops.

Lemma canRemoveHint_forallb (e : Node) :
  canRemoveHint e = forallb canRemoveHint (conjunctions e []).
Proof.
  induction e using Node_ind; simpl; rewrite ?andb_true_r; try reflexivity.
  destruct (Z.eqb _ OpAnd) eqn:E.
  - rewrite ConjunctionProps.conjunctions_app, forallb_app, <- IHe1, <- IHe2.
    apply andb_comm.
  - simpl. by rewrite andb_true_r.
Qed.

Lemma hasNaN_existsb (e : Node) :
  hasNaN e = existsb hasNaN (conjunctions e []).
Proof.
  induction e using Node_ind; simpl; rewrite ?orb_false_r; try reflexivity.
  destruct (Z.eqb _ OpAnd) eqn:E.
  - rewrite ConjunctionProps.conjunctions_app, existsb_app, <- IHe1, <- IHe2.
    apply orb_comm.
  - simpl. by rewrite orb_false_r.
Qed.

(** A conjunct is not itself a conjunction. *)
Lemma conjunctions_atoms (e : Node) :
  Forall (fun v => conjunctions v [] = [v]) (conjunctions e []).
Proof.
  induction e using Node_ind; simpl; try (by repeat constructor).
  destruct (Z.eqb _ OpAnd) eqn:E.
  - rewrite ConjunctionProps.conjunctions_app. apply Forall_app. auto.
  - repeat constructor. simpl. by rewrite E.
Qed.

Lemma conjunctions_fold_And (rest : list Node) (o : Node) (acc : list Node) :
  conjunctions (fold_left And rest o) acc
  = acc ++ concat (map (fun v => conjunctions v []) (rev (o :: rest))).
Proof.
  revert acc. induction rest as [| x rest IH] using rev_ind; intros acc.
  - simpl. rewrite app_nil_r. apply ConjunctionProps.conjunctions_app.
  - rewrite fold_left_app. simpl fold_left. unfold And at 1.
    simpl conjunctions. rewrite IH.
    rewrite (ConjunctionProps.conjunctions_app x acc).
    change (o :: rest ++ [x]) with ((o :: rest) ++ [x]).
    rewrite (rev_app_distr (o :: rest) [x]).
    change (rev [x] ++ rev (o :: rest)) with (x :: rev (o :: rest)).
    cbn [map concat]. by rewrite <- app_assoc.
Qed.

Lemma concat_atoms (l : list Node) :
  Forall (fun v => conjunctions v [] = [v]) l ->
  concat (map (fun v => conjunctions v []) l) = l.
Proof.
  induction 1 as [| v l Hv _ IH]; simpl; [reflexivity |].
  by rewrite Hv, IH.
Qed.

Lemma conjunctions_nonempty (e : Node) (l : list Node) :
  conjunctions e l <> [].
Proof.
  revert l.
  induction e as [ | | | | | | | | | | | | | op e1 IH1 e2 IH2 | | | | | | | |
                  | | | | | | | | ]
    using Node_ind; intros l; simpl; try (by destruct l).
  destruct (Z.eqb op OpAnd); [apply IH1 | by destruct l].
Qed.

(** X15: a filter expression may be removed exactly when each of its
    top-level conjuncts may be. *)
Theorem canRemoveHint_conjunctions (e : Node) :
  canRemoveHint e = forallb canRemoveHint (conjunctions e []).
Proof. apply canRemoveHint_forallb. Qed.

(** X16: taking the conjunctions of what [conjoin] builds from a list
    gives the conjunctions of the elements, last element first; for a
    list of conjuncts (of any expression) that is the list reversed.
    [conjoin] panics on the empty list only. *)
Theorem conjunctions_conjoin (x acc : list Node) (e : Node) :
  match conjoin x with
  | Some c =>
      conjunctions c acc
      = acc ++ concat (map (fun v => conjunctions v []) (rev x))
  | None => x = []
  end /\
  match conjoin (conjunctions e []) with
  | Some c => conjunctions c [] = rev (conjunctions e [])
  | None => False
  end.
Proof.
  split.
  - destruct x as [| o rest]; [reflexivity |]. apply conjunctions_fold_And.
  - destruct (conjunctions e []) as [| o rest] eqn:E.
    + by apply conjunctions_nonempty in E.
    + unfold conjoin. rewrite conjunctions_fold_And. simpl app.
      apply concat_atoms. rewrite <- E.
      apply Forall_rev. apply conjunctions_atoms.
Qed.

End HintProps.

(** ** The field list of a merged input *)

Module FieldsProps.

Import expr plan dedup fieldset.

Lemma upto_trans (a b c : string) : upto a b -> upto b c -> upto a c.
Proof.
  unfold upto. intros H1 H2.
  apply Is_true_true. apply Is_true_true in H1, H2.
  exact (transitivity (R := String.le) H1 H2).
Qed.

Lemma before_upto (a b : string) : before a b <-> upto a b /\ a <> b.
Proof.
  unfold before, upto, String.ltb, String.leb. split.
  - destruct (String.compare a b) eqn:E; try discriminate.
    intros _. split; [reflexivity |]. intros ->.
    assert (String.compare b b = Eq) as Hr.
    { clear. induction b as [| c b IH]; simpl; [reflexivity |].
      unfold Ascii.compare. by rewrite N.compare_refl. }
    congruence.
  - intros [H Hne]. destruct (String.compare a b) eqn:E; try reflexivity.
    + by apply String.compare_eq_iff in E.
    + discriminate.
Qed.

Lemma before_trans : Transitive before.
Proof.
  intros a b c Hab Hbc.
  apply before_upto in Hab as [Hab Nab]. apply before_upto in Hbc as [Hbc Nbc].
  apply before_upto. split; [by apply (upto_trans a b c) |].
  intros ->. apply Nab. by apply String.leb_antisym.
Qed.

(** *** Sort *)

Lemma insert_sorted_perm (s : string) (l : list string) :
  insert_sorted s l ≡ₚ s :: l.
Proof.
  induction l as [| t l IH]; simpl; [reflexivity |].
  destruct (String.leb s t); [reflexivity |].
  rewrite IH. apply perm_swap.
Qed.

Lemma Sort_perm (l : list string) : Sort l ≡ₚ l.
Proof.
  induction l as [| s l IH]; simpl; [reflexivity |].
  unfold Sort in *. simpl. by rewrite insert_sorted_perm, IH.
Qed.

Lemma insert_sorted_Sorted (s : string) (l : list string) :
  Sorted upto l -> Sorted upto (insert_sorted s l).
Proof.
  induction 1 as [| t l Hl IH Hhd]; simpl; [by repeat constructor |].
  destruct (String.leb s t) eqn:E.
  - constructor; [by constructor | by constructor].
  - constructor; [exact IH |].
    assert (upto t s) as Hts by (destruct (String.leb_total s t); [congruence | done]).
    destruct Hhd as [| u l Htu]; simpl; [by constructor |].
    destruct (String.leb s u); by constructor.
Qed.

Lemma Sort_Sorted (l : list string) : Sorted upto (Sort l).
Proof.
  induction l as [| s l IH]; [constructor |].
  unfold Sort in *. simpl. by apply insert_sorted_Sorted.
Qed.

(** *** Compact *)

Lemma Compact_head (s : string) (l : list string) :
  exists l', Compact (s :: l) = s :: l'.
Proof.
  revert s. induction l as [| t l IH]; intros s; [by exists [] |].
  change (Compact (s :: t :: l))
    with (if String.eqb s t then Compact (t :: l) else s :: Compact (t :: l)).
  destruct (String.eqb_spec s t) as [-> | _]; [apply IH | eauto].
Qed.

Lemma Compact_elem (s : string) (l : list string) :
  s ∈ Compact l <-> s ∈ l.
Proof.
  induction l as [| t l IH]; [reflexivity |].
  destruct l as [| u l]; [reflexivity |].
  change (Compact (t :: u :: l))
    with (if String.eqb t u then Compact (u :: l) else t :: Compact (u :: l)).
  destruct (String.eqb_spec t u) as [-> | _].
  - rewrite IH. rewrite !elem_of_cons. tauto.
  - rewrite elem_of_cons, IH, (elem_of_cons (u :: l)). tauto.
Qed.

Lemma Compact_Sorted (l : list string) :
  Sorted upto l -> Sorted before (Compact l).
Proof.
  induction 1 as [| t l Hl IH Hhd]; [constructor |].
  destruct l as [| u l]; [by repeat constructor |].
  change (Compact (t :: u :: l))
    with (if String.eqb t u then Compact (u :: l) else t :: Compact (u :: l)).
  destruct (String.eqb_spec t u) as [-> | Hne]; [exact IH |].
  constructor; [exact IH |].
  destruct (Compact_head u l) as [l' ->]. constructor.
  apply before_upto. split; [by inversion_clear Hhd | exact Hne].
Qed.

Lemma Compact_Sort (l : list string) :
  StronglySorted before (Compact (Sort l)) /\
  forall s, s ∈ Compact (Sort l) <-> s ∈ l.
Proof.
  split.
  - apply Sorted_StronglySorted; [exact before_trans |].
    apply Compact_Sorted, Sort_Sorted.
  - intros s. by rewrite Compact_elem, Sort_perm.
Qed.

Section Fields.

Variable TableHandle : Type.

(** X17: what a call of [merge] leaves in the receiver.  A refused
    merge leaves it as it was.  A merge that succeeds keeps the table
    and drops the handle; if the receiver asked for all fields it still
    does, with its field list untouched; if only the other input did,
    the receiver now asks for all fields and its field list is empty;
    otherwise the field list is strictly sorted (hence without
    duplicates) and holds exactly the fields of the two inputs. *)
Theorem merge_fields (i in_ : input TableHandle) :
  match merge _ i in_ with
  | Returns (true, i') =>
      table _ i' = table _ i /\
      handle _ i' = None /\
      match AllFields (hints _ i), AllFields (hints _ in_) with
      | true, _ =>
          AllFields (hints _ i') = true /\
          Fields (hints _ i') = Fields (hints _ i)
      | false, true =>
          AllFields (hints _ i') = true /\ Fields (hints _ i') = []
      | false, false =>
          AllFields (hints _ i') = false /\
          StronglySorted before (Fields (hints _ i')) /\
          forall s, s ∈ Fields (hints _ i')
                    <-> s ∈ Fields (hints _ i) \/ s ∈ Fields (hints _ in_)
      end
  | Returns (false, i') => i' = i
  | _ => True
  end.
Proof.
  unfold merge.
  destruct (Equals (table _ i) (table _ in_)) as [[] |]; [| reflexivity | exact I].
  unfold mergeFilterHint.
  destruct (outer _ _ _ _ _) as [[| xc yc ov k] | |]; try exact I; [reflexivity |].
  destruct (negb (forallb canRemoveHint (drop k xc))); [reflexivity |].
  destruct (negb (forallb canRemoveHint yc)); [reflexivity |].
  unfold set_filter. cbn [hints AllFields table handle Fields Filter].
  destruct (AllFields (hints _ i)) eqn:Ei;
    cbn [hints AllFields table handle Fields Filter].
  - repeat split.
  - destruct (AllFields (hints _ in_)) eqn:En;
      cbn [hints AllFields table handle Fields Filter].
    + repeat split.
    + repeat split; try apply Compact_Sort.
      * intros H. apply (proj1 (proj2 (Compact_Sort _) s)) in H.
        by apply elem_of_app in H.
      * intros H. apply (proj2 (proj2 (Compact_Sort _) s)).
        by apply elem_of_app.
Qed.

End Fields.

End FieldsProps.

(** ** Merging and putting the same input again *)

Module RepeatProps.

Import expr plan dedup ops fieldset.

(** The loop of [mergeFilterHint] on two copies of one list pairs each
    conjunct with its copy. *)
Lemma outer_copies (fuel : nat) (L ov : list Node) :
  Forall (fun v => Equivalent v v = Some true) L ->
  (length L < fuel)%nat ->
  exists ov', outer fuel L L ov 0 = Returns (Done [] [] (ov ++ ov') 0) /\ ov' ≡ₚ L.
Proof.
  revert L ov. induction fuel as [| fuel IH]; intros L ov HL Hfuel; [lia |].
  destruct L as [| v L'].
  - exists []. by rewrite app_nil_r.
  - cbn [outer]. simpl length. simpl Nat.ltb. simpl andb. cbv iota.
    change ((v :: L') !! 0%nat) with (Some v). cbv iota.
    inversion HL as [| ? ? Hv HL']; subst.
    cbn [find_equivalent]. rewrite Hv.
    pose proof (DedupProps.swap_remove_perm (v :: L') 0 v eq_refl) as Hp.
    apply Permutation_cons_inv in Hp.
    destruct (IH (swap_remove (v :: L') 0) (ov ++ [v])) as (ov' & Ho & Hov).
    + by rewrite <- Hp.
    + rewrite <- Hp. simpl in Hfuel. lia.
    + exists (v :: ov'). rewrite Ho, <- app_assoc. split; [reflexivity |].
      by rewrite Hov, <- Hp.
Qed.

Lemma conjuncts_clean (f : option Node) :
  clean f = true ->
  Forall (fun v => Equivalent v v = Some true) (conjuncts f).
Proof.
  destruct f as [e |]; simpl; [| constructor].
  intros H. apply negb_true_iff in H.
  rewrite HintProps.hasNaN_existsb in H.
  apply Forall_forall. intros v Hv.
  rewrite SelfEqualsProps.Equivalent_diagonal.
  destruct (hasNaN v) eqn:E; [| reflexivity].
  assert (existsb hasNaN (conjunctions e []) = true); [| congruence].
  apply existsb_exists. exists v. split; [| exact E].
  by apply list_elem_of_In.
Qed.

Lemma conjuncts_conjoin (e : option Node) (ov : list Node) :
  ov ≡ₚ conjuncts e -> conjuncts (conjoin ov) ≡ₚ conjuncts e.
Proof.
  intros Hp. destruct ov as [| o rest]; [exact Hp |].
  unfold conjoin, conjuncts at 1.
  rewrite HintProps.conjunctions_fold_And, app_nil_l.
  rewrite HintProps.concat_atoms.
  - etransitivity; [symmetry; apply Permutation_rev | exact Hp].
  - apply Forall_rev. rewrite Hp.
    destruct e as [e |]; [apply HintProps.conjunctions_atoms | constructor].
Qed.

Section Repeat.

Variable TableHandle : Type.

Lemma merge_copy (i : input TableHandle) :
  hasNaN (table _ i) = false ->
  clean (Filter (hints _ i)) = true ->
  exists i',
    merge _ i i = Returns (true, i') /\
    table _ i' = table _ i /\
    handle _ i' = None /\
    conjuncts (Filter (hints _ i')) ≡ₚ conjuncts (Filter (hints _ i)) /\
    AllFields (hints _ i') = AllFields (hints _ i) /\
    forall s, s ∈ Fields (hints _ i') <-> s ∈ Fields (hints _ i).
Proof.
  intros Ht Hc. unfold merge.
  rewrite SelfEqualsProps.Equals_diagonal, Ht. cbn [negb].
  unfold mergeFilterHint.
  fold (conjuncts (Filter (hints _ i))).
  destruct (outer_copies (S (length (conjuncts (Filter (hints _ i)))))
                         (conjuncts (Filter (hints _ i))) []
                         (conjuncts_clean _ Hc) ltac:(lia)) as (ov & Ho & Hov).
  rewrite Ho. simpl app. simpl drop. cbn [forallb negb].
  unfold set_filter. cbn [hints AllFields table handle Fields Filter].
  pose proof (conjuncts_conjoin _ _ Hov) as Hcj.
  destruct (AllFields (hints _ i)) eqn:Ea;
    cbn [hints AllFields table handle Fields Filter].
  - eexists. split; [reflexivity |].
    cbn [hints AllFields table handle Fields Filter]. by repeat split.
  - eexists. split; [reflexivity |].
    cbn [hints AllFields table handle Fields Filter].
    repeat split; try done.
    + intros H. apply (proj1 (proj2 (FieldsProps.Compact_Sort _) s)) in H.
      apply elem_of_app in H. tauto.
    + intros H. apply (proj2 (proj2 (FieldsProps.Compact_Sort _) s)).
      apply elem_of_app. tauto.
Qed.

(** X18: merging an input with a copy of itself succeeds when neither
    its table expression nor its filter hint holds a NaN: the table is
    kept, the handle dropped, the filter hint has the same conjuncts (in
    some order), and the field list the same fields. *)
Theorem merge_self (i : input TableHandle) :
  hasNaN (table _ i) = false ->
  clean (Filter (hints _ i)) = true ->
  exists i',
    merge _ i i = Returns (true, i') /\
    table _ i' = table _ i /\
    handle _ i' = None /\
    conjuncts (Filter (hints _ i')) ≡ₚ conjuncts (Filter (hints _ i)) /\
    AllFields (hints _ i') = AllFields (hints _ i) /\
    forall s, s ∈ Fields (hints _ i') <-> s ∈ Fields (hints _ i).
Proof. apply merge_copy. Qed.

(** *** put *)

Lemma merge_outcome (slot in_ : input TableHandle) (b : bool)
      (slot' : input TableHandle) :
  merge _ slot in_ = Returns (b, slot') ->
  table _ slot' = table _ slot /\
  if b then Equals (table _ slot) (table _ in_) = Some true else slot' = slot.
Proof.
  unfold merge.
  destruct (Equals (table _ slot) (table _ in_)) as [[] |]; [| | discriminate].
  - unfold mergeFilterHint.
    destruct (outer _ _ _ _ _) as [[| xc yc ov k] | |]; try discriminate.
    + by intros [= <- <-].
    + destruct (negb (forallb canRemoveHint (drop k xc))); [by intros [= <- <-] |].
      destruct (negb (forallb canRemoveHint yc)); [by intros [= <- <-] |].
      unfold set_filter. cbn [hints AllFields table handle Fields Filter].
      destruct (AllFields (hints _ slot));
        [| destruct (AllFields (hints _ in_))]; by intros [= <- <-].
  - by intros [= <- <-].
Qed.

Lemma put_from_slots (done_ rest : list (input TableHandle))
      (in_ : input TableHandle) (ins : list (input TableHandle)) (l : Z) :
  put_from _ done_ rest in_ = Returns (ins, l) ->
  exists k,
    l = Z.of_nat k /\
    (length done_ <= k <= length (done_ ++ rest))%nat /\
    map (table _) ins
    = map (table _) (done_ ++ rest)
      ++ (if (k =? length (done_ ++ rest))%nat then [table _ in_] else []) /\
    match (done_ ++ rest) !! k with
    | Some old => Equals (table _ old) (table _ in_) = Some true
    | None => k = length (done_ ++ rest)
    end.
Proof.
  revert done_. induction rest as [| slot rest IH]; intros done_; simpl.
  - intros [= <- <-]. exists (length done_). rewrite app_nil_r.
    rewrite Nat.eqb_refl, map_app.
    rewrite (proj2 (lookup_ge_None done_ (length done_))) by lia.
    repeat split; lia.
  - destruct (merge _ slot in_) as [[[] slot'] | |] eqn:Em; try discriminate.
    + apply merge_outcome in Em as [Et Ee].
      intros [= <- <-]. exists (length done_).
      rewrite list_lookup_middle by reflexivity.
      rewrite !map_app, length_app. simpl. rewrite Et.
      destruct (Nat.eqb_spec (length done_) (length done_ + S (length rest)));
        [lia |].
      rewrite app_nil_r. repeat split; try lia. exact Ee.
    + apply merge_outcome in Em as [_ ->].
      intros H. destruct (IH _ H) as (k & -> & Hk & Hm & Ho).
      rewrite <- app_assoc in Hk, Hm, Ho. simpl in Hk, Hm, Ho.
      rewrite length_app in Hk. simpl in Hk.
      exists k. repeat split; try lia; try assumption.
Qed.

(** X19: after [put], [latest] is the position of a slot, and at most
    one slot has been added, at the end: the slots that were there keep
    their positions and their tables.  The slot at [latest] is either
    the new last slot, whose table is the table of the leaf, or a slot
    that was there, whose table [Equals] the table of the leaf. *)
Theorem put_latest (w : walker TableHandle) (it : pir.IterTable) :
  match put _ w it with
  | Returns w' =>
      exists k,
        latest _ w' = Z.of_nat k /\
        (k < length (inputs _ w'))%nat /\
        map (table _) (inputs _ w')
        = map (table _) (inputs _ w)
          ++ (if (k =? length (inputs _ w))%nat then [pir.Table it] else []) /\
        match inputs _ w !! k with
        | Some old => Equals (table _ old) (pir.Table it) = Some true
        | None => k = length (inputs _ w)
        end
  | _ => True
  end.
Proof.
  unfold put.
  destruct (put_from _ [] (inputs _ w) (trial _ it)) as [[ins l] | |] eqn:E;
    try exact I.
  destruct (put_from_slots _ _ _ _ _ E) as (k & -> & Hk & Hm & Ho).
  simpl in Hk, Hm, Ho. exists k. cbn [latest inputs].
  split; [reflexivity |]. split; [| split; [exact Hm | exact Ho]].
  apply (f_equal (@length _)) in Hm.
  rewrite length_app, !length_map in Hm.
  destruct (Nat.eqb_spec k (length (inputs _ w))); simpl in Hm; [lia |].
  lia.
Qed.

(** X20: putting a leaf that no slot merges with, and then the same
    leaf again, leaves one new slot: the second [put] merges into the
    slot that the first one added, and [latest] is that slot both
    times.  (The table expression and the filter of the leaf hold no
    NaN.) *)
Theorem put_twice (w : walker TableHandle) (it : pir.IterTable) :
  Forall (fun slot => merge _ slot (trial _ it) = Returns (false, slot))
         (inputs _ w) ->
  hasNaN (pir.Table it) = false ->
  clean (pir.Filter it) = true ->
  exists w1 w2 slot,
    put _ w it = Returns w1 /\
    put _ w1 it = Returns w2 /\
    inputs _ w1 = inputs _ w ++ [trial _ it] /\
    inputs _ w2 = inputs _ w ++ [slot] /\
    latest _ w1 = Z.of_nat (length (inputs _ w)) /\
    latest _ w2 = Z.of_nat (length (inputs _ w)) /\
    table _ slot = pir.Table it /\
    conjuncts (Filter (hints _ slot)) ≡ₚ conjuncts (pir.Filter it).
Proof.
  intros Hw Ht Hc.
  destruct (merge_copy (trial _ it) Ht Hc) as (slot & Hm & Hts & _ & Hcs & _).
  exists (mkWalker _ (inputs _ w ++ [trial _ it]) (Z.of_nat (length (inputs _ w)))),
         (mkWalker _ (inputs _ w ++ [slot]) (Z.of_nat (length (inputs _ w)))),
         slot.
  split; [by apply DedupProps.put_appends |].
  split; [| by repeat split].
  unfold put. cbn [inputs].
  assert (forall done_,
             put_from _ done_ (inputs _ w ++ [trial _ it]) (trial _ it)
             = Returns (done_ ++ inputs _ w ++ [slot],
                        Z.of_nat (length (done_ ++ inputs _ w)))) as Hp.
  { clear -Hw Hm. induction Hw as [| s rest Hs _ IH]; intros done_; simpl.
    - by rewrite Hm, app_nil_r.
    - rewrite Hs, IH, <- !app_assoc. reflexivity. }
  by rewrite Hp.
Qed.

End Repeat.

Lemma merge_self_witness :
  (hasNaN (table _ examples.example_x) = false /\
   clean (Filter (hints _ examples.example_x)) = true) /\
  exists i',
    merge unit examples.example_x examples.example_x = Returns (true, i') /\
    table _ i' = table _ examples.example_x /\
    handle _ i' = None /\
    conjuncts (Filter (hints _ i'))
      ≡ₚ conjuncts (Filter (hints _ examples.example_x)) /\
    AllFields (hints _ i') = AllFields (hints _ examples.example_x) /\
    forall s, s ∈ Fields (hints _ i') <-> s ∈ Fields (hints _ examples.example_x).
Proof.
  split; [split; reflexivity |].
  exact (merge_self unit examples.example_x eq_refl eq_refl).
Defined.

Lemma put_twice_witness :
  (Forall (fun slot => merge unit slot (trial _ examples.example_it)
                       = Returns (false, slot)) [] /\
   hasNaN (pir.Table examples.example_it) = false /\
   clean (pir.Filter examples.example_it) = true) /\
  exists w1 w2 slot,
    put unit (mkWalker _ [] (-1)) examples.example_it = Returns w1 /\
    put _ w1 examples.example_it = Returns w2 /\
    inputs _ w1 = [] ++ [trial _ examples.example_it] /\
    inputs _ w2 = [] ++ [slot] /\
    latest _ w1 = Z.of_nat (length (@nil (input unit))) /\
    latest _ w2 = Z.of_nat (length (@nil (input unit))) /\
    table _ slot = pir.Table examples.example_it /\
    conjuncts (Filter (hints _ slot)) ≡ₚ conjuncts (pir.Filter examples.example_it).
Proof.
  split; [split; [constructor | split; reflexivity] |].
  exact (put_twice unit (mkWalker _ [] (-1)) examples.example_it
           ltac:(constructor) eq_refl eq_refl).
Defined.

End RepeatProps.

(** ** The optimizer at a fixed point *)

Module FixedPointProps.

Import pir trace.

Section FixedPoint.

Variable Payload : Type.

Local Abbreviation heap := (gmap nat (node Payload)).
Local Abbreviation rule := (rule Payload).
Local Abbreviation optimizer := (gmap string (list rule)).

(** *** More fuel *)

Lemma walk_S (fuel : nat) (fpo : optimizer) (h : heap) (t prev s : Step)
      (c : bool) :
  walk _ (S fuel) fpo h t prev s c
  = match s with
    | None => Returns (h, t, c)
    | Some p =>
        match apply _ fpo p h with
        | Returns (n, status, h1) =>
            if N.eqb status fpoUpdate then walk _ fuel fpo h1 t prev s true
            else if N.eqb status fpoReplace then
              match prev with
              | Some q =>
                  match setparent _ q n h1 with
                  | Returns h2 => walk _ fuel fpo h2 t prev n true
                  | Panics => Panics
                  | OutOfFuel => OutOfFuel
                  end
              | None => walk _ fuel fpo h1 n prev n true
              end
            else if N.eqb status fpoIntact then
              match parent _ p h1 with
              | Returns next => walk _ fuel fpo h1 t (Some p) next c
              | Panics => Panics
              | OutOfFuel => OutOfFuel
              end
            else walk _ fuel fpo h1 t prev s c
        | Panics => Panics
        | OutOfFuel => OutOfFuel
        end
    end.
Proof. reflexivity. Qed.

Lemma optimize_S (fuel : nat) (fpo : optimizer) (h : heap) (t : Step) :
  optimize _ (S fuel) fpo h t
  = match walk _ fuel fpo h t None t false with
    | Returns (h', t', true) => optimize _ fuel fpo h' t'
    | Returns (h', t', false) => Returns (h', t')
    | Panics => Panics
    | OutOfFuel => OutOfFuel
    end.
Proof. reflexivity. Qed.

Lemma walk_more (fuel : nat) (fpo : optimizer) (h : heap) (t prev s : Step)
      (c : bool) (r : heap * Step * bool) :
  walk _ fuel fpo h t prev s c = Returns r ->
  walk _ (S fuel) fpo h t prev s c = Returns r.
Proof.
  revert h t prev s c. induction fuel as [| fuel IH]; intros h t prev s c;
    [discriminate |].
  intros H. rewrite walk_S in H. rewrite walk_S.
  destruct s as [p |]; [| exact H].
  destruct (apply _ fpo p h) as [[[n status] h1] | |]; try discriminate.
  destruct (N.eqb status fpoUpdate); [by apply IH |].
  destruct (N.eqb status fpoReplace).
  - destruct prev as [q |]; [| by apply IH].
    destruct (setparent _ q n h1); try discriminate. by apply IH.
  - destruct (N.eqb status fpoIntact); [| by apply IH].
    destruct (parent _ p h1); try discriminate. by apply IH.
Qed.

Lemma optimize_more (fuel : nat) (fpo : optimizer) (h : heap) (t : Step)
      (r : heap * Step) :
  optimize _ fuel fpo h t = Returns r ->
  optimize _ (S fuel) fpo h t = Returns r.
Proof.
  revert h t. induction fuel as [| fuel IH]; intros h t; [discriminate |].
  intros H. rewrite optimize_S in H. rewrite optimize_S.
  destruct (walk _ fuel fpo h t None t false) as [[[h1 t1] b] | |] eqn:Ew;
    try discriminate.
  rewrite (walk_more _ _ _ _ _ _ _ _ Ew).
  destruct b; [by apply IH | exact H].
Qed.

(** *** A pass that changes nothing *)

Lemma walk_changed (fuel : nat) (fpo : optimizer) (h : heap) (t prev s : Step)
      (h' : heap) (t' : Step) (c' : bool) :
  walk _ fuel fpo h t prev s true = Returns (h', t', c') -> c' = true.
Proof.
  revert h t prev s. induction fuel as [| fuel IH]; intros h t prev s;
    [discriminate |].
  rewrite walk_S. destruct s as [p |]; [| by intros [= _ _ <-]].
  destruct (apply _ fpo p h) as [[[n status] h1] | |]; try discriminate.
  destruct (N.eqb status fpoUpdate); [apply IH |].
  destruct (N.eqb status fpoReplace).
  - destruct prev as [q |]; [| apply IH].
    destruct (setparent _ q n h1); try discriminate. apply IH.
  - destruct (N.eqb status fpoIntact); [| apply IH].
    destruct (parent _ p h1); try discriminate. apply IH.
Qed.

Lemma apply_rules_quiet (rs : list rule) (s : ptr) (h h1 : heap) (n : Step)
      (status : fpoStatus) :
  (forall r, r ∈ rs ->
     forall s h n status h1,
       Call _ r s h = (n, status, h1) ->
       status <> fpoUpdate -> status <> fpoReplace -> h1 = h) ->
  apply_rules _ rs s h = Returns (n, status, h1) ->
  status <> fpoUpdate -> status <> fpoReplace -> h1 = h.
Proof.
  revert h. induction rs as [| r rs IH]; intros h Hq; simpl.
  - by intros [= _ _ <-].
  - destruct (Call _ r s h) as [[n0 st0] h0] eqn:Ec.
    destruct (N.eqb_spec st0 fpoIntact) as [-> | Hne]; cbn [negb].
    + intros H Hu Hr. apply IH in H; [| | exact Hu | exact Hr].
      * rewrite H.
        by apply (Hq r (list_elem_of_here _ _) _ _ _ _ _ Ec).
      * intros r' Hr'. apply Hq. by apply list_elem_of_further.
    + destruct n0; [| discriminate]. intros [= <- <- <-] Hu Hr.
      by apply (Hq r (list_elem_of_here _ _) _ _ _ _ _ Ec).
Qed.

Lemma apply_quiet (rules : list rule) (s : ptr) (h h1 : heap) (n : Step)
      (status : fpoStatus) :
  quiet _ rules ->
  apply _ (newFixedPointOptimizer _ rules) s h = Returns (n, status, h1) ->
  status <> fpoUpdate -> status <> fpoReplace -> h1 = h.
Proof.
  intros Hq. unfold apply.
  rewrite OptimizerProps.newFixedPointOptimizer_lookup.
  apply apply_rules_quiet. intros r Hr s0 h0 n0 st0 h2.
  apply Hq. unfold registered in Hr.
  apply list_elem_of_In, filter_In in Hr as [Hr _]. by apply list_elem_of_In.
Qed.

Lemma walk_fixed (fuel : nat) (rules : list rule) (h : heap) (t prev s : Step)
      (c : bool) (h' : heap) (t' : Step) :
  quiet _ rules ->
  walk _ fuel (newFixedPointOptimizer _ rules) h t prev s c
    = Returns (h', t', false) ->
  h' = h /\ t' = t.
Proof.
  intros Hq. revert h t prev s c.
  induction fuel as [| fuel IH]; intros h t prev s c; [discriminate |].
  rewrite walk_S. destruct s as [p |]; [| by intros [= <- <- _]].
  destruct (apply _ _ p h) as [[[n status] h1] | |] eqn:Ea; try discriminate.
  destruct (N.eqb_spec status fpoUpdate) as [-> | Hu].
  { intros H. by apply walk_changed in H. }
  destruct (N.eqb_spec status fpoReplace) as [-> | Hr].
  { destruct prev as [q |].
    - destruct (setparent _ q n h1); try discriminate.
      intros H. by apply walk_changed in H.
    - intros H. by apply walk_changed in H. }
  apply (apply_quiet _ _ _ _ _ _ Hq) in Ea as ->; [| exact Hu | exact Hr].
  destruct (N.eqb status fpoIntact); [| apply IH].
  destruct (parent _ p h); try discriminate. apply IH.
Qed.

(** X21: [optimize] ends at a fixed point: when the rules leave the
    steps alone whenever they report neither [fpoUpdate] nor
    [fpoReplace], optimizing the trace that [optimize] has returned
    gives back that same trace, with the same steps, and needs no more
    fuel. *)
Theorem optimize_idempotent (fuel : nat) (rules : list rule) (h : heap)
        (t : Step) (h' : heap) (t' : Step) :
  quiet _ rules ->
  optimize _ fuel (newFixedPointOptimizer _ rules) h t = Returns (h', t') ->
  optimize _ fuel (newFixedPointOptimizer _ rules) h' t' = Returns (h', t').
Proof.
  intros Hq. revert h t.
  induction fuel as [| fuel IH]; intros h t; [discriminate |].
  rewrite !optimize_S.
  destruct (walk _ fuel _ h t None t false) as [[[h1 t1] b] | |] eqn:Ew;
    try discriminate.
  destruct b.
  - intros H. apply IH in H. by apply optimize_more in H.
  - intros [= <- <-].
    destruct (walk_fixed _ _ _ _ _ _ _ _ _ Hq Ew) as [-> ->].
    by rewrite Ew.
Qed.

(** *** A trace that no rule rewrites *)

Lemma walk_chain (fpo : optimizer) (h : heap) (t prev s : Step) (c : bool)
      (l : list ptr) :
  chain _ h s l ->
  Forall (fun p => exists n, apply _ fpo p h = Returns (n, fpoIntact, h)) l ->
  walk _ (S (length l)) fpo h t prev s c = Returns (h, t, c).
Proof.
  revert prev s. induction l as [| p l IH]; intros prev s Hc Hl.
  - simpl in Hc. subst s. reflexivity.
  - destruct Hc as (-> & nd & Hnd & Hc).
    inversion_clear Hl as [| ? ? [n Hp] Hl'].
    cbn [length]. rewrite walk_S, Hp. cbn [N.eqb fpoIntact fpoUpdate fpoReplace].
    unfold parent. rewrite Hnd.
    by apply IH.
Qed.

(** X22: a trace whose steps are linked down to a step without a
    parent, and on none of which a rule fires, comes back from
    [optimize] as it was, after a single pass: a fuel of two more than
    the number of steps is enough. *)
Theorem optimize_untouched (fpo : optimizer) (h : heap) (t : Step)
        (l : list ptr) :
  chain _ h t l ->
  Forall (fun p => exists n, apply _ fpo p h = Returns (n, fpoIntact, h)) l ->
  optimize _ (S (S (length l))) fpo h t = Returns (h, t).
Proof.
  intros Hc Hl. rewrite optimize_S.
  by rewrite (walk_chain fpo h t None t false l Hc Hl).
Qed.

End FixedPoint.

Lemma drop_filter_quiet : quiet unit [examples.drop_filter].
Proof.
  intros r s h n status h1 Hr. apply list_elem_of_singleton in Hr as ->.
  unfold examples.drop_filter. cbn [Call].
  destruct (h !! address s) as [nd |]; [| by intros [= _ _ <-]].
  destruct (parent_of _ nd); [| by intros [= _ _ <-]].
  by intros [= _ <- _] _ Hr.
Qed.

Lemma optimize_idempotent_witness :
  (quiet unit [examples.drop_filter] /\
   optimize _ 10 (newFixedPointOptimizer _ [examples.drop_filter])
            examples.filtered (Some examples.limit_step)
   = Returns (samples.relinked, Some examples.limit_step)) /\
  optimize _ 10 (newFixedPointOptimizer _ [examples.drop_filter])
           samples.relinked (Some examples.limit_step)
  = Returns (samples.relinked, Some examples.limit_step).
Proof.
  assert (H : optimize _ 10 (newFixedPointOptimizer _ [examples.drop_filter])
                       examples.filtered (Some examples.limit_step)
              = Returns (samples.relinked, Some examples.limit_step))
    by (vm_compute; reflexivity).
  split; [split; [exact drop_filter_quiet | exact H] |].
  exact (optimize_idempotent unit 10 [examples.drop_filter] examples.filtered
           (Some examples.limit_step) samples.relinked (Some examples.limit_step)
           drop_filter_quiet H).
Defined.

Lemma optimize_untouched_witness :
  (chain unit samples.relinked (Some examples.limit_step)
         [examples.limit_step; examples.table_step] /\
   Forall (fun p => exists n,
               apply _ (newFixedPointOptimizer _ [examples.drop_filter]) p
                     samples.relinked
               = Returns (n, fpoIntact, samples.relinked))
          [examples.limit_step; examples.table_step]) /\
  optimize _ (S (S (length [examples.limit_step; examples.table_step])))
           (newFixedPointOptimizer _ [examples.drop_filter])
           samples.relinked (Some examples.limit_step)
  = Returns (samples.relinked, Some examples.limit_step).
Proof.
  assert (Hc : chain unit samples.relinked (Some examples.limit_step)
                     [examples.limit_step; examples.table_step]).
  { split; [reflexivity |]. eexists. split; [vm_compute; reflexivity |].
    split; [reflexivity |]. eexists. split; [vm_compute; reflexivity |].
    reflexivity. }
  assert (Hl : Forall (fun p => exists n,
                  apply _ (newFixedPointOptimizer _ [examples.drop_filter]) p
                        samples.relinked
                  = Returns (n, fpoIntact, samples.relinked))
                 [examples.limit_step; examples.table_step]).
  { repeat constructor; exists None; vm_compute; reflexivity. }
  split; [split; [exact Hc | exact Hl] |].
  exact (optimize_untouched unit (newFixedPointOptimizer _ [examples.drop_filter])
           samples.relinked (Some examples.limit_step)
           [examples.limit_step; examples.table_step] Hc Hl).
Defined.

End FixedPointProps.
